(** * Kaleidoscope JIT: the code generator of [codegenvisitor.cpp]

    A shallow embedding of [ckalei::CodeGenVisitor]: the visitor that lowers
    the AST of [ast.h] to an SSA-form IR, and the driver that submits one
    module per top-level expression to the JIT.

    The IR library itself (LLVM) is not part of the repository.  Its builder
    is modelled as a facade that appends one instruction per [Create*] call
    at the end of the insertion block, except that arithmetic, comparisons
    and conversions whose operands are all constants are folded to a
    constant; pointer identity of values, blocks and functions is modelled by
    identifiers drawn from a counter, and the names the library gives them
    by its per-function symbol tables.  Dereferencing a null pointer and a
    failing [assert] end the run: they are the [Fault] outcome. *)

From Stdlib Require Import Floats Ascii String.
From stdpp Require Import gmap strings list pretty.

Open Scope string_scope.

(** ** The AST of [ast.h] *)

(** [IfExprAST] keeps the members of the class: [elseExpr] is a nullable
    pointer and [haveElse] a flag.  Its two-argument constructor gives
    [IfExprAST cond ifExpr None false]; the three-argument one gives
    [IfExprAST cond ifExpr elseExpr true], where [elseExpr] "can be null".
    The initializer of a declared variable is a nullable pointer, hence an
    option as well.  All other children are owned, non-null sub-trees. *)
#[local] Unset Elimination Schemes.
Inductive ExprAST : Type :=
  | NumberExprAST (val : float)
  | VariableExprAST (name : string)
  | UnaryExprAST (opcode : ascii) (expr : ExprAST)
  | BinaryExprAST (leftExpr rightExpr : ExprAST) (op : ascii)
  | DeclarationExprAST (body : ExprAST) (vars : list (string * option ExprAST))
  | CallExprAST (callee : string) (args : list ExprAST)
  | IfExprAST (cond ifExpr : ExprAST) (elseExpr : option ExprAST) (haveElse : bool)
  | ForExprAST (start step end_ body : ExprAST) (varName : string).
#[local] Set Elimination Schemes.

Record PrototypeAST : Type := mkPrototypeAST {
  getName : string;
  getArgs : list string;
  isOperatorProto : bool;
  getPrecedence : Z
}.

Record FunctionAST : Type := mkFunctionAST {
  getProto : PrototypeAST;
  getBody : ExprAST
}.

(** What a [std::unique_ptr<ASTNode>] can point to. *)
Inductive ASTNode : Type :=
  | ExprNode (e : ExprAST)
  | PrototypeNode (p : PrototypeAST)
  | FunctionNode (f : FunctionAST).

(** ** The IR the builder produces *)

(** [ConstantInt] is a one-bit constant: what a folded comparison gives. *)
Inductive Value : Type :=
  | ConstantFP (val : float)
  | InstructionValue (id : nat)
  | Argument (function : nat) (index : nat)
  | ConstantInt (val : bool).

Inductive Opcode : Type :=
  | Alloca
  | Load
  | Store
  | FAdd
  | FSub
  | FMul
  | FDiv
  | FCmpULT
  | UIToFP
  | FCmpONE
  | Call (callee : nat)
  | Br (dest : nat)
  | CondBr (ifTrue ifFalse : nat)
  | PHI (incoming : list (option nat))
  | Ret.

Record Instruction : Type := mkInstruction {
  inst_id : nat;
  inst_op : Opcode;
  inst_operands : list Value;
  inst_name : string
}.

(** A stack slot: the handle kept in Named Values.  [alloca_name] is the
    name the slot was asked for; the name it has is in [names]. *)
Record AllocaInst : Type := mkAllocaInst {
  alloca_id : nat;
  alloca_name : string
}.

Record BasicBlock : Type := mkBasicBlock {
  bb_id : nat;
  bb_name : string;
  bb_insts : list Instruction
}.

Inductive Pass : Type :=
  | PromoteMemoryToRegister
  | InstructionCombining
  | Reassociate
  | GVN
  | CFGSimplification.

(** [f_renamed] records that the requested name was already taken in the
    module when the function was created: the IR library then gives the new
    function another, unique name, and a lookup of [f_name] keeps finding the
    older function.  [f_passes] is the log of the passes that were run on the
    function (the rewriting they do is the library's and is not modelled). *)
Record Function : Type := mkFunction {
  f_id : nat;
  f_name : string;
  f_renamed : bool;
  f_args : list string;
  f_blocks : list BasicBlock;
  f_passes : list Pass
}.

(** ** Value names

    The IR library keeps the names of the formals, blocks and instructions
    of a function unique.  [symbolTables] holds, for each function, the names
    that are taken in it and the counter unique names are made with;
    [valueName] is the name each named block or instruction has, which is
    what [getName()] returns.  What the passes that are run on a function do
    to its names is, like their rewriting of the function, not modelled. *)
Record ValueNames : Type := mkValueNames {
  symbolTables : gmap nat (gset string * nat);
  valueName : gmap nat string
}.

(** The name a value asks for is taken as it is when it is free in the
    symbol table; otherwise the next values of the table's counter are
    appended to it, in decimal, until the result is free.  The candidates
    differ from each other, so after as many taken ones as the table has
    names the next one is free.  The cut the library makes in a name longer
    than its limit is not modelled. *)
Fixpoint makeUniqueName (fuel : nat) (used : gset string) (lastUnique : nat)
    (name : string) : string * nat :=
  let candidate := name ++ pretty (S lastUnique) in
  match fuel with
  | 0 => (candidate, S lastUnique)
  | S fuel' =>
      if decide (candidate ∈ used)
      then makeUniqueName fuel' used (S lastUnique) name
      else (candidate, S lastUnique)
  end.

Definition createValueName (name : string) (table : gset string * nat)
    : string * (gset string * nat) :=
  let '(used, lastUnique) := table in
  if decide (name ∈ used) then
    let '(name', lastUnique') := makeUniqueName (size used) used lastUnique name in
    (name', ({[name']} ∪ used, lastUnique'))
  else (name, ({[name]} ∪ used, lastUnique)).

Definition symbolTable (fn : nat) (n : ValueNames) : gset string * nat :=
  default (∅, 0) (symbolTables n !! fn).

(** [V->setName(name)] for the value [id] whose function is [owner]: a
    value in no function keeps the name it asked for, and the empty name is
    no name. *)
Definition setName (owner : option nat) (id : nat) (name : string) (n : ValueNames)
    : ValueNames :=
  if decide (name = "") then n
  else
    match owner with
    | Some fn =>
        let '(name', table) := createValueName name (symbolTable fn n) in
        mkValueNames (<[fn := table]> (symbolTables n)) (<[id := name']> (valueName n))
    | None => mkValueNames (symbolTables n) (<[id := name]> (valueName n))
    end.

(** [V->getName()] *)
Definition getValueName (id : nat) (n : ValueNames) : string :=
  default "" (valueName n !! id).

(** A value that comes into a function with a name enters the function's
    symbol table under it, or under a unique one. *)
Definition reinsertValue (fn : nat) (n : ValueNames) (id : nat) : ValueNames :=
  setName (Some fn) id (getValueName id n) n.

(** The formals of a new function are named in order. *)
Definition name_formals (formals : list string) : gset string * nat :=
  fold_left
    (λ table name, if decide (name = "") then table else (createValueName name table).2)
    formals (∅, 0).

(** What looking `__anon_expr` up in the JIT and calling it gives. *)
Inductive JITSymbol : Type :=
  | SymbolNotFound
  | AddressError
  | SymbolValue (val : float).

(** ** Generator state: the members of [CodeGenVisitor] *)

(** [builder] is the insertion block of the IR builder ([None]: no insertion
    point); [detached] holds the blocks created without a parent function and
    not yet appended to one; [jit] is the list of submitted modules;
    [diagnostics] is what [logErrorV] wrote; [nextId] is the identifier
    supply; [names] is the library's record of value names.  [evaluationRes]
    is a [unique_ptr]: [None] is the null pointer. *)
Record CodeGenVisitor : Type := mkCodeGenVisitor {
  module : list Function;
  detached : list BasicBlock;
  builder : option nat;
  passManager : list Pass;
  namedValues : gmap string (option AllocaInst);
  functionProtos : gmap string PrototypeAST;
  lastValue : option Value;
  lastFunction : option nat;
  evaluationRes : option (list float);
  jitTopLevel : bool;
  debug : bool;
  jit : list (list Function);
  diagnostics : list string;
  nextId : nat;
  names : ValueNames
}.

Definition set_module (x : list Function) (s : CodeGenVisitor) : CodeGenVisitor :=
  mkCodeGenVisitor x (detached s) (builder s) (passManager s) (namedValues s)
    (functionProtos s) (lastValue s) (lastFunction s) (evaluationRes s)
    (jitTopLevel s) (debug s) (jit s) (diagnostics s) (nextId s) (names s).

Definition set_detached (x : list BasicBlock) (s : CodeGenVisitor) : CodeGenVisitor :=
  mkCodeGenVisitor (module s) x (builder s) (passManager s) (namedValues s)
    (functionProtos s) (lastValue s) (lastFunction s) (evaluationRes s)
    (jitTopLevel s) (debug s) (jit s) (diagnostics s) (nextId s) (names s).

Definition set_builder (x : option nat) (s : CodeGenVisitor) : CodeGenVisitor :=
  mkCodeGenVisitor (module s) (detached s) x (passManager s) (namedValues s)
    (functionProtos s) (lastValue s) (lastFunction s) (evaluationRes s)
    (jitTopLevel s) (debug s) (jit s) (diagnostics s) (nextId s) (names s).

Definition set_passManager (x : list Pass) (s : CodeGenVisitor) : CodeGenVisitor :=
  mkCodeGenVisitor (module s) (detached s) (builder s) x (namedValues s)
    (functionProtos s) (lastValue s) (lastFunction s) (evaluationRes s)
    (jitTopLevel s) (debug s) (jit s) (diagnostics s) (nextId s) (names s).

Definition set_namedValues (x : gmap string (option AllocaInst)) (s : CodeGenVisitor)
  : CodeGenVisitor :=
  mkCodeGenVisitor (module s) (detached s) (builder s) (passManager s) x
    (functionProtos s) (lastValue s) (lastFunction s) (evaluationRes s)
    (jitTopLevel s) (debug s) (jit s) (diagnostics s) (nextId s) (names s).

Definition set_functionProtos (x : gmap string PrototypeAST) (s : CodeGenVisitor)
  : CodeGenVisitor :=
  mkCodeGenVisitor (module s) (detached s) (builder s) (passManager s) (namedValues s)
    x (lastValue s) (lastFunction s) (evaluationRes s)
    (jitTopLevel s) (debug s) (jit s) (diagnostics s) (nextId s) (names s).

Definition set_lastValue (x : option Value) (s : CodeGenVisitor) : CodeGenVisitor :=
  mkCodeGenVisitor (module s) (detached s) (builder s) (passManager s) (namedValues s)
    (functionProtos s) x (lastFunction s) (evaluationRes s)
    (jitTopLevel s) (debug s) (jit s) (diagnostics s) (nextId s) (names s).

Definition set_lastFunction (x : option nat) (s : CodeGenVisitor) : CodeGenVisitor :=
  mkCodeGenVisitor (module s) (detached s) (builder s) (passManager s) (namedValues s)
    (functionProtos s) (lastValue s) x (evaluationRes s)
    (jitTopLevel s) (debug s) (jit s) (diagnostics s) (nextId s) (names s).

Definition set_evaluationRes (x : option (list float)) (s : CodeGenVisitor)
  : CodeGenVisitor :=
  mkCodeGenVisitor (module s) (detached s) (builder s) (passManager s) (namedValues s)
    (functionProtos s) (lastValue s) (lastFunction s) x
    (jitTopLevel s) (debug s) (jit s) (diagnostics s) (nextId s) (names s).

Definition set_jitTopLevel (x : bool) (s : CodeGenVisitor) : CodeGenVisitor :=
  mkCodeGenVisitor (module s) (detached s) (builder s) (passManager s) (namedValues s)
    (functionProtos s) (lastValue s) (lastFunction s) (evaluationRes s)
    x (debug s) (jit s) (diagnostics s) (nextId s) (names s).

Definition set_debug (x : bool) (s : CodeGenVisitor) : CodeGenVisitor :=
  mkCodeGenVisitor (module s) (detached s) (builder s) (passManager s) (namedValues s)
    (functionProtos s) (lastValue s) (lastFunction s) (evaluationRes s)
    (jitTopLevel s) x (jit s) (diagnostics s) (nextId s) (names s).

Definition set_jit (x : list (list Function)) (s : CodeGenVisitor) : CodeGenVisitor :=
  mkCodeGenVisitor (module s) (detached s) (builder s) (passManager s) (namedValues s)
    (functionProtos s) (lastValue s) (lastFunction s) (evaluationRes s)
    (jitTopLevel s) (debug s) x (diagnostics s) (nextId s) (names s).

Definition set_diagnostics (x : list string) (s : CodeGenVisitor) : CodeGenVisitor :=
  mkCodeGenVisitor (module s) (detached s) (builder s) (passManager s) (namedValues s)
    (functionProtos s) (lastValue s) (lastFunction s) (evaluationRes s)
    (jitTopLevel s) (debug s) (jit s) x (nextId s) (names s).

Definition set_nextId (x : nat) (s : CodeGenVisitor) : CodeGenVisitor :=
  mkCodeGenVisitor (module s) (detached s) (builder s) (passManager s) (namedValues s)
    (functionProtos s) (lastValue s) (lastFunction s) (evaluationRes s)
    (jitTopLevel s) (debug s) (jit s) (diagnostics s) x (names s).

Definition set_names (x : ValueNames) (s : CodeGenVisitor) : CodeGenVisitor :=
  mkCodeGenVisitor (module s) (detached s) (builder s) (passManager s) (namedValues s)
    (functionProtos s) (lastValue s) (lastFunction s) (evaluationRes s)
    (jitTopLevel s) (debug s) (jit s) (diagnostics s) (nextId s) x.

(** ** Outcomes *)

Inductive Outcome (A : Type) : Type :=
  | Ok (a : A)
  | Fault.
Arguments Ok {A} a.
Arguments Fault {A}.

Definition bind {A B : Type} (x : Outcome A) (k : A → Outcome B) : Outcome B :=
  match x with
  | Ok a => k a
  | Fault => Fault
  end.

Notation "'let*' x := c 'in' k" := (bind c (fun x => k))
  (at level 10, x pattern, c at level 200, k at level 200).

(** A loop body that can [return] from the enclosing visitor. *)
Inductive Flow (A : Type) : Type :=
  | Continue (a : A) (s : CodeGenVisitor)
  | Return (s : CodeGenVisitor).
Arguments Continue {A} a s.
Arguments Return {A} s.

(** ** The IR builder facade *)

Definition append_inst (bb : nat) (i : Instruction) (b : BasicBlock) : BasicBlock :=
  if decide (bb_id b = bb)
  then mkBasicBlock (bb_id b) (bb_name b) (bb_insts b ++ [i])
  else b.

Definition map_blocks (g : BasicBlock → BasicBlock) (f : Function) : Function :=
  mkFunction (f_id f) (f_name f) (f_renamed f) (f_args f) (g <$> f_blocks f) (f_passes f).

(** [IRBuilder::Insert]: the instruction goes to the end of the insertion
    block; with no insertion point it is created but inserted nowhere. *)
Definition Insert (i : Instruction) (s : CodeGenVisitor) : CodeGenVisitor :=
  match builder s with
  | None => s
  | Some bb =>
      set_detached (append_inst bb i <$> detached s)
        (set_module (map_blocks (append_inst bb i) <$> module s) s)
  end.

Definition has_block (bb : nat) (f : Function) : bool :=
  existsb (λ b, bool_decide (bb_id b = bb)) (f_blocks f).

(** The function the insertion block is in, if any. *)
Definition insertion_function (s : CodeGenVisitor) : option nat :=
  match builder s with
  | None => None
  | Some bb => f_id <$> find (has_block bb) (module s)
  end.

(** One [builder->Create*] call: a new instruction with a fresh identity,
    inserted and then named.  [inst_name] is the name that was asked for. *)
Definition Create (op : Opcode) (operands : list Value) (name : string)
    (s : CodeGenVisitor) : Value * CodeGenVisitor :=
  let id := nextId s in
  (InstructionValue id,
   set_names (setName (insertion_function s) id name (names s))
     (Insert (mkInstruction id op operands name) (set_nextId (S id) s))).

(** The builder's constant folder.  [CreateFAdd], [CreateFSub], [CreateFMul],
    [CreateFDiv], [CreateFCmpULT], [CreateFCmpONE] and [CreateUIToFP] hand
    their operands to it first: when all of them are constants the call
    returns the folded constant and creates no instruction.  Doubles are IEEE
    binary64 on both sides; the unordered comparison is true when an operand
    is a NaN, the ordered one is false. *)
Definition is_constant (v : Value) : bool :=
  match v with
  | ConstantFP _ | ConstantInt _ => true
  | InstructionValue _ | Argument _ _ => false
  end.

Definition fold_constants (op : Opcode) (operands : list Value) : option Value :=
  match op, operands with
  | FAdd, [ConstantFP a; ConstantFP b] => Some (ConstantFP (a + b))
  | FSub, [ConstantFP a; ConstantFP b] => Some (ConstantFP (a - b))
  | FMul, [ConstantFP a; ConstantFP b] => Some (ConstantFP (a * b))
  | FDiv, [ConstantFP a; ConstantFP b] => Some (ConstantFP (a / b))
  | FCmpULT, [ConstantFP a; ConstantFP b] => Some (ConstantInt (negb (b <=? a)%float))
  | FCmpONE, [ConstantFP a; ConstantFP b] =>
      Some (ConstantInt ((a <? b)%float || (b <? a)%float))
  | UIToFP, [ConstantInt b] => Some (ConstantFP (if b then 1 else 0))
  | _, _ => None
  end.

(** One [builder->Create*] call that goes through the folder. *)
Definition CreateOrFold (op : Opcode) (operands : list Value) (name : string)
    (s : CodeGenVisitor) : Value * CodeGenVisitor :=
  match fold_constants op operands with
  | Some c => (c, s)
  | None => Create op operands name s
  end.

Definition AllocaValue (a : AllocaInst) : Value := InstructionValue (alloca_id a).

(** [builder->CreateLoad(ptr, name)] reads the pointee type through [ptr]:
    a null [ptr] is dereferenced. *)
Definition CreateLoad (ptr : option AllocaInst) (name : string) (s : CodeGenVisitor)
    : Outcome (Value * CodeGenVisitor) :=
  match ptr with
  | None => Fault
  | Some a => Ok (Create Load [AllocaValue a] name s)
  end.

Definition CreateStore (v : Value) (ptr : AllocaInst) (s : CodeGenVisitor) : CodeGenVisitor :=
  (Create Store [v; AllocaValue ptr] "" s).2.

Definition CreateBr (dest : nat) (s : CodeGenVisitor) : CodeGenVisitor :=
  (Create (Br dest) [] "" s).2.

Definition CreateCondBr (c : Value) (ifTrue ifFalse : nat) (s : CodeGenVisitor)
    : CodeGenVisitor :=
  (Create (CondBr ifTrue ifFalse) [c] "" s).2.

Definition CreateRet (v : Value) (s : CodeGenVisitor) : CodeGenVisitor :=
  (Create Ret [v] "" s).2.

Definition SetInsertPoint (bb : nat) (s : CodeGenVisitor) : CodeGenVisitor :=
  set_builder (Some bb) s.

(** [builder->GetInsertBlock()->getParent()]: the function that holds the
    insertion block ([Ok None] for a block that is in no function); with no
    insertion block the null block is dereferenced. *)
Definition GetInsertBlock_getParent (s : CodeGenVisitor) : Outcome (option nat) :=
  match builder s with
  | None => Fault
  | Some bb => Ok (f_id <$> find (has_block bb) (module s))
  end.

Definition push_block (fn : nat) (b : BasicBlock) (f : Function) : Function :=
  if decide (f_id f = fn)
  then mkFunction (f_id f) (f_name f) (f_renamed f) (f_args f) (f_blocks f ++ [b]) (f_passes f)
  else f.

(** [llvm::BasicBlock::Create(context, name, parent)]: with a parent the
    block is appended to that function, without one it stays detached; then
    it is named.  [bb_name] is the name that was asked for. *)
Definition BasicBlock_Create (name : string) (parent : option nat) (s : CodeGenVisitor)
    : nat * CodeGenVisitor :=
  let id := nextId s in
  let b := mkBasicBlock id name [] in
  let s' := set_names (setName parent id name (names s)) (set_nextId (S id) s) in
  match parent with
  | Some fn => (id, set_module (push_block fn b <$> module s') s')
  | None => (id, set_detached (detached s' ++ [b]) s')
  end.

(** [function->getBasicBlockList().push_back(bb)] for a detached block: the
    names of its instructions, then its own, enter the symbol table of the
    function. *)
Definition getBasicBlockList_push_back (function : option nat) (bb : nat)
    (s : CodeGenVisitor) : Outcome CodeGenVisitor :=
  match function with
  | None => Fault
  | Some fn =>
      match find (λ b, bool_decide (bb_id b = bb)) (detached s) with
      | None => Ok s
      | Some b =>
          Ok (set_names
                (fold_left (reinsertValue fn) ((inst_id <$> bb_insts b) ++ [bb]) (names s))
                (set_detached (filter (λ b', bb_id b' ≠ bb) (detached s))
                   (set_module (push_block fn b <$> module s) s)))
      end
  end.

(** [CreatePHI] followed by the two [addIncoming] calls. *)
Definition add_incoming (phi : nat) (v : Value) (bb : option nat) (i : Instruction) : Instruction :=
  if decide (inst_id i = phi)
  then match inst_op i with
       | PHI blocks => mkInstruction (inst_id i) (PHI (blocks ++ [bb]))
                         (inst_operands i ++ [v]) (inst_name i)
       | _ => i
       end
  else i.

Definition map_insts (g : Instruction → Instruction) (b : BasicBlock) : BasicBlock :=
  mkBasicBlock (bb_id b) (bb_name b) (g <$> bb_insts b).

Definition addIncoming (phi : Value) (v : Value) (bb : option nat) (s : CodeGenVisitor)
    : CodeGenVisitor :=
  match phi with
  | InstructionValue id =>
      set_detached (map_insts (add_incoming id v bb) <$> detached s)
        (set_module (map_blocks (map_insts (add_incoming id v bb)) <$> module s) s)
  | _ => s
  end.

(** [module->getFunction(name)] *)
Definition module_getFunction (name : string) (s : CodeGenVisitor) : option Function :=
  find (λ f, bool_decide (f_name f = name) && negb (f_renamed f)) (module s).

(** [llvm::Function::Create(signature, ExternalLinkage, name, module.get())]
    and the naming of its formals; every formal and the result are doubles,
    so the signature is the list of formals. *)
Definition Function_Create (name : string) (formals : list string) (s : CodeGenVisitor)
    : nat * CodeGenVisitor :=
  let id := nextId s in
  let taken := bool_decide (is_Some (module_getFunction name s)) in
  let named :=
    mkValueNames (<[id := name_formals formals]> (symbolTables (names s)))
      (valueName (names s)) in
  let s' := set_names named (set_nextId (S id) s) in
  (id, set_module (module s' ++ [mkFunction id name taken formals [] []]) s').

Definition find_function (fn : nat) (m : list Function) : option Function :=
  find (λ f, bool_decide (f_id f = fn)) m.

Definition arg_size (fn : nat) (s : CodeGenVisitor) : option nat :=
  (λ f, length (f_args f)) <$> find_function fn (module s).

(** ** Helpers declared outside [codegenvisitor.cpp] *)

(** Modelled from the spec: [logErrorV], whose definition is not in the
    sources at hand.  A compile error is "reported as a diagnostic to standard
    error; the offending expression yields a null Last Value": the call writes
    the message and returns the null value, which the caller assigns (or
    drops). *)
Definition logErrorV (msg : string) (s : CodeGenVisitor) : CodeGenVisitor :=
  set_diagnostics (diagnostics s ++ [msg]) s.

Definition prepend_alloca (i : Instruction) (blocks : list BasicBlock) : list BasicBlock :=
  match blocks with
  | [] => []
  | b :: bs => mkBasicBlock (bb_id b) (bb_name b) (i :: bb_insts b) :: bs
  end.

Definition alloca_in_entry (fn : nat) (i : Instruction) (f : Function) : Function :=
  if decide (f_id f = fn)
  then mkFunction (f_id f) (f_name f) (f_renamed f) (f_args f)
         (prepend_alloca i (f_blocks f)) (f_passes f)
  else f.

(** Modelled from the spec: [createEntryBlockAlloca], whose definition is not
    in the sources at hand.  It "allocate[s] a stack slot in the current
    function's entry block", "named [varName]"; the slot is put at the head of
    that block and asks for that name, which the library makes unique.  A
    null function or a function without an entry block cannot be given a
    slot. *)
Definition createEntryBlockAlloca (function : option nat) (varName : string)
    (s : CodeGenVisitor) : Outcome (AllocaInst * CodeGenVisitor) :=
  match function with
  | None => Fault
  | Some fn =>
      match find_function fn (module s) with
      | None => Fault
      | Some f =>
          match f_blocks f with
          | [] => Fault
          | _ :: _ =>
              let id := nextId s in
              let s' :=
                set_names (setName (Some fn) id varName (names s)) (set_nextId (S id) s) in
              Ok (mkAllocaInst id varName,
                  set_module (alloca_in_entry fn (mkInstruction id Alloca [] varName)
                                <$> module s') s')
          end
      end
  end.

(** ** Named Values: a map whose [operator[]] inserts a null entry *)

(** [namedValues[name]] read as a value *)
Definition namedValues_at (name : string) (s : CodeGenVisitor)
    : option AllocaInst * CodeGenVisitor :=
  match namedValues s !! name with
  | Some a => (a, s)
  | None => (None, set_namedValues (<[name := None]> (namedValues s)) s)
  end.

(** [namedValues[name] = alloca] *)
Definition namedValues_assign (name : string) (a : AllocaInst) (s : CodeGenVisitor)
    : CodeGenVisitor :=
  set_namedValues (<[name := Some a]> (namedValues s)) s.

Definition namedValues_erase (name : string) (s : CodeGenVisitor) : CodeGenVisitor :=
  set_namedValues (delete name (namedValues s)) s.

Definition namedValues_clear (s : CodeGenVisitor) : CodeGenVisitor :=
  set_namedValues ∅ s.

(** The binding of a name: a null entry binds nothing. *)
Definition binding (s : CodeGenVisitor) (name : string) : option AllocaInst :=
  mjoin (namedValues s !! name).

(** ** Prototypes and function resolution *)

(** [visit(PrototypeAST&)], lines 265-277: the declaration itself. *)
Definition visit_PrototypeAST_emit (node : PrototypeAST) (s : CodeGenVisitor)
    : CodeGenVisitor :=
  let '(func, s1) := Function_Create (getName node) (getArgs node) s in
  set_lastFunction (Some func) s1.

(** [node.accept( *this)] re-enters [visit(PrototypeAST&)] with the flag
    just cleared, that is, it runs lines 265-277. *)
Definition handleTopLevelExtern (node : PrototypeAST) (s : CodeGenVisitor)
    : CodeGenVisitor :=
  let s1 := set_jitTopLevel false s in
  let s2 := visit_PrototypeAST_emit node s1 in
  set_functionProtos (<[getName node := node]> (functionProtos s2)) s2.

Definition visit_PrototypeAST (node : PrototypeAST) (s : CodeGenVisitor)
    : CodeGenVisitor :=
  if jitTopLevel s
  then handleTopLevelExtern node s
  else visit_PrototypeAST_emit node s.

Definition getFunction (name : string) (s : CodeGenVisitor)
    : option nat * CodeGenVisitor :=
  match module_getFunction name s with
  | Some f => (Some (f_id f), s)
  | None =>
      match functionProtos s !! name with
      | Some fi =>
          let s1 := visit_PrototypeAST fi s in
          (lastFunction s1, s1)
      | None => (None, s)
      end
  end.

(** ** Expressions *)

(** The [switch] of [visit(BinaryExprAST&)] and the user-defined operators
    after it, lines 71-95. *)
Definition emitBinaryOp (op : ascii) (lv rv : Value) (s : CodeGenVisitor)
    : Outcome CodeGenVisitor :=
  if decide (op = "+"%char) then
    let '(v, s1) := CreateOrFold FAdd [lv; rv] "addtmp" s in Ok (set_lastValue (Some v) s1)
  else if decide (op = "-"%char) then
    let '(v, s1) := CreateOrFold FSub [lv; rv] "subtmp" s in Ok (set_lastValue (Some v) s1)
  else if decide (op = "*"%char) then
    let '(v, s1) := CreateOrFold FMul [lv; rv] "multmp" s in Ok (set_lastValue (Some v) s1)
  else if decide (op = "/"%char) then
    let '(v, s1) := CreateOrFold FDiv [lv; rv] "divtmp" s in Ok (set_lastValue (Some v) s1)
  else if decide (op = "<"%char) then
    let '(c, s1) := CreateOrFold FCmpULT [lv; rv] "cmptmp" s in
    let '(v, s2) := CreateOrFold UIToFP [c] "booltmp" s1 in
    Ok (set_lastValue (Some v) s2)
  else
    let '(f, s1) := getFunction ("binary" ++ String op "") s in
    match f with
    | None => Fault
    | Some f =>
        let '(v, s2) := Create (Call f) [lv; rv] "binop" s1 in
        Ok (set_lastValue (Some v) s2)
    end.

(** Lines 121-123: store the initial value, save the old binding, bind. *)
Definition bindVar (name : string) (alloca : AllocaInst) (varVal : Value)
    (s : CodeGenVisitor) : option AllocaInst * CodeGenVisitor :=
  let s1 := CreateStore varVal alloca s in
  let '(old, s2) := namedValues_at name s1 in
  (old, namedValues_assign name alloca s2).

(** Lines 129-134: clear, then put the saved non-null slots back, each under
    the name the slot has in the IR. *)
Definition restoreBindings (oldBindings : list (option AllocaInst)) (s : CodeGenVisitor)
    : CodeGenVisitor :=
  fold_left
    (λ s' alloca,
       match alloca with
       | Some a => namedValues_assign (getValueName (alloca_id a) (names s')) a s'
       | None => s'
       end)
    oldBindings (namedValues_clear s).

Section Loops.
Variable visit : ExprAST → CodeGenVisitor → Outcome CodeGenVisitor.

(** The loop of lines 113-124. *)
Fixpoint declareVars (function : option nat) (vars : list (string * option ExprAST))
    (oldBindings : list (option AllocaInst)) (s : CodeGenVisitor)
    : Outcome (Flow (list (option AllocaInst))) :=
  match vars with
  | [] => Ok (Continue oldBindings s)
  | (name, init) :: vars' =>
      let* (alloca, s1) := createEntryBlockAlloca function name s in
      match init with
      | Some e =>
          let* s2 := visit e s1 in
          match lastValue s2 with
          | None => Ok (Return s2)
          | Some varVal =>
              let '(old, s3) := bindVar name alloca varVal s2 in
              declareVars function vars' (oldBindings ++ [old]) s3
          end
      | None =>
          let '(old, s3) := bindVar name alloca (ConstantFP 0) s1 in
          declareVars function vars' (oldBindings ++ [old]) s3
      end
  end.

(** The loop of lines 153-159. *)
Fixpoint emitArgs (args : list ExprAST) (argsVals : list Value) (s : CodeGenVisitor)
    : Outcome (Flow (list Value)) :=
  match args with
  | [] => Ok (Continue argsVals s)
  | a :: args' =>
      let* s1 := visit a s in
      match lastValue s1 with
      | None => Ok (Return s1)
      | Some v => emitArgs args' (argsVals ++ [v]) s1
      end
  end.
End Loops.

(** Lines 220-228 of [visit(ForExprAST&)]: store the start value, open the
    loop block, shadow the variable.  Gives the saved binding and the block. *)
Definition For_enter (function : option nat) (varName : string) (alloca : AllocaInst)
    (startVal : Value) (s : CodeGenVisitor) : option AllocaInst * nat * CodeGenVisitor :=
  let s1 := CreateStore startVal alloca s in
  let '(loopBB, s2) := BasicBlock_Create "loop" function s1 in
  let s3 := CreateBr loopBB s2 in
  let s4 := SetInsertPoint loopBB s3 in
  let '(oldVar, s5) := namedValues_at varName s4 in
  (oldVar, loopBB, namedValues_assign varName alloca s5).

(** Lines 237-239: load, add the step, store. *)
Definition For_advance (alloca : AllocaInst) (stepVal : Value) (s : CodeGenVisitor)
    : Outcome CodeGenVisitor :=
  let* (variable, s1) := CreateLoad (Some alloca) "" s in
  let '(nextVar, s2) := CreateOrFold FAdd [variable; stepVal] "nextvar" s1 in
  Ok (CreateStore nextVar alloca s2).

(** Lines 243-256: the back edge, the block after the loop, the restoration
    of the shadowed variable. *)
Definition For_exit (function : option nat) (varName : string) (oldVar : option AllocaInst)
    (loopBB : nat) (endCond : Value) (s : CodeGenVisitor) : CodeGenVisitor :=
  let '(endCond', s1) := CreateOrFold FCmpONE [endCond; ConstantFP 0] "loopcond" s in
  let '(afterBB, s2) := BasicBlock_Create "afterloop" function s1 in
  let s3 := CreateCondBr endCond' loopBB afterBB s2 in
  let s4 := SetInsertPoint afterBB s3 in
  let s5 := match oldVar with
            | Some a => namedValues_assign varName a s4
            | None => namedValues_erase varName s4
            end in
  set_lastValue (Some (ConstantFP 0)) s5.

(** Lines 171-181 of [visit(IfExprAST&)]: the comparison, the three blocks,
    the conditional branch. *)
Definition If_enter (condVal : Value) (s : CodeGenVisitor)
    : Outcome (option nat * nat * nat * nat * CodeGenVisitor) :=
  let '(condVal', s1) := CreateOrFold FCmpONE [condVal; ConstantFP 0] "ifcond" s in
  let* function := GetInsertBlock_getParent s1 in
  let '(thenBB, s2) := BasicBlock_Create "then" function s1 in
  let '(elseBB, s3) := BasicBlock_Create "else" None s2 in
  let '(mergeBB, s4) := BasicBlock_Create "ifcont" None s3 in
  let s5 := CreateCondBr condVal' thenBB elseBB s4 in
  Ok (function, thenBB, elseBB, mergeBB, SetInsertPoint thenBB s5).

(** Lines 203-209: the merge block and its phi. *)
Definition If_merge (function : option nat) (mergeBB : nat)
    (thenExpr : Value) (thenBB : option nat) (elseExpr : Value) (elseBB : option nat)
    (s : CodeGenVisitor) : Outcome CodeGenVisitor :=
  let* s1 := getBasicBlockList_push_back function mergeBB s in
  let s2 := SetInsertPoint mergeBB s1 in
  let '(phiN, s3) := Create (PHI []) [] "iftmp" s2 in
  let s4 := addIncoming phiN thenExpr thenBB s3 in
  let s5 := addIncoming phiN elseExpr elseBB s4 in
  Ok (set_lastValue (Some phiN) s5).

Fixpoint visit (node : ExprAST) (s : CodeGenVisitor) {struct node}
    : Outcome CodeGenVisitor :=
  match node with
  | NumberExprAST val =>
      Ok (set_lastValue (Some (ConstantFP val)) s)
  | VariableExprAST name =>
      let '(varAddress, s1) := namedValues_at name s in
      let s2 := match varAddress with
                | None => set_lastValue None (logErrorV "Unknown variable name" s1)
                | Some _ => s1
                end in
      let* (v, s3) := CreateLoad varAddress name s2 in
      Ok (set_lastValue (Some v) s3)
  | BinaryExprAST leftExpr rightExpr op =>
      if decide (op = "="%char) then
        match leftExpr with
        | VariableExprAST lhse =>
            let* s1 := visit rightExpr s in
            match lastValue s1 with
            | None => Ok s1
            | Some rv =>
                let '(variable, s2) := namedValues_at lhse s1 in
                match variable with
                | None => Ok (set_lastValue None (logErrorV "Unknown variable name" s2))
                | Some a => Ok (set_lastValue (Some rv) (CreateStore rv a s2))
                end
            end
        | _ =>
            Ok (set_lastValue None (logErrorV "destination of '=' must be a variable" s))
        end
      else
        let* s1 := visit leftExpr s in
        let lv := lastValue s1 in
        let* s2 := visit rightExpr s1 in
        let rv := lastValue s2 in
        match lv, rv with
        | Some lv', Some rv' => emitBinaryOp op lv' rv' s2
        | _, _ => Ok (set_lastValue None s2)
        end
  | UnaryExprAST opcode expr =>
      let* s1 := visit expr s in
      match lastValue s1 with
      | None => Ok s1
      | Some e =>
          let '(f, s2) := getFunction ("unary" ++ String opcode "") s1 in
          match f with
          | None => Fault
          | Some f' =>
              let '(v, s3) := Create (Call f') [e] "binop" s2 in
              Ok (set_lastValue (Some v) s3)
          end
      end
  | DeclarationExprAST body vars =>
      let* function := GetInsertBlock_getParent s in
      let* r := declareVars visit function vars [] s in
      match r with
      | Return s1 => Ok s1
      | Continue oldBindings s1 =>
          let* s2 := visit body s1 in
          match lastValue s2 with
          | None => Ok s2
          | Some bodyVal =>
              Ok (set_lastValue (Some bodyVal) (restoreBindings oldBindings s2))
          end
      end
  | CallExprAST callee args =>
      let '(calleeF, s1) := getFunction callee s in
      match calleeF with
      | None => Ok (set_lastValue None (logErrorV "Function not found" s1))
      | Some f =>
          let* n := match arg_size f s1 with Some n => Ok n | None => Fault end in
          if decide (n ≠ length args) then
            Ok (set_lastValue None (logErrorV "Invalid number of arguments" s1))
          else
            let* r := emitArgs visit args [] s1 in
            match r with
            | Return s2 => Ok s2
            | Continue argsVals s2 =>
                let '(v, s3) := Create (Call f) argsVals "calltmp" s2 in
                Ok (set_lastValue (Some v) s3)
            end
      end
  | IfExprAST cond ifExpr elseExpr haveElse =>
      let* s1 := visit cond s in
      match lastValue s1 with
      | None => Ok s1
      | Some condVal =>
          let* (function, thenBB, elseBB, mergeBB, s2) := If_enter condVal s1 in
          let* s3 := visit ifExpr s2 in
          match lastValue s3 with
          | None => Ok s3
          | Some thenExpr =>
              let s4 := CreateBr mergeBB s3 in
              let thenEnd := builder s4 in
              let* s5 := getBasicBlockList_push_back function elseBB s4 in
              let s6 := SetInsertPoint elseBB s5 in
              if haveElse then
                match elseExpr with
                | Some e =>
                    let* s7 := visit e s6 in
                    match lastValue s7 with
                    | None => Ok s7
                    | Some elseVal =>
                        let s8 := CreateBr mergeBB s7 in
                        let elseEnd := builder s8 in
                        If_merge function mergeBB thenExpr thenEnd elseVal elseEnd s8
                    end
                | None => Fault
                end
              else
                Ok (logErrorV "Omitted Else are not supported yet" s6)
          end
      end
  | ForExprAST start step end_ body varName =>
      let* function := GetInsertBlock_getParent s in
      let* (alloca, s1) := createEntryBlockAlloca function varName s in
      let* s2 := visit start s1 in
      match lastValue s2 with
      | None => Ok s2
      | Some startVal =>
          let '(oldVar, loopBB, s3) := For_enter function varName alloca startVal s2 in
          let* s4 := visit body s3 in
          match lastValue s4 with
          | None => Ok s4
          | Some _ =>
              let* s5 := visit step s4 in
              match lastValue s5 with
              | None => Ok s5
              | Some stepVal =>
                  let* s6 := For_advance alloca stepVal s5 in
                  let* s7 := visit end_ s6 in
                  match lastValue s7 with
                  | None => Ok s7
                  | Some endCond =>
                      Ok (For_exit function varName oldVar loopBB endCond s7)
                  end
              end
          end
      end
  end.

(** ** Functions and the module life cycle *)

(** The loop of lines 301-305; [i] counts up to [function->arg_size()].  An
    index past the end of the prototype's [getArgs()] is out of bounds. *)
Fixpoint storeParams (fn : nat) (formals : list string) (i remaining : nat)
    (s : CodeGenVisitor) : Outcome CodeGenVisitor :=
  match remaining with
  | 0 => Ok s
  | S remaining' =>
      match formals !! i with
      | None => Fault
      | Some name =>
          let* (alloca, s1) := createEntryBlockAlloca (Some fn) name s in
          let s2 := CreateStore (Argument fn i) alloca s1 in
          storeParams fn formals (S i) remaining' (namedValues_assign name alloca s2)
      end
  end.

Definition run_passes (fn : nat) (passes : list Pass) (f : Function) : Function :=
  if decide (f_id f = fn)
  then mkFunction (f_id f) (f_name f) (f_renamed f) (f_args f) (f_blocks f)
         (f_passes f ++ passes)
  else f.

(** [passManager->run( *function)] *)
Definition passManager_run (fn : nat) (s : CodeGenVisitor) : CodeGenVisitor :=
  set_module (run_passes fn (passManager s) <$> module s) s.

(** [visit(FunctionAST&)], lines 291-305: the prototype is remembered, the
    function resolved, its entry block opened and its formals given slots.
    A null [function] is dereferenced by [function->arg_size()]. *)
Definition FunctionAST_prologue (p : PrototypeAST) (s : CodeGenVisitor)
    : Outcome (nat * CodeGenVisitor) :=
  let s1 := set_functionProtos (<[getName p := p]> (functionProtos s)) s in
  let '(function, s2) := getFunction (getName p) s1 in
  let '(bb, s3) := BasicBlock_Create "entry" function s2 in
  let s4 := namedValues_clear (SetInsertPoint bb s3) in
  match function with
  | None => Fault
  | Some fn =>
      let* n := match arg_size fn s4 with Some n => Ok n | None => Fault end in
      let* s5 := storeParams fn (getArgs p) 0 n s4 in
      Ok (fn, s5)
  end.

(** [visit(FunctionAST&)], lines 291-316: the emission of a definition.
    [llvm::verifyFunction] only reports, and its report is dropped. *)
Definition visit_FunctionAST_emit (node : FunctionAST) (s : CodeGenVisitor)
    : Outcome CodeGenVisitor :=
  let* (fn, s5) := FunctionAST_prologue (getProto node) s in
  let* s6 := visit (getBody node) s5 in
  match lastValue s6 with
  | Some retVal =>
      Ok (set_lastFunction (Some fn) (passManager_run fn (CreateRet retVal s6)))
  | None => Ok (set_lastFunction None s6)
  end.

Definition configuredPasses : list Pass :=
  [PromoteMemoryToRegister; InstructionCombining; Reassociate; GVN; CFGSimplification].

Definition initModuleAndPassManager (s : CodeGenVisitor) : CodeGenVisitor :=
  set_passManager (if debug s then [] else configuredPasses)
    (set_builder None (set_detached [] (set_module [] s))).

(** [jit->addModule(std::move(module))] *)
Definition addModule (s : CodeGenVisitor) : CodeGenVisitor :=
  set_jit (jit s ++ [module s]) s.

(** The constructor.  The members it does not initialise are taken null. *)
Definition CodeGenVisitor_new : CodeGenVisitor :=
  initModuleAndPassManager
    (mkCodeGenVisitor [] [] None [] ∅ ∅ None None None false false [] [] 0
       (mkValueNames ∅ ∅)).

(** What [ppformat] returns: the fixed message, or the print of a function. *)
Inductive Printed : Type :=
  | ErrorDuringCompilation
  | PrintedFunction (f : Function).

Definition ppformat (s : CodeGenVisitor) : Outcome Printed :=
  match lastFunction s with
  | None => Ok ErrorDuringCompilation
  | Some fn =>
      match find_function fn (module s ++ concat (jit s)) with
      | Some f => Ok (PrintedFunction f)
      | None => Fault
      end
  end.

(** ** The JIT driver *)

Section Driver.
(** [jit->findSymbol(name)] on the submitted modules, and the call of the
    address it resolves to: the JIT and the machine code are not part of
    the repository. *)
Variable findSymbol : list (list Function) → string → JITSymbol.

(** [node.accept( *this)] re-enters [visit(FunctionAST&)] with the flag
    just cleared, that is, it runs lines 291-316. *)
Definition handleTopLevelExpression (node : FunctionAST) (s : CodeGenVisitor)
    : Outcome CodeGenVisitor :=
  let s1 := set_jitTopLevel false s in
  let* s2 := visit_FunctionAST_emit node s1 in
  match lastFunction s2 with
  | None => Ok s2
  | Some _ =>
      let s3 := initModuleAndPassManager (addModule s2) in
      match findSymbol (jit s3) "__anon_expr" with
      | SymbolNotFound => Fault
      | AddressError => Ok s3
      | SymbolValue val =>
          match evaluationRes s3 with
          | None => Fault
          | Some res => Ok (set_evaluationRes (Some (res ++ [val])%list) s3)
          end
      end
  end.

Definition handleTopLevelDefinition (node : FunctionAST) (s : CodeGenVisitor)
    : Outcome CodeGenVisitor :=
  let s1 := set_jitTopLevel false s in
  let s2 := initModuleAndPassManager (addModule s1) in
  visit_FunctionAST_emit node s2.

Definition visit_FunctionAST (node : FunctionAST) (s : CodeGenVisitor)
    : Outcome CodeGenVisitor :=
  if jitTopLevel s && bool_decide (getName (getProto node) = "__anon_expr")
  then handleTopLevelExpression node s
  else if jitTopLevel s
  then handleTopLevelDefinition node s
  else visit_FunctionAST_emit node s.

(** [node->accept( *this)] on a top-level node *)
Definition accept (node : ASTNode) (s : CodeGenVisitor) : Outcome CodeGenVisitor :=
  match node with
  | ExprNode e => visit e s
  | PrototypeNode p => Ok (visit_PrototypeAST p s)
  | FunctionNode f => visit_FunctionAST f s
  end.

(** The loop of [getAssembly], lines 383-388. *)
Fixpoint getAssembly_loop (astData : list (option ASTNode)) (res : list Printed)
    (s : CodeGenVisitor) : Outcome (list Printed * CodeGenVisitor) :=
  match astData with
  | [] => Ok (res, s)
  | None :: rest => getAssembly_loop rest res s
  | Some node :: rest =>
      let* s1 := accept node s in
      let* p := ppformat s1 in
      getAssembly_loop rest (res ++ [p]) s1
  end.

Definition getAssembly (astData : list (option ASTNode)) (debug_ : bool)
    (s : CodeGenVisitor) : Outcome (list Printed * CodeGenVisitor) :=
  let s1 := if debug_ then set_debug true s else s in
  let* (res, s2) := getAssembly_loop astData [] s1 in
  Ok (res, set_debug false s2).

(** The loop of [evaluate], lines 396-401. *)
Fixpoint evaluate_loop (astData : list (option ASTNode)) (s : CodeGenVisitor)
    : Outcome CodeGenVisitor :=
  match astData with
  | [] => Ok s
  | None :: rest => evaluate_loop rest s
  | Some node :: rest =>
      let* s1 := accept node (set_jitTopLevel true s) in
      evaluate_loop rest s1
  end.

(** [evaluate] moves the result vector out: the member is null afterwards. *)
Definition evaluate (astData : list (option ASTNode)) (s : CodeGenVisitor)
    : Outcome (option (list float) * CodeGenVisitor) :=
  let* s1 := evaluate_loop astData (set_evaluationRes (Some []) s) in
  Ok (evaluationRes s1, set_evaluationRes None s1).
End Driver.

(** * Reasoning principles and specifications *)

(** ** Induction on expressions, through the nested lists and options *)

Section ExprAST_induction.
Variable P : ExprAST → Prop.
Hypothesis HNumber : ∀ val, P (NumberExprAST val).
Hypothesis HVariable : ∀ name, P (VariableExprAST name).
Hypothesis HUnary : ∀ opcode expr, P expr → P (UnaryExprAST opcode expr).
Hypothesis HBinary : ∀ l r op, P l → P r → P (BinaryExprAST l r op).
Hypothesis HDeclaration : ∀ body vars,
  P body → Forall (λ v, from_option P True v.2) vars → P (DeclarationExprAST body vars).
Hypothesis HCall : ∀ callee args, Forall P args → P (CallExprAST callee args).
Hypothesis HIf : ∀ c t e haveElse,
  P c → P t → from_option P True e → P (IfExprAST c t e haveElse).
Hypothesis HFor : ∀ start step end_ body varName,
  P start → P step → P end_ → P body → P (ForExprAST start step end_ body varName).

Fixpoint ExprAST_ind (e : ExprAST) : P e :=
  match e with
  | NumberExprAST val => HNumber val
  | VariableExprAST name => HVariable name
  | UnaryExprAST opcode expr => HUnary opcode expr (ExprAST_ind expr)
  | BinaryExprAST l r op => HBinary l r op (ExprAST_ind l) (ExprAST_ind r)
  | DeclarationExprAST body vars =>
      HDeclaration body vars (ExprAST_ind body)
        ((fix go (vs : list (string * option ExprAST))
            : Forall (λ v, from_option P True v.2) vs :=
            match vs with
            | [] => @List.Forall_nil _ _
            | (n, i) :: vs' =>
                @List.Forall_cons _ (λ v, from_option P True v.2) (n, i) vs'
                  (match i return from_option P True i with
                   | Some e' => ExprAST_ind e'
                   | None => I
                   end)
                  (go vs')
            end) vars)
  | CallExprAST callee args =>
      HCall callee args
        ((fix go (l : list ExprAST) : Forall P l :=
            match l with
            | [] => @List.Forall_nil _ _
            | a :: l' => @List.Forall_cons _ P a l' (ExprAST_ind a) (go l')
            end) args)
  | IfExprAST c t e' haveElse =>
      HIf c t e' haveElse (ExprAST_ind c) (ExprAST_ind t)
        (match e' return from_option P True e' with
         | Some x => ExprAST_ind x
         | None => I
         end)
  | ForExprAST start step end_ body varName =>
      HFor start step end_ body varName
        (ExprAST_ind start) (ExprAST_ind step) (ExprAST_ind end_) (ExprAST_ind body)
  end.
End ExprAST_induction.

(** ** What emission never touches *)

(** [same_outer s s']: going from [s] to [s'] changed none of the members the
    driver owns. *)
Definition same_outer (s s' : CodeGenVisitor) : Prop :=
  evaluationRes s' = evaluationRes s ∧ jit s' = jit s ∧
  passManager s' = passManager s ∧ debug s' = debug s ∧
  jitTopLevel s' = jitTopLevel s ∧ functionProtos s' = functionProtos s.

(** Every remembered prototype is filed under its own name. *)
Definition protos_wf (s : CodeGenVisitor) : Prop :=
  ∀ k p, functionProtos s !! k = Some p → getName p = k.

(** [stable s s']: the same, except that the single-shot flag may have been
    cleared and prototypes may have been registered. *)
Record stable (s s' : CodeGenVisitor) : Prop := mkStable {
  st_evaluationRes : evaluationRes s' = evaluationRes s;
  st_jit : jit s' = jit s;
  st_passManager : passManager s' = passManager s;
  st_debug : debug s' = debug s;
  st_flag : jitTopLevel s = false → jitTopLevel s' = false;
  st_protos : ∀ k, is_Some (functionProtos s !! k) → is_Some (functionProtos s' !! k);
  st_wf : protos_wf s → protos_wf s'
}.

(** ** Null operands *)

(** [NullOperand node s s']: while [node] is emitted from [s], the emission
    of one of its operands yields a null Last Value and leaves the generator
    in [s'].  The operands are taken in the order the visitor emits them,
    each from the state the emission has reached; the left operand of a
    binary operator other than assignment is not among them. *)
Inductive NullOperand : ExprAST → CodeGenVisitor → CodeGenVisitor → Prop :=
  | null_unary opcode expr s s1 :
      visit expr s = Ok s1 → lastValue s1 = None →
      NullOperand (UnaryExprAST opcode expr) s s1
  | null_assigned lhse rhs s s1 :
      visit rhs s = Ok s1 → lastValue s1 = None →
      NullOperand (BinaryExprAST (VariableExprAST lhse) rhs "=") s s1
  | null_right l r op s s1 s2 :
      op ≠ "="%char → visit l s = Ok s1 → visit r s1 = Ok s2 → lastValue s2 = None →
      NullOperand (BinaryExprAST l r op) s s2
  | null_initializer body vars s function s1 :
      GetInsertBlock_getParent s = Ok function →
      declareVars visit function vars [] s = Ok (Return s1) →
      NullOperand (DeclarationExprAST body vars) s s1
  | null_declaration_body body vars s function oldBindings s1 s2 :
      GetInsertBlock_getParent s = Ok function →
      declareVars visit function vars [] s = Ok (Continue oldBindings s1) →
      visit body s1 = Ok s2 → lastValue s2 = None →
      NullOperand (DeclarationExprAST body vars) s s2
  | null_argument callee args s f s1 s2 :
      getFunction callee s = (Some f, s1) → arg_size f s1 = Some (length args) →
      emitArgs visit args [] s1 = Ok (Return s2) →
      NullOperand (CallExprAST callee args) s s2
  | null_cond c t e haveElse s s1 :
      visit c s = Ok s1 → lastValue s1 = None →
      NullOperand (IfExprAST c t e haveElse) s s1
  | null_then c t e haveElse s s1 condVal function thenBB elseBB mergeBB s2 s3 :
      visit c s = Ok s1 → lastValue s1 = Some condVal →
      If_enter condVal s1 = Ok (function, thenBB, elseBB, mergeBB, s2) →
      visit t s2 = Ok s3 → lastValue s3 = None →
      NullOperand (IfExprAST c t e haveElse) s s3
  | null_else c t e s s1 condVal function thenBB elseBB mergeBB s2 s3 thenExpr s5 s7 :
      visit c s = Ok s1 → lastValue s1 = Some condVal →
      If_enter condVal s1 = Ok (function, thenBB, elseBB, mergeBB, s2) →
      visit t s2 = Ok s3 → lastValue s3 = Some thenExpr →
      getBasicBlockList_push_back function elseBB (CreateBr mergeBB s3) = Ok s5 →
      visit e (SetInsertPoint elseBB s5) = Ok s7 → lastValue s7 = None →
      NullOperand (IfExprAST c t (Some e) true) s s7
  | null_start start step end_ body varName s function alloca s1 s2 :
      GetInsertBlock_getParent s = Ok function →
      createEntryBlockAlloca function varName s = Ok (alloca, s1) →
      visit start s1 = Ok s2 → lastValue s2 = None →
      NullOperand (ForExprAST start step end_ body varName) s s2
  | null_body start step end_ body varName s function alloca s1 s2 startVal
        oldVar loopBB s3 s4 :
      GetInsertBlock_getParent s = Ok function →
      createEntryBlockAlloca function varName s = Ok (alloca, s1) →
      visit start s1 = Ok s2 → lastValue s2 = Some startVal →
      For_enter function varName alloca startVal s2 = (oldVar, loopBB, s3) →
      visit body s3 = Ok s4 → lastValue s4 = None →
      NullOperand (ForExprAST start step end_ body varName) s s4
  | null_step start step end_ body varName s function alloca s1 s2 startVal
        oldVar loopBB s3 s4 s5 :
      GetInsertBlock_getParent s = Ok function →
      createEntryBlockAlloca function varName s = Ok (alloca, s1) →
      visit start s1 = Ok s2 → lastValue s2 = Some startVal →
      For_enter function varName alloca startVal s2 = (oldVar, loopBB, s3) →
      visit body s3 = Ok s4 → is_Some (lastValue s4) →
      visit step s4 = Ok s5 → lastValue s5 = None →
      NullOperand (ForExprAST start step end_ body varName) s s5
  | null_end start step end_ body varName s function alloca s1 s2 startVal
        oldVar loopBB s3 s4 s5 stepVal s6 s7 :
      GetInsertBlock_getParent s = Ok function →
      createEntryBlockAlloca function varName s = Ok (alloca, s1) →
      visit start s1 = Ok s2 → lastValue s2 = Some startVal →
      For_enter function varName alloca startVal s2 = (oldVar, loopBB, s3) →
      visit body s3 = Ok s4 → is_Some (lastValue s4) →
      visit step s4 = Ok s5 → lastValue s5 = Some stepVal →
      For_advance alloca stepVal s5 = Ok s6 →
      visit end_ s6 = Ok s7 → lastValue s7 = None →
      NullOperand (ForExprAST start step end_ body varName) s s7.

(** ** Reading the IR back *)

Definition all_blocks (s : CodeGenVisitor) : list BasicBlock :=
  (concat (f_blocks <$> module s) ++ detached s)%list.

(** The instructions of the block [bb], in order. *)
Definition block_insts (bb : nat) (s : CodeGenVisitor) : option (list Instruction) :=
  bb_insts <$> find (λ b, bool_decide (bb_id b = bb)) (all_blocks s).

(** ** Expressions that open no scope *)

(** No [var] and no [for] anywhere in the expression. *)
Fixpoint scope_free (e : ExprAST) : bool :=
  match e with
  | NumberExprAST _ => true
  | VariableExprAST _ => true
  | UnaryExprAST _ expr => scope_free expr
  | BinaryExprAST l r _ => scope_free l && scope_free r
  | DeclarationExprAST _ _ => false
  | CallExprAST _ args => forallb scope_free args
  | IfExprAST c t e' _ =>
      scope_free c && scope_free t &&
      match e' with Some x => scope_free x | None => true end
  | ForExprAST _ _ _ _ _ => false
  end.

(** Going from [s] to [s'] changed no binding of Named Values. *)
Definition same_bindings (s s' : CodeGenVisitor) : Prop :=
  ∀ x, binding s' x = binding s x.

(** No [var] anywhere in the expression, and no [for] whose variable is
    [x]: loops over other variables are allowed. *)
Fixpoint rebind_free (x : string) (e : ExprAST) : bool :=
  match e with
  | NumberExprAST _ => true
  | VariableExprAST _ => true
  | UnaryExprAST _ expr => rebind_free x expr
  | BinaryExprAST l r _ => rebind_free x l && rebind_free x r
  | DeclarationExprAST _ _ => false
  | CallExprAST _ args => forallb (rebind_free x) args
  | IfExprAST c t e' _ =>
      rebind_free x c && rebind_free x t &&
      match e' with Some e'' => rebind_free x e'' | None => true end
  | ForExprAST start step end_ body varName =>
      bool_decide (varName ≠ x) &&
      rebind_free x start && rebind_free x step && rebind_free x end_ &&
      rebind_free x body
  end.

(** Going from [s] to [s'] left the binding of [x] as it was. *)
Definition keeps (x : string) (s s' : CodeGenVisitor) : Prop :=
  binding s' x = binding s x.

(** ** What [evaluate] is to return *)

Section EvaluateSpec.
Variable findSymbol : list (list Function) → string → JITSymbol.

(** The value of a successfully executed top-level anonymous expression:
    the node is a function named [__anon_expr], its emission succeeds
    (Last Function is not null), and the JIT, once given the module,
    resolves the symbol to an address, whose call returns the value.
    Any other node, and an expression that fails, has none. *)
Definition executed (node : ASTNode) (s : CodeGenVisitor) : option float :=
  match node with
  | FunctionNode f =>
      if bool_decide (getName (getProto f) = "__anon_expr") then
        match visit_FunctionAST_emit f (set_jitTopLevel false s) with
        | Ok s1 =>
            match lastFunction s1, findSymbol (jit s1 ++ [module s1]) "__anon_expr" with
            | Some _, SymbolValue val => Some val
            | _, _ => None
            end
        | Fault => None
        end
      else None
  | _ => None
  end.

(** One value per executed expression, in input order, each node being
    taken in the state the nodes before it left. *)
Fixpoint expected_results (astData : list (option ASTNode)) (s : CodeGenVisitor)
    : list float :=
  match astData with
  | [] => []
  | None :: rest => expected_results rest s
  | Some node :: rest =>
      match accept findSymbol node (set_jitTopLevel true s) with
      | Ok s1 => (option_list (executed node s) ++ expected_results rest s1)%list
      | Fault => []
      end
  end.
End EvaluateSpec.

(** ** Expressions without [var] *)

(** No [var] anywhere in the expression; loops are allowed. *)
Fixpoint var_free (e : ExprAST) : bool :=
  match e with
  | NumberExprAST _ => true
  | VariableExprAST _ => true
  | UnaryExprAST _ expr => var_free expr
  | BinaryExprAST l r _ => var_free l && var_free r
  | DeclarationExprAST _ _ => false
  | CallExprAST _ args => forallb var_free args
  | IfExprAST c t e' _ =>
      var_free c && var_free t &&
      match e' with Some x => var_free x | None => true end
  | ForExprAST start step end_ body _ =>
      var_free start && var_free step && var_free end_ && var_free body
  end.

(** ** The functions of the current module *)

(** What identifies a function and is fixed once it is created or
    optimised: handle, name, formals, and the passes run on it. *)
Definition signature (f : Function) : nat * string * bool * list string * list Pass :=
  (f_id f, f_name f, f_renamed f, f_args f, f_passes f).

Definition signatures (s : CodeGenVisitor) : list (nat * string * bool * list string * list Pass) :=
  signature <$> module s.

(** Going from [s] to [s'] kept every function of the current module, in
    place and with its signature, and at most added functions after them. *)
Definition module_extends (s s' : CodeGenVisitor) : Prop :=
  signatures s `prefix_of` signatures s'.

(** Going from [s] to [s'] forgot no prototype and misfiled none. *)
Definition protos_extend (s s' : CodeGenVisitor) : Prop :=
  (∀ k, is_Some (functionProtos s !! k) → is_Some (functionProtos s' !! k)) ∧
  (protos_wf s → protos_wf s').

(** ** Example inputs *)

Definition proto_f : PrototypeAST := mkPrototypeAST "f" ["x"] false 0.
Definition proto_anon : PrototypeAST := mkPrototypeAST "__anon_expr" [] false 0.
(** The generator inside [def f(x) ...], just before the body is emitted. *)
Definition inside_f : CodeGenVisitor :=
  match FunctionAST_prologue proto_f CodeGenVisitor_new with
  | Ok (_, s) => s
  | Fault => CodeGenVisitor_new
  end.
Definition if_x_then_2 : ExprAST :=
  IfExprAST (VariableExprAST "x") (NumberExprAST 2) None false.
Definition call_unknown_plus_x : ExprAST :=
  BinaryExprAST (CallExprAST "g" []) (VariableExprAST "x") "+".
(** [for i = 1, 1, g() in i]: the step calls a function that does not exist. *)
Definition loop_with_unknown_step : ExprAST :=
  ForExprAST (NumberExprAST 1) (CallExprAST "g" []) (NumberExprAST 1)
    (VariableExprAST "i") "i".
Definition inside_f_with_slot : CodeGenVisitor :=
  match createEntryBlockAlloca (Some 0) "i" inside_f with
  | Ok (_, s1) => s1
  | Fault => inside_f
  end.
(** [for i = 1, 1, 1 in (for i = 2, 1, 1 in g())]: the inner loop fails in
    its body, and so does the outer one. *)
Definition nested_loops_same_variable : ExprAST :=
  ForExprAST (NumberExprAST 1) (NumberExprAST 1) (NumberExprAST 1)
    (ForExprAST (NumberExprAST 2) (NumberExprAST 1) (NumberExprAST 1)
       (CallExprAST "g" []) "i")
    "i".
(** [for i = 1, 1, 1 in (for j = 2, 1, 1 in g())]: the inner loop, over
    another variable, fails in its body, and so does the outer one. *)
Definition nested_loops_other_variable : ExprAST :=
  ForExprAST (NumberExprAST 1) (NumberExprAST 1) (NumberExprAST 1)
    (ForExprAST (NumberExprAST 2) (NumberExprAST 1) (NumberExprAST 1)
       (CallExprAST "g" []) "j")
    "i".
(** [for i = 1, 1, g() in (var y = 1 in y)]: the body is emitted, the step
    fails. *)
Definition loop_over_declaration : ExprAST :=
  ForExprAST (NumberExprAST 1) (CallExprAST "g" []) (NumberExprAST 1)
    (DeclarationExprAST (VariableExprAST "y") [("y", Some (NumberExprAST 1))]) "i".
Definition var_y_in_y : ExprAST :=
  DeclarationExprAST (VariableExprAST "y") [("y", Some (NumberExprAST 1))].
(** [for i = 1, i < x, 1 in i] *)
Definition counting_loop : ExprAST :=
  ForExprAST (NumberExprAST 1) (NumberExprAST 1)
    (BinaryExprAST (VariableExprAST "i") (VariableExprAST "x") "<")
    (VariableExprAST "i") "i".
Definition counting_loop_emitted : CodeGenVisitor :=
  match visit counting_loop inside_f with
  | Ok s => s
  | Fault => inside_f
  end.
(** A JIT that answers with the number of modules it was given. *)
Definition countingJIT (modules : list (list Function)) (name : string) : JITSymbol :=
  match length modules with
  | 2 => SymbolValue 2
  | 3 => SymbolValue 3
  | 4 => SymbolValue 4
  | _ => AddressError
  end.
(** [def f(x) x;  f(3);  g();  extern sin(x);  f(4);] with a null entry. *)
Definition session : list (option ASTNode) :=
  [ Some (FunctionNode (mkFunctionAST proto_f (VariableExprAST "x")));
    None;
    Some (FunctionNode (mkFunctionAST proto_anon (CallExprAST "f" [NumberExprAST 3])));
    Some (FunctionNode (mkFunctionAST proto_anon (CallExprAST "g" [])));
    Some (PrototypeNode (mkPrototypeAST "sin" ["x"] false 0));
    Some (FunctionNode (mkFunctionAST proto_anon (CallExprAST "f" [NumberExprAST 4]))) ].
Definition x_plus_call_g : ExprAST :=
  BinaryExprAST (VariableExprAST "x") (CallExprAST "g" []) "+".
(** [var x = 5 in x] *)
Definition var_x_in_x : ExprAST :=
  DeclarationExprAST (VariableExprAST "x") [("x", Some (NumberExprAST 5))].
(** [x = 7] *)
Definition x_gets_7 : ExprAST :=
  BinaryExprAST (VariableExprAST "x") (NumberExprAST 7) "=".
(** [def binary| 5 (a b) ...]: the state at the entry of its body. *)
Definition proto_or : PrototypeAST := mkPrototypeAST "binary|" ["a"; "b"] true 5.
Definition inside_or : CodeGenVisitor :=
  match FunctionAST_prologue proto_or CodeGenVisitor_new with
  | Ok (_, s) => s
  | Fault => CodeGenVisitor_new
  end.
Definition def_f_calls_g : FunctionAST := mkFunctionAST proto_f (CallExprAST "g" []).
Definition extern_sin : PrototypeAST := mkPrototypeAST "sin" ["x"] false 0.
(** [def unary! (v) ...]: the state at the entry of its body. *)
Definition proto_not : PrototypeAST := mkPrototypeAST "unary!" ["v"] true 0.
Definition inside_not : CodeGenVisitor :=
  match FunctionAST_prologue proto_not CodeGenVisitor_new with
  | Ok (_, s) => s
  | Fault => CodeGenVisitor_new
  end.

(** The builder calls and the named steps of the visitors stay folded when a
    visitor is unfolded. *)
#[global] Arguments Create : simpl never.
#[global] Arguments CreateOrFold : simpl never.
#[global] Arguments CreateLoad : simpl never.
#[global] Arguments CreateStore : simpl never.
#[global] Arguments CreateBr : simpl never.
#[global] Arguments CreateCondBr : simpl never.
#[global] Arguments CreateRet : simpl never.
#[global] Arguments SetInsertPoint : simpl never.
#[global] Arguments GetInsertBlock_getParent : simpl never.
#[global] Arguments BasicBlock_Create : simpl never.
#[global] Arguments getBasicBlockList_push_back : simpl never.
#[global] Arguments addIncoming : simpl never.
#[global] Arguments Function_Create : simpl never.
#[global] Arguments createEntryBlockAlloca : simpl never.
#[global] Arguments logErrorV : simpl never.
#[global] Arguments namedValues_at : simpl never.
#[global] Arguments namedValues_assign : simpl never.
#[global] Arguments namedValues_erase : simpl never.
#[global] Arguments namedValues_clear : simpl never.
#[global] Arguments visit_PrototypeAST : simpl never.
#[global] Arguments getFunction : simpl never.
#[global] Arguments emitBinaryOp : simpl never.
#[global] Arguments bindVar : simpl never.
#[global] Arguments restoreBindings : simpl never.
#[global] Arguments For_enter : simpl never.
#[global] Arguments For_advance : simpl never.
#[global] Arguments For_exit : simpl never.
#[global] Arguments If_enter : simpl never.
#[global] Arguments If_merge : simpl never.
#[global] Arguments FunctionAST_prologue : simpl never.
#[global] Arguments passManager_run : simpl never.
#[global] Arguments initModuleAndPassManager : simpl never.
#[global] Arguments addModule : simpl never.
#[global] Arguments arg_size : simpl never.

(** * Reasoning principles *)

(** ** Inversion of the outcome monad *)

Lemma bind_Ok {A B : Type} (x : Outcome A) (k : A → Outcome B) (b : B) :
  bind x k = Ok b → ∃ a, x = Ok a ∧ k a = Ok b.
Proof. destruct x as [a|]; simpl; [eauto | discriminate]. Qed.

(** Breaks the head of a hypothesis [H : ... = Ok _] one step down. *)
Ltac invert_step H :=
  match type of H with
  | bind ?x _ = Ok _ =>
      let a := fresh "r" in
      let E := fresh "E" in
      apply bind_Ok in H; destruct H as (a & E & H)
  | Ok _ = Ok _ => injection H as H
  | Fault = Ok _ => discriminate H
  | (let '(_, _) := ?x in _) = Ok _ =>
      let E := fresh "E" in destruct x eqn:E
  | (match ?x with _ => _ end) = Ok _ =>
      let E := fresh "E" in destruct x eqn:E
  | (if ?x then _ else _) = Ok _ =>
      let E := fresh "E" in destruct x eqn:E
  end.

(** ** What emission never touches *)

Lemma same_outer_stable s s' : same_outer s s' → stable s s'.
Proof.
  intros (He & Hj & Hp & Hd & Hf & Hm).
  split; auto; [congruence | intros k; by rewrite Hm | unfold protos_wf; by rewrite Hm].
Qed.

Lemma stable_refl s : stable s s.
Proof. by split. Qed.

Lemma stable_trans s1 s2 s3 : stable s1 s2 → stable s2 s3 → stable s1 s3.
Proof.
  intros [e1 j1 p1 d1 f1 m1] [e2 j2 p2 d2 f2 m2].
  split; try congruence; by auto.
Qed.

Ltac same_outer_tac := repeat split.

Lemma Insert_outer i s : same_outer s (Insert i s).
Proof. unfold Insert. destruct (builder s); same_outer_tac. Qed.

Lemma Create_outer op ops name s : same_outer s (Create op ops name s).2.
Proof. unfold Create, Insert; simpl. destruct (builder s); same_outer_tac. Qed.

Lemma Create_stable op ops name s v s' :
  Create op ops name s = (v, s') → stable s s'.
Proof.
  intros H. apply same_outer_stable.
  pose proof (Create_outer op ops name s) as O. by rewrite H in O.
Qed.

Lemma CreateOrFold_stable op ops name s v s' :
  CreateOrFold op ops name s = (v, s') → stable s s'.
Proof.
  unfold CreateOrFold. destruct (fold_constants op ops).
  - intros [= _ <-]. apply stable_refl.
  - apply Create_stable.
Qed.

Lemma CreateLoad_stable ptr name s v s' :
  CreateLoad ptr name s = Ok (v, s') → stable s s'.
Proof.
  unfold CreateLoad. destruct ptr as [a|]; [|discriminate]. intros H.
  apply (Create_stable Load [AllocaValue a] name s v). congruence.
Qed.

Lemma CreateStore_stable v a s : stable s (CreateStore v a s).
Proof. apply same_outer_stable, Create_outer. Qed.

Lemma CreateBr_stable d s : stable s (CreateBr d s).
Proof. apply same_outer_stable, Create_outer. Qed.

Lemma CreateCondBr_stable c t e s : stable s (CreateCondBr c t e s).
Proof. apply same_outer_stable, Create_outer. Qed.

Lemma CreateRet_stable v s : stable s (CreateRet v s).
Proof. apply same_outer_stable, Create_outer. Qed.

Lemma set_lastValue_stable v s : stable s (set_lastValue v s).
Proof. by apply same_outer_stable. Qed.

Lemma set_lastFunction_stable v s : stable s (set_lastFunction v s).
Proof. by apply same_outer_stable. Qed.

Lemma SetInsertPoint_stable bb s : stable s (SetInsertPoint bb s).
Proof. by apply same_outer_stable. Qed.

Lemma logErrorV_stable msg s : stable s (logErrorV msg s).
Proof. by apply same_outer_stable. Qed.

Lemma namedValues_at_stable name s a s' :
  namedValues_at name s = (a, s') → stable s s'.
Proof.
  unfold namedValues_at. destruct (namedValues s !! name); intros [= <- <-];
    by apply same_outer_stable.
Qed.

Lemma namedValues_assign_stable name a s : stable s (namedValues_assign name a s).
Proof. by apply same_outer_stable. Qed.

Lemma namedValues_erase_stable name s : stable s (namedValues_erase name s).
Proof. by apply same_outer_stable. Qed.

Lemma namedValues_clear_stable s : stable s (namedValues_clear s).
Proof. by apply same_outer_stable. Qed.

Lemma BasicBlock_Create_stable name parent s bb s' :
  BasicBlock_Create name parent s = (bb, s') → stable s s'.
Proof.
  unfold BasicBlock_Create. destruct parent; intros [= <- <-];
    by apply same_outer_stable.
Qed.

Lemma push_back_stable function bb s s' :
  getBasicBlockList_push_back function bb s = Ok s' → stable s s'.
Proof.
  unfold getBasicBlockList_push_back. destruct function; [|discriminate].
  destruct (find _ _); intros [= <-]; by apply same_outer_stable.
Qed.

Lemma addIncoming_stable phi v bb s : stable s (addIncoming phi v bb s).
Proof. destruct phi; by apply same_outer_stable. Qed.

Lemma createEntryBlockAlloca_stable function name s a s' :
  createEntryBlockAlloca function name s = Ok (a, s') → stable s s'.
Proof.
  unfold createEntryBlockAlloca. destruct function; [|discriminate].
  destruct (find_function _ _) as [f|]; [|discriminate].
  destruct (f_blocks f); [discriminate|]. intros [= <- <-].
  by apply same_outer_stable.
Qed.

Lemma visit_PrototypeAST_stable p s : stable s (visit_PrototypeAST p s).
Proof.
  unfold visit_PrototypeAST, handleTopLevelExtern, visit_PrototypeAST_emit,
    Function_Create.
  destruct (jitTopLevel s) eqn:Hflag; simpl.
  - split; simpl; try done.
    + intros k Hk. destruct (decide (getName p = k)) as [->|Hne].
      * rewrite lookup_insert_eq. eauto.
      * by rewrite lookup_insert_ne.
    + intros Hwf k q. simpl. destruct (decide (getName p = k)) as [<-|Hne].
      * rewrite lookup_insert_eq. by intros [= <-].
      * rewrite lookup_insert_ne by done. apply Hwf.
  - split; simpl; try done.
Qed.

Lemma getFunction_stable name s f s' :
  getFunction name s = (f, s') → stable s s'.
Proof.
  unfold getFunction. destruct (module_getFunction name s).
  - intros [= <- <-]. apply stable_refl.
  - destruct (functionProtos s !! name).
    + intros [= <- <-]. apply visit_PrototypeAST_stable.
    + intros [= <- <-]. apply stable_refl.
Qed.

Create HintDb stable discriminated.
#[export] Hint Resolve Create_stable CreateOrFold_stable CreateLoad_stable CreateStore_stable
  CreateBr_stable CreateCondBr_stable CreateRet_stable set_lastValue_stable
  set_lastFunction_stable SetInsertPoint_stable logErrorV_stable namedValues_at_stable
  namedValues_assign_stable namedValues_erase_stable namedValues_clear_stable
  BasicBlock_Create_stable push_back_stable addIncoming_stable
  createEntryBlockAlloca_stable visit_PrototypeAST_stable getFunction_stable : stable.

(** Chains the steps of an emission backwards from its last state. *)
Ltac stable_chain :=
  repeat first
    [ apply stable_refl
    | eapply stable_trans; [ | solve [eauto 3 with stable] ] ].

(** Breaks a hypothesis [H : ... = Ok _] down to its elementary steps. *)
Ltac invert_all H := repeat (invert_step H); subst.

Lemma emitBinaryOp_stable op lv rv s s' :
  emitBinaryOp op lv rv s = Ok s' → stable s s'.
Proof.
  unfold emitBinaryOp. intros H.
  repeat case_decide; invert_all H; stable_chain.
Qed.

Lemma bindVar_stable name alloca varVal s old s' :
  bindVar name alloca varVal s = (old, s') → stable s s'.
Proof.
  unfold bindVar. destruct (namedValues_at _ _) eqn:E. intros [= <- <-].
  stable_chain.
Qed.

Lemma restoreBindings_stable oldBindings s : stable s (restoreBindings oldBindings s).
Proof.
  unfold restoreBindings.
  apply stable_trans with (namedValues_clear s); [stable_chain|].
  generalize (namedValues_clear s). induction oldBindings as [|[a|] l IH]; intros s0; simpl.
  - apply stable_refl.
  - eapply stable_trans; [|apply IH]. stable_chain.
  - apply IH.
Qed.

Lemma For_enter_stable function varName alloca startVal s oldVar loopBB s' :
  For_enter function varName alloca startVal s = (oldVar, loopBB, s') → stable s s'.
Proof.
  unfold For_enter. destruct (BasicBlock_Create _ _ _) eqn:E1.
  destruct (namedValues_at _ _) eqn:E2. intros [= <- <- <-]. stable_chain.
Qed.

Lemma For_advance_stable alloca stepVal s s' :
  For_advance alloca stepVal s = Ok s' → stable s s'.
Proof. unfold For_advance. intros H. invert_all H. stable_chain. Qed.

Lemma For_exit_stable function varName oldVar loopBB endCond s :
  stable s (For_exit function varName oldVar loopBB endCond s).
Proof.
  unfold For_exit. destruct (CreateOrFold _ _ _ _) eqn:E1.
  destruct (BasicBlock_Create _ _ _) eqn:E2. destruct oldVar; stable_chain.
Qed.

Lemma If_enter_stable condVal s function thenBB elseBB mergeBB s' :
  If_enter condVal s = Ok (function, thenBB, elseBB, mergeBB, s') → stable s s'.
Proof.
  unfold If_enter. intros H. invert_all H. stable_chain.
Qed.

Lemma If_merge_stable function mergeBB thenExpr thenBB elseExpr elseBB s s' :
  If_merge function mergeBB thenExpr thenBB elseExpr elseBB s = Ok s' → stable s s'.
Proof. unfold If_merge. intros H. invert_all H. stable_chain. Qed.

#[export] Hint Resolve emitBinaryOp_stable bindVar_stable restoreBindings_stable
  For_enter_stable For_advance_stable For_exit_stable If_enter_stable
  If_merge_stable : stable.

Section Loops_stable.
Variable visit' : ExprAST → CodeGenVisitor → Outcome CodeGenVisitor.

Lemma declareVars_stable function vars :
  Forall (λ v, from_option (λ e, ∀ s s', visit' e s = Ok s' → stable s s') True v.2) vars →
  ∀ old s r, declareVars visit' function vars old s = Ok r →
    match r with Continue _ s' => stable s s' | Return s' => stable s s' end.
Proof.
  induction 1 as [|[name init] vars Hv _ IH]; intros old s r H; simpl in H.
  - injection H as <-. apply stable_refl.
  - invert_step H. destruct r0 as [alloca s1]. destruct init as [e|]; simpl in Hv.
    + invert_step H. destruct (lastValue r0) eqn:El.
      * destruct (bindVar _ _ _ _) eqn:Eb. apply IH in H.
        destruct r; (eapply stable_trans; [|exact H]); stable_chain.
      * injection H as <-. stable_chain.
    + destruct (bindVar _ _ _ _) eqn:Eb. apply IH in H.
      destruct r; (eapply stable_trans; [|exact H]); stable_chain.
Qed.

Lemma emitArgs_stable args :
  Forall (λ e, ∀ s s', visit' e s = Ok s' → stable s s') args →
  ∀ vals s r, emitArgs visit' args vals s = Ok r →
    match r with Continue _ s' => stable s s' | Return s' => stable s s' end.
Proof.
  induction 1 as [|a args Ha _ IH]; intros vals s r H; simpl in H.
  - injection H as <-. apply stable_refl.
  - invert_step H. destruct (lastValue r0) eqn:El.
    + apply IH in H. destruct r; (eapply stable_trans; [|exact H]); eauto.
    + injection H as <-. eauto.
Qed.
End Loops_stable.

(** Emitting an expression changes none of the driver's members. *)
Lemma visit_stable e : ∀ s s', visit e s = Ok s' → stable s s'.
Proof.
  induction e as [val|name|opcode expr IH|l r op IHl IHr|body vars IHb IHv
                 |callee args IHa|c t e haveElse IHc IHt IHe
                 |start step end_ body varName IH1 IH2 IH3 IH4] using ExprAST_ind;
    intros s s' H; cbn [visit bind] in H.
  - injection H as <-. stable_chain.
  - invert_all H.
    match goal with
    | E : CreateLoad ?o _ _ = Ok _ |- _ => destruct o; [|discriminate E]
    end.
    stable_chain.
  - invert_all H; stable_chain.
  - case_decide.
    + destruct l; invert_all H; stable_chain.
    + invert_all H; stable_chain.
  - invert_step H. invert_step H.
    match goal with
    | E : declareVars _ _ _ _ _ = Ok _ |- _ =>
        pose proof (declareVars_stable visit _ vars IHv _ _ _ E) as Hd
    end.
    match goal with
    | Hd : match ?r with _ => _ end |- _ => destruct r
    end; invert_all H; (eapply stable_trans; [exact Hd|]); stable_chain.
  - destruct (getFunction callee s) as [calleeF s1] eqn:Eg.
    destruct calleeF as [f|]; [|invert_all H; stable_chain].
    destruct (arg_size f s1) as [n|]; [cbn [bind] in H|discriminate H].
    case_decide; [invert_all H; stable_chain|].
    invert_step H.
    match goal with
    | E : emitArgs _ _ _ _ = Ok _ |- _ =>
        pose proof (emitArgs_stable visit args IHa _ _ _ E) as Hd
    end.
    match goal with
    | Hd : match ?r with _ => _ end |- _ => destruct r
    end; invert_all H;
      (eapply stable_trans; [|eapply stable_trans; [exact Hd|]]); stable_chain.
  - destruct e as [e|]; simpl in IHe; invert_all H; stable_chain.
  - invert_all H; stable_chain.
Qed.

(** * Variables *)

(** C2: looking up a name that Named Values does not bind logs the error and
    assigns the null value, but does not return: the load that follows
    dereferences the null slot, so no null Last Value is ever handed back. *)
Theorem unknown_variable_faults (name : string) (s : CodeGenVisitor) :
  binding s name = None → visit (VariableExprAST name) s = Fault.
Proof.
  unfold binding. simpl. unfold namedValues_at.
  destruct (namedValues s !! name) as [[a|]|]; simpl; [discriminate|done|done].
Qed.

Lemma unknown_variable_faults_witness :
  binding inside_f "y" = None ∧ visit (VariableExprAST "y") inside_f = Fault.
Proof.
  split; [vm_compute; reflexivity|].
  apply unknown_variable_faults. vm_compute. reflexivity.
Defined.

(** The sibling lookup in an assignment does return after the same error. *)
Lemma unknown_assignment_target_yields_null (name : string) (rhs : ExprAST)
    (s s1 : CodeGenVisitor) (rv : Value) :
  visit rhs s = Ok s1 → lastValue s1 = Some rv → binding s1 name = None →
  ∃ s', visit (BinaryExprAST (VariableExprAST name) rhs "=") s = Ok s' ∧
        lastValue s' = None ∧
        diagnostics s' = (diagnostics s1 ++ ["Unknown variable name"])%list.
Proof.
  intros Hr Hv Hb. simpl. rewrite Hr. simpl. rewrite Hv.
  unfold binding in Hb. unfold namedValues_at.
  destruct (namedValues s1 !! name) as [[a|]|]; [discriminate| |]; eauto.
Qed.

(** A function whose body reads an unbound name is not emitted at all. *)
Example unknown_variable_in_function :
  visit_FunctionAST_emit (mkFunctionAST proto_f (VariableExprAST "y")) CodeGenVisitor_new
  = Fault.
Proof. vm_compute. reflexivity. Qed.

(** * Conditionals *)

Lemma lastValue_Create op ops name s : lastValue (Create op ops name s).2 = lastValue s.
Proof. unfold Create, Insert; simpl. by destruct (builder s). Qed.

Lemma lastValue_push_back function bb s s' :
  getBasicBlockList_push_back function bb s = Ok s' → lastValue s' = lastValue s.
Proof.
  unfold getBasicBlockList_push_back. destruct function; [|discriminate].
  destruct (find _ _); by intros [= <-].
Qed.

(** C3: with the else branch omitted, the error is reported but its null
    value is dropped: once the condition and the then branch are emitted,
    the visitor returns with Last Value still holding the then value. *)
Theorem omitted_else_keeps_then_value (c t : ExprAST) (s s1 s2 s3 s5 : CodeGenVisitor)
    (condVal thenExpr : Value) (function : option nat) (thenBB elseBB mergeBB : nat) :
  visit c s = Ok s1 → lastValue s1 = Some condVal →
  If_enter condVal s1 = Ok (function, thenBB, elseBB, mergeBB, s2) →
  visit t s2 = Ok s3 → lastValue s3 = Some thenExpr →
  getBasicBlockList_push_back function elseBB (CreateBr mergeBB s3) = Ok s5 →
  visit (IfExprAST c t None false) s
    = Ok (logErrorV "Omitted Else are not supported yet" (SetInsertPoint elseBB s5))
  ∧ lastValue (logErrorV "Omitted Else are not supported yet" (SetInsertPoint elseBB s5))
    = Some thenExpr.
Proof.
  intros Hc Hcv He Ht Htv Hp. split.
  - simpl. rewrite Hc. simpl. rewrite Hcv, He. simpl. rewrite Ht. simpl.
    rewrite Htv, Hp. reflexivity.
  - simpl. rewrite (lastValue_push_back _ _ _ _ Hp).
    unfold CreateBr. by rewrite lastValue_Create.
Qed.

Lemma omitted_else_keeps_then_value_witness :
  ∃ s', visit if_x_then_2 inside_f = Ok s' ∧ lastValue s' = Some (ConstantFP 2) ∧
        diagnostics s' = ["Omitted Else are not supported yet"].
Proof.
  destruct (visit (VariableExprAST "x") inside_f) as [s1|] eqn:Hc;
    [|vm_compute in Hc; discriminate Hc].
  destruct (If_enter (InstructionValue 4) s1) as [[[[[fn tb] eb] mb] s2]|] eqn:He;
    [|vm_compute in Hc; injection Hc as <-; vm_compute in He; discriminate He].
  destruct (getBasicBlockList_push_back fn eb
              (CreateBr mb (set_lastValue (Some (ConstantFP 2)) s2))) as [s5|] eqn:Hp;
    [|vm_compute in Hc; injection Hc as <-; vm_compute in He;
      injection He as <- <- <- <- <-; vm_compute in Hp; discriminate Hp].
  destruct (omitted_else_keeps_then_value (VariableExprAST "x") (NumberExprAST 2)
              inside_f s1 s2 (set_lastValue (Some (ConstantFP 2)) s2) s5
              (InstructionValue 4) (ConstantFP 2) fn tb eb mb) as [Hv Hl];
    [exact Hc | vm_compute in Hc; injection Hc as <-; reflexivity | exact He
    | reflexivity | reflexivity | exact Hp |].
  eexists. split; [exact Hv|]. split; [exact Hl|].
  vm_compute in Hc; injection Hc as <-. vm_compute in He.
  injection He as <- <- <- <- <-. vm_compute in Hp. injection Hp as <-.
  vm_compute. reflexivity.
Defined.

(** The enclosing function is emitted as if nothing had happened: it returns
    the then value from the else block. *)
Example omitted_else_function_emitted :
  ∃ s', visit_FunctionAST_emit (mkFunctionAST proto_f if_x_then_2) CodeGenVisitor_new = Ok s'
        ∧ lastFunction s' = Some 0
        ∧ diagnostics s' = ["Omitted Else are not supported yet"].
Proof. eexists. split; [vm_compute; reflexivity|]. split; reflexivity. Qed.

(** * Calls *)

(** C8: when the argument count differs from the arity of the resolved
    callee, the call stops right after the resolution: the generator is the
    one the resolution left, plus the diagnostic and a null Last Value; no
    argument is visited. *)
Theorem arity_mismatch_before_arguments (callee : string) (args : list ExprAST)
    (s s1 : CodeGenVisitor) (f n : nat) :
  getFunction callee s = (Some f, s1) → arg_size f s1 = Some n → n ≠ length args →
  visit (CallExprAST callee args) s
    = Ok (set_lastValue None (logErrorV "Invalid number of arguments" s1))
  ∧ module (set_lastValue None (logErrorV "Invalid number of arguments" s1)) = module s1
  ∧ nextId (set_lastValue None (logErrorV "Invalid number of arguments" s1)) = nextId s1.
Proof.
  intros Hg Ha Hn. split; [|done].
  simpl. rewrite Hg, Ha. simpl. by rewrite decide_True.
Qed.

Lemma arity_mismatch_before_arguments_witness :
  ∃ s', visit (CallExprAST "f" [VariableExprAST "x"; NumberExprAST 1]) inside_f = Ok s'
        ∧ lastValue s' = None ∧ module s' = module inside_f.
Proof.
  destruct (arity_mismatch_before_arguments "f" [VariableExprAST "x"; NumberExprAST 1]
              inside_f inside_f 0 1) as (Hv & Hm & _);
    [vm_compute; reflexivity | vm_compute; reflexivity | simpl; lia |].
  eexists. split; [exact Hv|]. split; [reflexivity|exact Hm].
Defined.

(** * Null operands *)

Lemma set_lastValue_None_id s : lastValue s = None → set_lastValue None s = s.
Proof. destruct s; simpl; by intros ->. Qed.

Lemma declareVars_Return visit' function vars :
  ∀ old s s', declareVars visit' function vars old s = Ok (Return s') →
    lastValue s' = None.
Proof.
  induction vars as [|[name init] vars IH]; intros old s s' H; simpl in H.
  - discriminate H.
  - invert_step H. destruct r as [alloca s1]. destruct init as [e|].
    + invert_step H. destruct (lastValue r) eqn:El.
      * destruct (bindVar _ _ _ _). eauto.
      * by injection H as <-.
    + destruct (bindVar _ _ _ _). eauto.
Qed.

Lemma emitArgs_Return visit' args :
  ∀ vals s s', emitArgs visit' args vals s = Ok (Return s') → lastValue s' = None.
Proof.
  induction args as [|a args IH]; intros vals s s' H; simpl in H.
  - discriminate H.
  - invert_step H. destruct (lastValue r) eqn:El; [eauto|by injection H as <-].
Qed.

(** C5, as amended: an operand that yields a null Last Value makes the node
    return at once, in the state that operand left and with a null Last
    Value; but a binary operator other than assignment whose left operand
    yields null still emits its right operand, and yields null after it. *)
Theorem null_operand_propagates :
  (∀ node s s', NullOperand node s s' → visit node s = Ok s' ∧ lastValue s' = None) ∧
  (∀ l r op s s1 s2,
     op ≠ "="%char → visit l s = Ok s1 → lastValue s1 = None → visit r s1 = Ok s2 →
     visit (BinaryExprAST l r op) s = Ok (set_lastValue None s2)).
Proof.
  split.
  - intros node s s' H.
    destruct H; cbn [visit bind];
      repeat first
        [ match goal with
          | H : ?x = _ |- context [?x] => rewrite H; cbn [bind]
          | H : is_Some (lastValue ?s) |- context [lastValue ?s] =>
              destruct H as [? H]; rewrite H; cbn [bind]
          end
        | case_decide; [congruence|]
        | case_decide; [|congruence] ];
      try (split; [reflexivity|done]).
    + (* right operand of a binary operator *)
      split; [|done]. destruct (lastValue s1); by rewrite set_lastValue_None_id.
    + (* initializer of a declared variable *)
      split; [done|]. by eapply declareVars_Return.
    + (* argument of a call *)
      split; [done|]. by eapply emitArgs_Return.
  - intros l r op s s1 s2 Hop Hl Hn Hr. cbn [visit bind].
    rewrite decide_False by done. rewrite Hl. cbn [bind]. rewrite Hr. cbn [bind].
    by rewrite Hn.
Qed.

(** C5, as stated, fails: the left operand of [g() + x] yields null (no
    function [g]), and the load of [x] is emitted all the same. *)
Lemma binary_left_null_still_emits_right :
  ∃ s1 s2,
    visit (CallExprAST "g" []) inside_f = Ok s1 ∧ lastValue s1 = None ∧
    visit call_unknown_plus_x inside_f = Ok s2 ∧ lastValue s2 = None ∧
    module s2 ≠ module s1 ∧ nextId s2 = S (nextId s1).
Proof.
  eexists _, _. split; [vm_compute; reflexivity|]. split; [reflexivity|].
  split; [vm_compute; reflexivity|]. split; [reflexivity|].
  split; [|reflexivity]. vm_compute. discriminate.
Qed.

Lemma null_operand_propagates_witness :
  ∃ s2, visit call_unknown_plus_x inside_f = Ok s2 ∧ lastValue s2 = None.
Proof.
  destruct null_operand_propagates as [_ Hleft].
  destruct (visit (CallExprAST "g" []) inside_f) as [s1|] eqn:Hl;
    [|vm_compute in Hl; discriminate Hl].
  destruct (visit (VariableExprAST "x") s1) as [s2|] eqn:Hr;
    [|vm_compute in Hl; injection Hl as <-; vm_compute in Hr; discriminate Hr].
  exists (set_lastValue None s2). split; [|reflexivity].
  apply (Hleft _ _ _ _ s1 s2); [done|exact Hl| |exact Hr].
  vm_compute in Hl. by injection Hl as <-.
Defined.

(** * Loops *)

Lemma find_fmap_invariant {A : Type} (P : A → bool) (g : A → A) (l : list A) :
  (∀ a, P (g a) = P a) → find P (g <$> l) = g <$> find P l.
Proof.
  intros Hg. induction l as [|a l IH]; [done|]. simpl. rewrite Hg.
  by destruct (P a).
Qed.

Lemma concat_map_blocks (g : BasicBlock → BasicBlock) (m : list Function) :
  concat (f_blocks <$> (map_blocks g <$> m)) = g <$> concat (f_blocks <$> m).
Proof.
  induction m as [|f m IH]; [done|].
  rewrite !fmap_cons. cbn [concat]. by rewrite IH, fmap_app.
Qed.

Lemma all_blocks_Insert i s bb :
  builder s = Some bb → all_blocks (Insert i s) = append_inst bb i <$> all_blocks s.
Proof.
  intros Hb. unfold all_blocks, Insert. rewrite Hb. simpl.
  by rewrite concat_map_blocks, fmap_app.
Qed.

Lemma block_insts_Insert i s bb :
  builder s = Some bb →
  block_insts bb (Insert i s) = (λ l, l ++ [i])%list <$> block_insts bb s.
Proof.
  intros Hb. unfold block_insts. rewrite (all_blocks_Insert _ _ _ Hb).
  rewrite find_fmap_invariant.
  - destruct (find _ (all_blocks s)) as [b|] eqn:Hf; [|done]. simpl.
    apply find_some in Hf as [_ Hid]. apply bool_decide_eq_true in Hid.
    unfold append_inst. by destruct (decide (bb_id b = bb)).
  - intros b. unfold append_inst. by case_decide.
Qed.

Lemma builder_Insert i s : builder (Insert i s) = builder s.
Proof. unfold Insert. by destruct (builder s) eqn:E. Qed.

(** One builder call appends its instruction to the insertion block. *)
Lemma block_insts_Create op ops name s bb :
  builder s = Some bb →
  block_insts bb (Create op ops name s).2
  = (λ l, l ++ [mkInstruction (nextId s) op ops name])%list <$> block_insts bb s
  ∧ builder (Create op ops name s).2 = Some bb
  ∧ nextId (Create op ops name s).2 = S (nextId s).
Proof.
  intros Hb. unfold Create. cbn [snd].
  set (i := mkInstruction (nextId s) op ops name).
  set (n := setName _ _ _ _).
  change (block_insts bb (set_names n (Insert i (set_nextId (S (nextId s)) s))))
    with (block_insts bb (Insert i (set_nextId (S (nextId s)) s))).
  change (builder (set_names n (Insert i (set_nextId (S (nextId s)) s))))
    with (builder (Insert i (set_nextId (S (nextId s)) s))).
  change (nextId (set_names n (Insert i (set_nextId (S (nextId s)) s))))
    with (nextId (Insert i (set_nextId (S (nextId s)) s))).
  split; [|split].
  - by rewrite block_insts_Insert.
  - by rewrite builder_Insert.
  - unfold Insert. simpl. by rewrite Hb.
Qed.

(** The advance of the induction variable is a load, an add and a store,
    appended in this order to the insertion block. *)
Lemma For_advance_insts alloca stepVal s s' bb :
  For_advance alloca stepVal s = Ok s' → builder s = Some bb →
  block_insts bb s'
  = (λ l, l ++ [mkInstruction (nextId s) Load [AllocaValue alloca] "";
                mkInstruction (S (nextId s)) FAdd
                  [InstructionValue (nextId s); stepVal] "nextvar";
                mkInstruction (S (S (nextId s))) Store
                  [InstructionValue (S (nextId s)); AllocaValue alloca] ""])%list
    <$> block_insts bb s.
Proof.
  unfold For_advance, CreateLoad, CreateStore. cbn [bind]. intros H Hb.
  destruct (Create Load _ _ s) as [variable s1] eqn:E1.
  assert (variable = InstructionValue (nextId s)) as Hvar
    by (unfold Create in E1; congruence).
  rewrite Hvar in H.
  change (CreateOrFold FAdd [InstructionValue (nextId s); stepVal] "nextvar" s1)
    with (Create FAdd [InstructionValue (nextId s); stepVal] "nextvar" s1) in H.
  rewrite <- Hvar in H.
  destruct (Create FAdd _ _ s1) as [nextVar s2] eqn:E2.
  injection H as <-.
  destruct (block_insts_Create Load [AllocaValue alloca] "" s bb Hb) as (I1 & B1 & N1).
  rewrite E1 in I1, B1, N1. cbn [snd] in I1, B1, N1.
  destruct (block_insts_Create FAdd [variable; stepVal] "nextvar" s1 bb B1)
    as (I2 & B2 & N2).
  rewrite E2 in I2, B2, N2. cbn [snd] in I2, B2, N2.
  destruct (block_insts_Create Store [nextVar; AllocaValue alloca] "" s2 bb B2)
    as (I3 & _ & _).
  refine (eq_trans I3 _). rewrite I2, I1, N2, N1.
  assert (variable = InstructionValue (nextId s)) as ->
    by (unfold Create in E1; congruence).
  assert (nextVar = InstructionValue (nextId s1)) as ->
    by (unfold Create in E2; congruence).
  rewrite N1. destruct (block_insts bb s) as [l|]; [|done]. simpl.
  by rewrite <- !app_assoc.
Qed.

Lemma builder_For_enter function varName alloca startVal s oldVar loopBB s' :
  For_enter function varName alloca startVal s = (oldVar, loopBB, s') →
  builder s' = Some loopBB.
Proof.
  unfold For_enter. destruct (BasicBlock_Create _ _ _) as [bb s2].
  unfold namedValues_at. destruct (namedValues _ !! _); by intros [= <- <- <-].
Qed.

(** C9: a loop that is emitted in full is emitted in this order: from the
    state in which the loop block is the insertion block and the variable is
    bound to its slot, the body; from the state that leaves, the step; then
    the load, add and store that advance the slot, at the end of the
    insertion block; and only from the state they leave, the end expression. *)
Theorem For_lowering_order (start step end_ body : ExprAST) (varName : string)
    (s s' : CodeGenVisitor) :
  visit (ForExprAST start step end_ body varName) s = Ok s' → is_Some (lastValue s') →
  ∃ function alloca s1 s2 startVal oldVar loopBB s3 s4 s5 stepVal s6 s7 endCond,
    GetInsertBlock_getParent s = Ok function ∧
    createEntryBlockAlloca function varName s = Ok (alloca, s1) ∧
    visit start s1 = Ok s2 ∧ lastValue s2 = Some startVal ∧
    For_enter function varName alloca startVal s2 = (oldVar, loopBB, s3) ∧
    builder s3 = Some loopBB ∧
    visit body s3 = Ok s4 ∧
    visit step s4 = Ok s5 ∧ lastValue s5 = Some stepVal ∧
    For_advance alloca stepVal s5 = Ok s6 ∧
    (∀ bb, builder s5 = Some bb →
       block_insts bb s6
       = (λ l, l ++ [mkInstruction (nextId s5) Load [AllocaValue alloca] "";
                     mkInstruction (S (nextId s5)) FAdd
                       [InstructionValue (nextId s5); stepVal] "nextvar";
                     mkInstruction (S (S (nextId s5))) Store
                       [InstructionValue (S (nextId s5)); AllocaValue alloca] ""])%list
         <$> block_insts bb s5) ∧
    visit end_ s6 = Ok s7 ∧ lastValue s7 = Some endCond ∧
    s' = For_exit function varName oldVar loopBB endCond s7.
Proof.
  intros H [v Hv]. cbn [visit] in H.
  apply bind_Ok in H as (function & Hf & H).
  apply bind_Ok in H as ([alloca s1] & Ha & H).
  apply bind_Ok in H as (s2 & Hs & H).
  destruct (lastValue s2) as [startVal|] eqn:Hsv;
    [|injection H as <-; congruence].
  destruct (For_enter _ _ _ _ _) as [[oldVar loopBB] s3] eqn:He.
  apply bind_Ok in H as (s4 & Hb & H).
  destruct (lastValue s4) as [bodyVal|] eqn:Hbv;
    [|injection H as <-; congruence].
  apply bind_Ok in H as (s5 & Hst & H).
  destruct (lastValue s5) as [stepVal|] eqn:Hstv;
    [|injection H as <-; congruence].
  apply bind_Ok in H as (s6 & Hadv & H).
  apply bind_Ok in H as (s7 & Hen & H).
  destruct (lastValue s7) as [endCond|] eqn:Hev;
    [|injection H as <-; congruence].
  injection H as <-.
  exists function, alloca, s1, s2, startVal, oldVar, loopBB, s3, s4, s5, stepVal, s6, s7,
    endCond.
  repeat split; try done.
  - by eapply builder_For_enter.
  - intros bb Hbb. by eapply For_advance_insts.
Qed.

(** ** Bindings are only touched by [var] and [for] *)

Lemma same_bindings_refl s : same_bindings s s.
Proof. by intros x. Qed.

Lemma same_bindings_trans s1 s2 s3 :
  same_bindings s1 s2 → same_bindings s2 s3 → same_bindings s1 s3.
Proof. intros H1 H2 x. by rewrite H2, H1. Qed.

Lemma same_namedValues s s' : namedValues s' = namedValues s → same_bindings s s'.
Proof. intros H x. unfold binding. by rewrite H. Qed.

Lemma Create_bindings op ops name s v s' :
  Create op ops name s = (v, s') → same_bindings s s'.
Proof.
  unfold Create, Insert. intros [= _ <-]. apply same_namedValues.
  simpl. by destruct (builder s).
Qed.

Lemma CreateOrFold_bindings op ops name s v s' :
  CreateOrFold op ops name s = (v, s') → same_bindings s s'.
Proof.
  unfold CreateOrFold. destruct (fold_constants op ops).
  - intros [= _ <-]. apply same_bindings_refl.
  - apply Create_bindings.
Qed.

Lemma CreateLoad_bindings ptr name s v s' :
  CreateLoad ptr name s = Ok (v, s') → same_bindings s s'.
Proof.
  unfold CreateLoad. destruct ptr as [a|]; [|discriminate]. intros H.
  apply (Create_bindings Load [AllocaValue a] name s v). congruence.
Qed.

Lemma Create_snd_bindings op ops name s : same_bindings s (Create op ops name s).2.
Proof. by eapply Create_bindings, surjective_pairing. Qed.

Lemma CreateStore_bindings v a s : same_bindings s (CreateStore v a s).
Proof. apply Create_snd_bindings. Qed.

Lemma CreateBr_bindings d s : same_bindings s (CreateBr d s).
Proof. apply Create_snd_bindings. Qed.

Lemma CreateCondBr_bindings c t e s : same_bindings s (CreateCondBr c t e s).
Proof. apply Create_snd_bindings. Qed.

Lemma set_lastValue_bindings v s : same_bindings s (set_lastValue v s).
Proof. by apply same_namedValues. Qed.

Lemma SetInsertPoint_bindings bb s : same_bindings s (SetInsertPoint bb s).
Proof. by apply same_namedValues. Qed.

Lemma logErrorV_bindings msg s : same_bindings s (logErrorV msg s).
Proof. by apply same_namedValues. Qed.

(** Reading an absent name inserts a null entry, which binds nothing. *)
Lemma namedValues_at_bindings name s a s' :
  namedValues_at name s = (a, s') → same_bindings s s'.
Proof.
  unfold namedValues_at. destruct (namedValues s !! name) eqn:E; intros [= <- <-].
  - apply same_bindings_refl.
  - intros x. unfold binding. simpl.
    destruct (decide (name = x)) as [->|Hne].
    + by rewrite lookup_insert_eq, E.
    + by rewrite lookup_insert_ne.
Qed.

Lemma namedValues_at_binding name s a s' :
  namedValues_at name s = (a, s') → a = binding s name.
Proof.
  unfold namedValues_at, binding.
  destruct (namedValues s !! name) eqn:E; by intros [= <- <-].
Qed.

Lemma BasicBlock_Create_bindings name parent s bb s' :
  BasicBlock_Create name parent s = (bb, s') → same_bindings s s'.
Proof.
  unfold BasicBlock_Create. destruct parent; intros [= <- <-];
    by apply same_namedValues.
Qed.

Lemma push_back_bindings function bb s s' :
  getBasicBlockList_push_back function bb s = Ok s' → same_bindings s s'.
Proof.
  unfold getBasicBlockList_push_back. destruct function; [|discriminate].
  destruct (find _ _); intros [= <-]; by apply same_namedValues.
Qed.

Lemma addIncoming_bindings phi v bb s : same_bindings s (addIncoming phi v bb s).
Proof. destruct phi; by apply same_namedValues. Qed.

Lemma getFunction_bindings name s f s' :
  getFunction name s = (f, s') → same_bindings s s'.
Proof.
  unfold getFunction. destruct (module_getFunction name s).
  - intros [= <- <-]. apply same_bindings_refl.
  - destruct (functionProtos s !! name).
    + intros [= <- <-]. apply same_namedValues.
      unfold visit_PrototypeAST, handleTopLevelExtern, visit_PrototypeAST_emit.
      by destruct (jitTopLevel s).
    + intros [= <- <-]. apply same_bindings_refl.
Qed.

Create HintDb bindings discriminated.
#[export] Hint Resolve Create_bindings CreateOrFold_bindings CreateLoad_bindings CreateStore_bindings
  CreateBr_bindings CreateCondBr_bindings set_lastValue_bindings SetInsertPoint_bindings
  logErrorV_bindings namedValues_at_bindings BasicBlock_Create_bindings
  push_back_bindings addIncoming_bindings getFunction_bindings : bindings.

Ltac bindings_chain :=
  repeat first
    [ apply same_bindings_refl
    | eapply same_bindings_trans; [ | solve [eauto 3 with bindings] ] ].

Lemma emitBinaryOp_bindings op lv rv s s' :
  emitBinaryOp op lv rv s = Ok s' → same_bindings s s'.
Proof.
  unfold emitBinaryOp. intros H.
  repeat case_decide; invert_all H; bindings_chain.
Qed.

Lemma If_enter_bindings condVal s function thenBB elseBB mergeBB s' :
  If_enter condVal s = Ok (function, thenBB, elseBB, mergeBB, s') → same_bindings s s'.
Proof. unfold If_enter. intros H. invert_all H. bindings_chain. Qed.

Lemma If_merge_bindings function mergeBB thenExpr thenBB elseExpr elseBB s s' :
  If_merge function mergeBB thenExpr thenBB elseExpr elseBB s = Ok s' →
  same_bindings s s'.
Proof. unfold If_merge. intros H. invert_all H. bindings_chain. Qed.

Lemma For_advance_bindings alloca stepVal s s' :
  For_advance alloca stepVal s = Ok s' → same_bindings s s'.
Proof. unfold For_advance. intros H. invert_all H. bindings_chain. Qed.

#[export] Hint Resolve emitBinaryOp_bindings If_enter_bindings If_merge_bindings
  For_advance_bindings : bindings.

Lemma emitArgs_bindings args :
  Forall (λ e, ∀ s s', visit e s = Ok s' → scope_free e = true → same_bindings s s') args →
  forallb scope_free args = true →
  ∀ vals s r, emitArgs visit args vals s = Ok r →
    match r with Continue _ s' => same_bindings s s' | Return s' => same_bindings s s' end.
Proof.
  induction 1 as [|a args Ha _ IH]; intros Hsf vals s r H; simpl in H.
  - injection H as <-. apply same_bindings_refl.
  - simpl in Hsf. apply andb_prop in Hsf as [Hsa Hsf].
    invert_step H. destruct (lastValue r0) eqn:El.
    + apply (IH Hsf) in H.
      destruct r; (eapply same_bindings_trans; [|exact H]); eauto.
    + injection H as <-. eauto.
Qed.

(** An expression without [var] and [for] leaves every binding as it was. *)
Lemma scope_free_same_bindings e :
  ∀ s s', visit e s = Ok s' → scope_free e = true → same_bindings s s'.
Proof.
  induction e as [val|name|opcode expr IH|l r op IHl IHr|body vars IHb IHv
                 |callee args IHa|c t e haveElse IHc IHt IHe
                 |start step end_ body varName IH1 IH2 IH3 IH4] using ExprAST_ind;
    intros s s' H Hsf; cbn [visit] in H; cbn [scope_free] in Hsf;
    try discriminate Hsf;
    repeat match goal with
           | H : _ && _ = true |- _ => apply andb_prop in H as [? ?]
           end.
  - injection H as <-. bindings_chain.
  - invert_all H.
    match goal with
    | E : CreateLoad ?o _ _ = Ok _ |- _ => destruct o; [|discriminate E]
    end.
    bindings_chain.
  - invert_all H; bindings_chain.
  - case_decide.
    + destruct l; invert_all H; bindings_chain.
    + invert_all H; bindings_chain.
  - destruct (getFunction callee s) as [calleeF s1] eqn:Eg.
    destruct calleeF as [f|]; [|invert_all H; bindings_chain].
    destruct (arg_size f s1) as [n|]; [cbn [bind] in H|discriminate H].
    case_decide; [invert_all H; bindings_chain|].
    invert_step H.
    match goal with
    | E : emitArgs _ _ _ _ = Ok _ |- _ =>
        pose proof (emitArgs_bindings args IHa Hsf _ _ _ E) as Hd
    end.
    match goal with
    | Hd : match ?r with _ => _ end |- _ => destruct r
    end; invert_all H;
      (eapply same_bindings_trans; [|eapply same_bindings_trans; [exact Hd|]]);
      bindings_chain.
  - destruct e as [e|]; simpl in IHe; invert_all H; bindings_chain.
Qed.

Lemma createEntryBlockAlloca_bindings function name s a s' :
  createEntryBlockAlloca function name s = Ok (a, s') → same_bindings s s'.
Proof.
  unfold createEntryBlockAlloca. destruct function; [|discriminate].
  destruct (find_function _ _) as [f|]; [|discriminate].
  destruct (f_blocks f); [discriminate|]. intros [= <- <-].
  by apply same_namedValues.
Qed.

#[export] Hint Resolve createEntryBlockAlloca_bindings : bindings.

Lemma For_enter_bindings function varName alloca startVal s oldVar loopBB s' :
  For_enter function varName alloca startVal s = (oldVar, loopBB, s') →
  oldVar = binding s varName ∧ ∀ x, x ≠ varName → binding s' x = binding s x.
Proof.
  unfold For_enter. destruct (BasicBlock_Create _ _ _) as [bb s2] eqn:Eb.
  destruct (namedValues_at _ _) as [old s5] eqn:En. intros [= <- <- <-].
  assert (same_bindings s (SetInsertPoint bb (CreateBr bb s2))) as Hs
    by bindings_chain.
  split.
  - rewrite (namedValues_at_binding _ _ _ _ En). apply Hs.
  - intros x Hx. transitivity (binding s5 x).
    + unfold binding, namedValues_assign. simpl. by rewrite lookup_insert_ne.
    + rewrite (namedValues_at_bindings _ _ _ _ En x). apply Hs.
Qed.

Lemma For_exit_bindings function varName oldVar loopBB endCond s x :
  binding (For_exit function varName oldVar loopBB endCond s) x
  = if decide (x = varName) then oldVar else binding s x.
Proof.
  unfold For_exit. destruct (CreateOrFold _ _ _ _) as [c s1] eqn:E1.
  destruct (BasicBlock_Create _ _ _) as [bb s2] eqn:E2.
  assert (same_bindings s (SetInsertPoint bb (CreateCondBr c loopBB bb s2))) as Hs
    by bindings_chain.
  unfold binding in *. destruct oldVar as [a|]; simpl; case_decide; subst.
  - by rewrite lookup_insert_eq.
  - rewrite lookup_insert_ne by done. apply Hs.
  - by rewrite lookup_delete_eq.
  - rewrite lookup_delete_ne by done. apply Hs.
Qed.

(** ** What a loop over another variable leaves alone *)

Lemma keeps_refl x s : keeps x s s.
Proof. reflexivity. Qed.

Lemma keeps_trans x s1 s2 s3 : keeps x s1 s2 → keeps x s2 s3 → keeps x s1 s3.
Proof. unfold keeps. congruence. Qed.

Lemma same_bindings_keeps x s s' : same_bindings s s' → keeps x s s'.
Proof. intros H. apply H. Qed.

Create HintDb keeps discriminated.
#[export] Hint Resolve same_bindings_keeps : keeps.

Ltac keeps_chain :=
  repeat first
    [ apply keeps_refl
    | eapply keeps_trans; [ | solve [eauto 4 with bindings keeps] ] ].

Lemma emitArgs_keeps x args :
  Forall (λ e, ∀ s s', visit e s = Ok s' → rebind_free x e = true → keeps x s s') args →
  forallb (rebind_free x) args = true →
  ∀ vals s r, emitArgs visit args vals s = Ok r →
    match r with Continue _ s' => keeps x s s' | Return s' => keeps x s s' end.
Proof.
  induction 1 as [|a args Ha _ IH]; intros Hsf vals s r H; simpl in H.
  - injection H as <-. apply keeps_refl.
  - simpl in Hsf. apply andb_prop in Hsf as [Hsa Hsf].
    invert_step H. destruct (lastValue r0) eqn:El.
    + apply (IH Hsf) in H.
      destruct r; (eapply keeps_trans; [|exact H]); eauto.
    + injection H as <-. eauto.
Qed.

(** An expression without [var] and without a loop over [x] leaves the
    binding of [x] as it was, whether it yields a value or null. *)
Lemma rebind_free_keeps x e :
  ∀ s s', visit e s = Ok s' → rebind_free x e = true → keeps x s s'.
Proof.
  induction e as [val|name|opcode expr IH|l r op IHl IHr|body vars IHb IHv
                 |callee args IHa|c t e haveElse IHc IHt IHe
                 |start step end_ body varName IH1 IH2 IH3 IH4] using ExprAST_ind;
    intros s s' H Hsf; cbn [visit] in H; cbn [rebind_free] in Hsf;
    try discriminate Hsf;
    repeat match goal with
           | H : _ && _ = true |- _ => apply andb_prop in H as [? ?]
           end.
  - injection H as <-. keeps_chain.
  - invert_all H.
    match goal with
    | E : CreateLoad ?o _ _ = Ok _ |- _ => destruct o; [|discriminate E]
    end.
    keeps_chain.
  - invert_all H; keeps_chain.
  - case_decide.
    + destruct l; invert_all H; keeps_chain.
    + invert_all H; keeps_chain.
  - destruct (getFunction callee s) as [calleeF s1] eqn:Eg.
    destruct calleeF as [f|]; [|invert_all H; keeps_chain].
    destruct (arg_size f s1) as [n|]; [cbn [bind] in H|discriminate H].
    case_decide; [invert_all H; keeps_chain|].
    invert_step H.
    match goal with
    | E : emitArgs _ _ _ _ = Ok _ |- _ =>
        pose proof (emitArgs_keeps x args IHa Hsf _ _ _ E) as Hd
    end.
    match goal with
    | Hd : match ?r with _ => _ end |- _ => destruct r
    end; invert_all H;
      (eapply keeps_trans; [|eapply keeps_trans; [exact Hd|]]);
      keeps_chain.
  - destruct e as [e|]; simpl in IHe; invert_all H; keeps_chain.
  - match goal with
    | Hd : bool_decide (varName ≠ x) = true |- _ => apply bool_decide_eq_true in Hd
    end.
    apply bind_Ok in H as (function & Hf & H).
    apply bind_Ok in H as ([alloca s1] & Ha & H).
    apply bind_Ok in H as (s2 & Hs & H).
    assert (keeps x s s2) as K2 by keeps_chain.
    destruct (lastValue s2) as [startVal|] eqn:Hsv; [|by injection H as <-].
    destruct (For_enter _ _ _ _ _) as [[oldVar loopBB] s3] eqn:He.
    destruct (For_enter_bindings _ _ _ _ _ _ _ _ He) as [_ Hother].
    assert (keeps x s s3) as K3
      by (apply (keeps_trans x s s2 s3 K2), Hother; congruence).
    apply bind_Ok in H as (s4 & Hb & H).
    assert (keeps x s s4) as K4 by (eapply keeps_trans; eauto).
    destruct (lastValue s4) as [bodyVal|] eqn:Hbv; [|by injection H as <-].
    apply bind_Ok in H as (s5 & Hst & H).
    assert (keeps x s s5) as K5 by (eapply keeps_trans; eauto).
    destruct (lastValue s5) as [stepVal|] eqn:Hstv; [|by injection H as <-].
    apply bind_Ok in H as (s6 & Hadv & H).
    apply bind_Ok in H as (s7 & Hen & H).
    assert (keeps x s5 s6) as K56
      by (apply same_bindings_keeps; eapply For_advance_bindings; exact Hadv).
    assert (keeps x s s7) as K7
      by (apply (keeps_trans x s s6 s7); [exact (keeps_trans x s s5 s6 K5 K56)|eauto]).
    destruct (lastValue s7) as [endCond|] eqn:Hev; [|by injection H as <-].
    injection H as <-. unfold keeps. rewrite For_exit_bindings.
    by rewrite decide_False by congruence.
Qed.

(** ** A loop that fails *)

Lemma binding_For_enter function varName alloca startVal s oldVar loopBB s' :
  For_enter function varName alloca startVal s = (oldVar, loopBB, s') →
  binding s' varName = Some alloca.
Proof.
  unfold For_enter. destruct (BasicBlock_Create _ _ _) as [bb s2].
  destruct (namedValues_at _ _) as [old s3]. intros [= <- <- <-].
  unfold binding, namedValues_assign. simpl. by rewrite lookup_insert_eq.
Qed.

(** C10, as amended: when the body, the step or the end expression of a loop
    yields a null Last Value, the visitor returns in the state that emission
    left, without restoring the shadowed binding.  That emission started with
    the variable bound to the slot of the loop, and the variable is still
    bound to it afterwards when the expressions emitted since contain no
    [var] and no loop over the same variable; loops over other variables may
    be nested in them. *)
Theorem For_failure_skips_restoration (start step end_ body : ExprAST) (varName : string)
    (s s1 s2 s3 : CodeGenVisitor) (function : option nat) (alloca : AllocaInst)
    (startVal : Value) (oldVar : option AllocaInst) (loopBB : nat) :
  GetInsertBlock_getParent s = Ok function →
  createEntryBlockAlloca function varName s = Ok (alloca, s1) →
  visit start s1 = Ok s2 → lastValue s2 = Some startVal →
  For_enter function varName alloca startVal s2 = (oldVar, loopBB, s3) →
  binding s3 varName = Some alloca ∧
  (∀ s4, visit body s3 = Ok s4 → lastValue s4 = None →
     visit (ForExprAST start step end_ body varName) s = Ok s4 ∧
     (rebind_free varName body = true → binding s4 varName = Some alloca)) ∧
  (∀ s4 s5,
     visit body s3 = Ok s4 → is_Some (lastValue s4) →
     visit step s4 = Ok s5 → lastValue s5 = None →
     visit (ForExprAST start step end_ body varName) s = Ok s5 ∧
     (rebind_free varName body = true → rebind_free varName step = true →
      binding s5 varName = Some alloca)) ∧
  (∀ s4 s5 stepVal s6 s7,
     visit body s3 = Ok s4 → is_Some (lastValue s4) →
     visit step s4 = Ok s5 → lastValue s5 = Some stepVal →
     For_advance alloca stepVal s5 = Ok s6 →
     visit end_ s6 = Ok s7 → lastValue s7 = None →
     visit (ForExprAST start step end_ body varName) s = Ok s7 ∧
     (rebind_free varName body = true → rebind_free varName step = true →
      rebind_free varName end_ = true →
      binding s7 varName = Some alloca)).
Proof.
  intros Hf Ha Hs Hsv He.
  pose proof (binding_For_enter _ _ _ _ _ _ _ _ He) as Hbound.
  split; [exact Hbound|]. split; [|split].
  - intros s4 Hb Hbv. split.
    + cbn [visit]. rewrite Hf. cbn [bind]. rewrite Ha. cbn [bind]. rewrite Hs.
      cbn [bind]. rewrite Hsv, He, Hb. cbn [bind]. by rewrite Hbv.
    + intros Fb. by rewrite (rebind_free_keeps _ _ _ _ Hb Fb).
  - intros s4 s5 Hb [bv Hbv] Hst Hstv. split.
    + cbn [visit]. rewrite Hf. cbn [bind]. rewrite Ha. cbn [bind]. rewrite Hs.
      cbn [bind]. rewrite Hsv, He, Hb. cbn [bind]. rewrite Hbv, Hst. cbn [bind].
      by rewrite Hstv.
    + intros Fb Fs. rewrite (rebind_free_keeps _ _ _ _ Hst Fs).
      by rewrite (rebind_free_keeps _ _ _ _ Hb Fb).
  - intros s4 s5 stepVal s6 s7 Hb [bv Hbv] Hst Hstv Hadv Hen Hev. split.
    + cbn [visit]. rewrite Hf. cbn [bind]. rewrite Ha. cbn [bind]. rewrite Hs.
      cbn [bind]. rewrite Hsv, He, Hb. cbn [bind]. rewrite Hbv, Hst. cbn [bind].
      rewrite Hstv, Hadv. cbn [bind]. rewrite Hen. cbn [bind]. by rewrite Hev.
    + intros Fb Fs Fe. rewrite (rebind_free_keeps _ _ _ _ Hen Fe).
      rewrite (For_advance_bindings _ _ _ _ Hadv).
      rewrite (rebind_free_keeps _ _ _ _ Hst Fs).
      by rewrite (rebind_free_keeps _ _ _ _ Hb Fb).
Qed.

Lemma For_failure_skips_restoration_witness :
  (∃ s', visit loop_with_unknown_step inside_f = Ok s' ∧
         binding inside_f "i" = None ∧
         binding s' "i" = Some (mkAllocaInst 4 "i")) ∧
  (∃ s', visit nested_loops_other_variable inside_f = Ok s' ∧
         lastValue s' = None ∧
         binding s' "i" = Some (mkAllocaInst 4 "i")).
Proof.
  destruct (For_enter (Some 0) "i" (mkAllocaInst 4 "i") (ConstantFP 1)
             (set_lastValue (Some (ConstantFP 1)) inside_f_with_slot))
    as [[oldVar loopBB] s3] eqn:He.
  split.
  - destruct (visit (VariableExprAST "i") s3) as [s4|] eqn:Hb;
      [|vm_compute in He; injection He as <- <- <-; vm_compute in Hb; discriminate Hb].
    destruct (visit (CallExprAST "g" []) s4) as [s5|] eqn:Hst;
      [|vm_compute in He; injection He as <- <- <-; vm_compute in Hb;
        injection Hb as <-; vm_compute in Hst; discriminate Hst].
    destruct (For_failure_skips_restoration (NumberExprAST 1) (CallExprAST "g" [])
                (NumberExprAST 1) (VariableExprAST "i") "i" inside_f inside_f_with_slot
                (set_lastValue (Some (ConstantFP 1)) inside_f_with_slot) s3 (Some 0)
                (mkAllocaInst 4 "i") (ConstantFP 1) oldVar loopBB)
      as (_ & _ & Hstep & _);
      [vm_compute; reflexivity | vm_compute; reflexivity | reflexivity | reflexivity
      | exact He |].
    destruct (Hstep s4 s5 Hb) as [Hv Hbind]; [| exact Hst | |].
    + vm_compute in He. injection He as <- <- <-. vm_compute in Hb.
      injection Hb as <-. vm_compute. eauto.
    + vm_compute in He. injection He as <- <- <-. vm_compute in Hb.
      injection Hb as <-. vm_compute in Hst. injection Hst as <-. reflexivity.
    + exists s5. split; [exact Hv|]. split; [vm_compute; reflexivity|].
      by apply Hbind.
  - destruct (visit (ForExprAST (NumberExprAST 2) (NumberExprAST 1) (NumberExprAST 1)
                       (CallExprAST "g" []) "j") s3) as [s4|] eqn:Hb;
      [|vm_compute in He; injection He as <- <- <-; vm_compute in Hb; discriminate Hb].
    assert (lastValue s4 = None) as Hnull.
    { vm_compute in He. injection He as <- <- <-. vm_compute in Hb.
      injection Hb as <-. reflexivity. }
    destruct (For_failure_skips_restoration (NumberExprAST 1) (NumberExprAST 1)
                (NumberExprAST 1)
                (ForExprAST (NumberExprAST 2) (NumberExprAST 1) (NumberExprAST 1)
                   (CallExprAST "g" []) "j")
                "i" inside_f inside_f_with_slot
                (set_lastValue (Some (ConstantFP 1)) inside_f_with_slot) s3 (Some 0)
                (mkAllocaInst 4 "i") (ConstantFP 1) oldVar loopBB)
      as (_ & Hbody & _);
      [vm_compute; reflexivity | vm_compute; reflexivity | reflexivity | reflexivity
      | exact He |].
    destruct (Hbody s4 Hb Hnull) as [Hv Hbind].
    exists s4. split; [exact Hv|]. split; [exact Hnull|]. by apply Hbind.
Defined.

(** C10, as stated, fails: after the failed visit of the outer loop the name
    is bound to the slot of the inner loop, not to the slot of the loop that
    was visited. *)
Lemma For_failure_binding_of_inner_loop :
  ∃ function alloca s1 s',
    GetInsertBlock_getParent inside_f = Ok function ∧
    createEntryBlockAlloca function "i" inside_f = Ok (alloca, s1) ∧
    visit nested_loops_same_variable inside_f = Ok s' ∧
    lastValue s' = None ∧
    binding s' "i" ≠ Some alloca.
Proof.
  eexists _, _, _, _. split; [vm_compute; reflexivity|].
  split; [vm_compute; reflexivity|]. split; [vm_compute; reflexivity|].
  split; [reflexivity|]. vm_compute. discriminate.
Qed.

(** A [var] in the body is a scope of its own too: once it has been emitted
    Named Values is cleared, so when the step then fails the loop variable
    is bound to nothing. *)
Lemma For_failure_after_declaration :
  ∃ s', visit loop_over_declaration inside_f = Ok s' ∧
        lastValue s' = None ∧
        binding s' "i" = None.
Proof.
  eexists. split; [vm_compute; reflexivity|]. split; vm_compute; reflexivity.
Qed.

(** * Functions and the driver *)

Lemma storeParams_stable fn formals remaining :
  ∀ i s s', storeParams fn formals i remaining s = Ok s' → stable s s'.
Proof.
  induction remaining as [|n IH]; intros i s s' H; simpl in H.
  - injection H as <-. apply stable_refl.
  - destruct (formals !! i); [|discriminate H]. invert_step H.
    destruct r as [alloca s1]. apply IH in H.
    eapply stable_trans; [|exact H]. stable_chain.
Qed.

Lemma set_functionProtos_insert_stable p s :
  stable s (set_functionProtos (<[getName p := p]> (functionProtos s)) s).
Proof.
  split; try done.
  - intros k Hk. simpl. destruct (decide (getName p = k)) as [->|Hne].
    + rewrite lookup_insert_eq. eauto.
    + by rewrite lookup_insert_ne.
  - intros Hwf k q. simpl. destruct (decide (getName p = k)) as [<-|Hne].
    + rewrite lookup_insert_eq. by intros [= <-].
    + rewrite lookup_insert_ne by done. apply Hwf.
Qed.

Lemma FunctionAST_prologue_stable p s fn s' :
  FunctionAST_prologue p s = Ok (fn, s') → stable s s'.
Proof.
  unfold FunctionAST_prologue. intros H.
  destruct (getFunction _ _) as [function s2] eqn:Eg.
  destruct (BasicBlock_Create _ _ _) as [bb s3] eqn:Eb.
  destruct function as [fn'|]; [|discriminate H].
  invert_step H. invert_step H. injection H as <- <-.
  match goal with E : storeParams _ _ _ _ _ = Ok _ |- _ => apply storeParams_stable in E end.
  eapply stable_trans; [|eassumption].
  eapply stable_trans; [apply set_functionProtos_insert_stable|]. stable_chain.
Qed.

Lemma passManager_run_stable fn s : stable s (passManager_run fn s).
Proof. by apply same_outer_stable. Qed.

#[export] Hint Resolve passManager_run_stable : stable.

(** Emitting a definition changes none of the driver's members either. *)
Lemma visit_FunctionAST_emit_stable node s s' :
  visit_FunctionAST_emit node s = Ok s' → stable s s'.
Proof.
  unfold visit_FunctionAST_emit. intros H.
  invert_step H. destruct r as [fn s5]. invert_step H.
  apply FunctionAST_prologue_stable in E. apply visit_stable in E0.
  eapply stable_trans; [exact E|]. eapply stable_trans; [exact E0|].
  destruct (lastValue r); injection H as <-.
  - eapply stable_trans; [|apply set_lastFunction_stable].
    eapply stable_trans; [|apply passManager_run_stable]. apply CreateRet_stable.
  - apply set_lastFunction_stable.
Qed.

(** ** The results of [evaluate] *)

Section Evaluate.
Variable findSymbol : list (list Function) → string → JITSymbol.

Lemma visit_FunctionAST_cases node s :
  visit_FunctionAST findSymbol node s
  = if jitTopLevel s
    then if bool_decide (getName (getProto node) = "__anon_expr")
         then handleTopLevelExpression findSymbol node s
         else handleTopLevelDefinition node s
    else visit_FunctionAST_emit node s.
Proof.
  unfold visit_FunctionAST. destruct (jitTopLevel s); [|reflexivity].
  by destruct (bool_decide _).
Qed.

Lemma handleTopLevelDefinition_eq node s :
  handleTopLevelDefinition node s
  = visit_FunctionAST_emit node
      (initModuleAndPassManager (addModule (set_jitTopLevel false s))).
Proof. reflexivity. Qed.

Lemma handleTopLevelExpression_eq node s :
  handleTopLevelExpression findSymbol node s
  = bind (visit_FunctionAST_emit node (set_jitTopLevel false s))
      (λ s2,
         match lastFunction s2 with
         | None => Ok s2
         | Some _ =>
             match findSymbol (jit s2 ++ [module s2])%list "__anon_expr" with
             | SymbolNotFound => Fault
             | AddressError => Ok (initModuleAndPassManager (addModule s2))
             | SymbolValue val =>
                 match evaluationRes s2 with
                 | None => Fault
                 | Some res =>
                     Ok (set_evaluationRes (Some (res ++ [val])%list)
                           (initModuleAndPassManager (addModule s2)))
                 end
             end
         end).
Proof. reflexivity. Qed.

(** The ways [handleTopLevelExpression] returns. *)
Lemma handleTopLevelExpression_inv node s s' :
  handleTopLevelExpression findSymbol node s = Ok s' →
  ∃ s2, visit_FunctionAST_emit node (set_jitTopLevel false s) = Ok s2 ∧
    ((lastFunction s2 = None ∧ s' = s2) ∨
     (is_Some (lastFunction s2) ∧
      findSymbol (jit s2 ++ [module s2])%list "__anon_expr" = AddressError ∧
      s' = initModuleAndPassManager (addModule s2)) ∨
     (∃ val res,
        is_Some (lastFunction s2) ∧
        findSymbol (jit s2 ++ [module s2])%list "__anon_expr" = SymbolValue val ∧
        evaluationRes s2 = Some res ∧
        s' = set_evaluationRes (Some (res ++ [val])%list)
               (initModuleAndPassManager (addModule s2)))).
Proof.
  rewrite handleTopLevelExpression_eq. intros H.
  apply bind_Ok in H as (s2 & Hemit & H). exists s2. split; [exact Hemit|].
  destruct (lastFunction s2) as [fn|] eqn:Hfn.
  - destruct (findSymbol _ _) as [| |val] eqn:Hsym; [discriminate H| |].
    + injection H as <-. right. left. eauto.
    + destruct (evaluationRes s2) as [res|] eqn:Hres; [|discriminate H].
      injection H as <-. right. right. exists val, res. eauto.
  - injection H as <-. by left.
Qed.

Lemma accept_evaluationRes node s s1 acc :
  accept findSymbol node (set_jitTopLevel true s) = Ok s1 →
  evaluationRes s = Some acc →
  evaluationRes s1 = Some (acc ++ option_list (executed findSymbol node s))%list.
Proof.
  intros H Hacc. destruct node as [e|p|f]; cbn [accept] in H.
  - apply visit_stable in H. rewrite (st_evaluationRes _ _ H).
    cbn [executed option_list]. by rewrite app_nil_r.
  - injection H as <-.
    rewrite (st_evaluationRes _ _ (visit_PrototypeAST_stable p _)).
    cbn [executed option_list]. by rewrite app_nil_r.
  - rewrite visit_FunctionAST_cases in H.
    change (jitTopLevel (set_jitTopLevel true s)) with true in H. cbv iota in H.
    cbn [executed].
    destruct (bool_decide (getName (getProto f) = "__anon_expr")).
    + apply handleTopLevelExpression_inv in H as (s2 & Hemit & H).
      change (set_jitTopLevel false (set_jitTopLevel true s))
        with (set_jitTopLevel false s) in Hemit.
      rewrite Hemit.
      pose proof (visit_FunctionAST_emit_stable _ _ _ Hemit) as St.
      assert (evaluationRes s2 = Some acc) as Hs2
        by (by rewrite (st_evaluationRes _ _ St)).
      destruct H as [[Hfn ->]|[([fn Hfn] & Hsym & ->)|(val & res & [fn Hfn] & Hsym & Hres & ->)]];
        rewrite Hfn.
      * cbn [option_list]. by rewrite Hs2, app_nil_r.
      * rewrite Hsym. cbn [option_list].
        change (evaluationRes (initModuleAndPassManager (addModule s2)))
          with (evaluationRes s2).
        by rewrite Hs2, app_nil_r.
      * rewrite Hsym. cbn [option_list].
        change (evaluationRes
                  (set_evaluationRes (Some (res ++ [val])%list)
                     (initModuleAndPassManager (addModule s2))))
          with (Some (res ++ [val])%list).
        cbn [option_list]. rewrite Hres in Hs2. by injection Hs2 as ->.
    + rewrite handleTopLevelDefinition_eq in H.
      apply visit_FunctionAST_emit_stable in H.
      rewrite (st_evaluationRes _ _ H). cbn [option_list].
      change (evaluationRes (initModuleAndPassManager
                               (addModule (set_jitTopLevel false (set_jitTopLevel true s)))))
        with (evaluationRes s).
      by rewrite Hacc, app_nil_r.
Qed.

Lemma evaluate_loop_results astData :
  ∀ s s' acc,
    evaluate_loop findSymbol astData s = Ok s' → evaluationRes s = Some acc →
    evaluationRes s' = Some (acc ++ expected_results findSymbol astData s)%list.
Proof.
  induction astData as [|[node|] rest IH]; intros s s' acc H Hacc; simpl in H |- *.
  - injection H as <-. by rewrite app_nil_r.
  - invert_step H. rewrite E.
    pose proof (accept_evaluationRes _ _ _ _ E Hacc) as H1.
    rewrite (IH _ _ _ H H1). by rewrite app_assoc.
  - by apply IH.
Qed.

(** C7: what [evaluate] returns is the list of the values of the
    successfully executed top-level anonymous expressions, one each, in
    input order; a definition, an extern, a null entry or an expression
    that fails adds nothing. *)
Theorem evaluate_results (astData : list (option ASTNode)) (s s' : CodeGenVisitor)
    (r : option (list float)) :
  evaluate findSymbol astData s = Ok (r, s') →
  r = Some (expected_results findSymbol astData (set_evaluationRes (Some []) s)).
Proof.
  unfold evaluate. intros H. invert_step H. injection H as <- <-.
  by rewrite (evaluate_loop_results _ _ _ [] E).
Qed.

(** Definitions and externs are never executed. *)
Lemma executed_extern p s : executed findSymbol (PrototypeNode p) s = None.
Proof. reflexivity. Qed.

Lemma executed_definition f s :
  getName (getProto f) ≠ "__anon_expr" → executed findSymbol (FunctionNode f) s = None.
Proof. intros H. unfold executed. by rewrite bool_decide_eq_false_2. Qed.
End Evaluate.

(** ** Debug mode *)

Section Assembly.
Variable findSymbol : list (list Function) → string → JITSymbol.

Lemma accept_stable node s s' :
  jitTopLevel s = false → accept findSymbol node s = Ok s' → stable s s'.
Proof.
  intros Hflag H. destruct node as [e|p|f]; cbn [accept] in H.
  - by eapply visit_stable.
  - injection H as <-. apply visit_PrototypeAST_stable.
  - rewrite visit_FunctionAST_cases, Hflag in H.
    by eapply visit_FunctionAST_emit_stable.
Qed.

Lemma getAssembly_loop_stable astData :
  ∀ res s res' s',
    jitTopLevel s = false →
    getAssembly_loop findSymbol astData res s = Ok (res', s') → stable s s'.
Proof.
  induction astData as [|[node|] rest IH]; intros res s res' s' Hflag H; simpl in H.
  - injection H as <- <-. apply stable_refl.
  - invert_step H. invert_step H.
    pose proof (accept_stable _ _ _ Hflag E) as St.
    eapply stable_trans; [exact St|].
    eapply IH; [|exact H]. by apply (st_flag _ _ St).
  - by eapply IH.
Qed.

(** Whatever a fresh generator is asked to assemble in debug mode, its
    pass manager keeps the passes it was built with. *)
Lemma getAssembly_debug_keeps_passes astData res s' :
  getAssembly findSymbol astData true CodeGenVisitor_new = Ok (res, s') →
  passManager s' = configuredPasses.
Proof.
  unfold getAssembly. intros H. invert_step H. destruct r as [res0 s2].
  injection H as <- <-.
  apply getAssembly_loop_stable in E; [|reflexivity].
  simpl. by rewrite (st_passManager _ _ E).
Qed.

(** C4: [getAssembly] sets the debug flag, but the pass manager was filled
    when the generator was constructed and is not rebuilt: in debug mode
    the five passes are still run on [def f(x) x]. *)
Theorem debug_mode_still_runs_passes :
  ∃ f s',
    getAssembly findSymbol
      [Some (FunctionNode (mkFunctionAST proto_f (VariableExprAST "x")))] true
      CodeGenVisitor_new
    = Ok ([PrintedFunction f], s') ∧
    f_passes f = configuredPasses ∧ passManager s' = configuredPasses.
Proof. eexists _, _. split; [vm_compute; reflexivity|]. split; reflexivity. Qed.
End Assembly.

(** ** Function resolution *)

Lemma FunctionAST_prologue_registers p s fn s' :
  FunctionAST_prologue p s = Ok (fn, s') → is_Some (functionProtos s' !! getName p).
Proof.
  unfold FunctionAST_prologue. intros H.
  destruct (getFunction _ _) as [function s2] eqn:Eg.
  destruct (BasicBlock_Create _ _ _) as [bb s3] eqn:Eb.
  destruct function as [fn'|]; [|discriminate H].
  invert_step H. invert_step H. injection H as <- <-.
  match goal with
  | E : storeParams _ _ _ _ _ = Ok ?r |- _ =>
      apply storeParams_stable in E;
      assert (stable (set_functionProtos (<[getName p := p]> (functionProtos s)) s) r)
        as St by (eapply stable_trans; [|exact E]; stable_chain)
  end.
  apply (st_protos _ _ St). simpl. rewrite lookup_insert_eq. eauto.
Qed.

Lemma visit_FunctionAST_emit_registers node s s' :
  visit_FunctionAST_emit node s = Ok s' →
  is_Some (functionProtos s' !! getName (getProto node)).
Proof.
  unfold visit_FunctionAST_emit. intros H.
  invert_step H. destruct r as [fn s5]. invert_step H.
  apply FunctionAST_prologue_registers in E. apply visit_stable in E0.
  apply (st_protos _ _ E0) in E.
  destruct (lastValue r); injection H as <-;
    (eapply st_protos; [|exact E]); stable_chain.
Qed.

Section Resolution.
Variable findSymbol : list (list Function) → string → JITSymbol.

Lemma handleTopLevelExpression_protos node s s' :
  handleTopLevelExpression findSymbol node s = Ok s' →
  ∃ s2, visit_FunctionAST_emit node (set_jitTopLevel false s) = Ok s2 ∧
        functionProtos s' = functionProtos s2.
Proof.
  intros H. apply handleTopLevelExpression_inv in H as (s2 & Hemit & H).
  exists s2. split; [exact Hemit|].
  by destruct H as [[_ ->]|[(_ & _ & ->)|(val & res & _ & _ & _ & ->)]].
Qed.

Lemma visit_FunctionAST_registers node s s' :
  visit_FunctionAST findSymbol node s = Ok s' →
  is_Some (functionProtos s' !! getName (getProto node)).
Proof.
  rewrite visit_FunctionAST_cases. intros H.
  destruct (jitTopLevel s); [destruct (bool_decide _)|].
  - apply handleTopLevelExpression_protos in H as (s2 & H & ->).
    by eapply visit_FunctionAST_emit_registers.
  - rewrite handleTopLevelDefinition_eq in H.
    by eapply visit_FunctionAST_emit_registers.
  - by eapply visit_FunctionAST_emit_registers.
Qed.

Lemma stable_protos_extend s s' : stable s s' → protos_extend s s'.
Proof. intros St. split; [apply (st_protos _ _ St)|apply (st_wf _ _ St)]. Qed.

Lemma accept_protos node s s' :
  accept findSymbol node s = Ok s' → protos_extend s s'.
Proof.
  intros H. destruct node as [e|p|f]; cbn [accept] in H.
  - eapply stable_protos_extend, visit_stable, H.
  - injection H as <-. apply stable_protos_extend, visit_PrototypeAST_stable.
  - rewrite visit_FunctionAST_cases in H.
    destruct (jitTopLevel s); [destruct (bool_decide _)|].
    + apply handleTopLevelExpression_protos in H as (s2 & H & Heq).
      apply visit_FunctionAST_emit_stable, stable_protos_extend in H.
      unfold protos_extend, protos_wf in *. by rewrite Heq.
    + rewrite handleTopLevelDefinition_eq in H.
      apply visit_FunctionAST_emit_stable, stable_protos_extend in H.
      exact H.
    + by apply visit_FunctionAST_emit_stable, stable_protos_extend in H.
Qed.

Lemma evaluate_loop_protos astData :
  ∀ s s', evaluate_loop findSymbol astData s = Ok s' → protos_extend s s'.
Proof.
  induction astData as [|[node|] rest IH]; intros s s' H; simpl in H.
  - injection H as <-. by split.
  - invert_step H. apply accept_protos in E as [E1 E2].
    apply IH in H as [H1 H2]. split; auto.
  - by apply IH.
Qed.

(** C6: [getFunction] returns the function of that name in the current
    module when there is one; failing that, it declares the remembered
    prototype of that name in the current module and returns the new
    declaration; failing that too, it returns null.  Hence a function
    defined by an earlier top-level node is resolved in the fresh module
    that follows any later submission. *)
Theorem getFunction_resolution :
  (∀ name s f,
     module_getFunction name s = Some f → getFunction name s = (Some (f_id f), s)) ∧
  (∀ name s p,
     module_getFunction name s = None → functionProtos s !! name = Some p →
     ∃ s', getFunction name s = (Some (nextId s), s') ∧
           module s'
           = (module s ++
              [mkFunction (nextId s) (getName p)
                 (bool_decide (is_Some (module_getFunction (getName p) s)))
                 (getArgs p) [] []])%list) ∧
  (∀ name s,
     module_getFunction name s = None → functionProtos s !! name = None →
     getFunction name s = (None, s)) ∧
  (∀ def s s1 later s2,
     protos_wf s →
     accept findSymbol (FunctionNode def) (set_jitTopLevel true s) = Ok s1 →
     evaluate_loop findSymbol later s1 = Ok s2 →
     ∃ s3 f,
       getFunction (getName (getProto def)) (initModuleAndPassManager (addModule s2))
         = (Some (f_id f), s3) ∧
       module s3 = [f] ∧ f_name f = getName (getProto def) ∧ f_renamed f = false).
Proof.
  assert (∀ name s p,
     module_getFunction name s = None → functionProtos s !! name = Some p →
     ∃ s', getFunction name s = (Some (nextId s), s') ∧
           module s'
           = (module s ++
              [mkFunction (nextId s) (getName p)
                 (bool_decide (is_Some (module_getFunction (getName p) s)))
                 (getArgs p) [] []])%list) as Hdeclare.
  { intros name s p Hm Hp. unfold getFunction. rewrite Hm, Hp.
    unfold visit_PrototypeAST, handleTopLevelExtern, visit_PrototypeAST_emit,
      Function_Create.
    destruct (jitTopLevel s); eexists; split; reflexivity. }
  split; [|split; [exact Hdeclare|split]].
  - intros name s f Hm. unfold getFunction. by rewrite Hm.
  - intros name s Hm Hp. unfold getFunction. by rewrite Hm, Hp.
  - intros def s s1 later s2 Hwf Hdef Hlater.
    apply accept_protos in Hdef as Hext1. apply evaluate_loop_protos in Hlater as Hext2.
    assert (is_Some (functionProtos s2 !! getName (getProto def))) as [p Hp].
    { apply Hext2. cbn [accept] in Hdef. by eapply visit_FunctionAST_registers. }
    assert (getName p = getName (getProto def)) as Hname.
    { by apply (proj2 Hext2 (proj2 Hext1 Hwf)). }
    destruct (Hdeclare (getName (getProto def))
                (initModuleAndPassManager (addModule s2)) p) as (s3 & Hg & Hmod);
      [reflexivity|exact Hp|].
    exists s3, (mkFunction (nextId s2) (getName p) false (getArgs p) [] []).
    split; [exact Hg|]. split; [exact Hmod|]. split; [exact Hname|reflexivity].
Qed.

(** The initial generator remembers no prototype. *)
Lemma protos_wf_new : protos_wf CodeGenVisitor_new.
Proof. intros k p H. unfold CodeGenVisitor_new in H. simpl in H. by rewrite lookup_empty in H. Qed.
End Resolution.

(** * Declarations *)

(** C1: inside [def f(x) ...] the parameter [x] is bound; after
    [var y = 1 in y] has been emitted, with success, it no longer is: the
    restoration clears Named Values and puts back only what the declared
    names were bound to. *)
Theorem declaration_drops_outer_binding :
  binding inside_f "x" = Some (mkAllocaInst 2 "x") ∧
  binding inside_f "y" = None ∧
  ∃ s', visit var_y_in_y inside_f = Ok s' ∧
        is_Some (lastValue s') ∧
        binding s' "x" = None ∧
        namedValues s' = ∅.
Proof.
  split; [vm_compute; reflexivity|]. split; [vm_compute; reflexivity|].
  eexists. split; [vm_compute; reflexivity|].
  split; [by eexists|]. split; vm_compute; reflexivity.
Qed.

Lemma declareVars_length visit' function vars :
  ∀ old s old' s',
    declareVars visit' function vars old s = Ok (Continue old' s') →
    length old' = (length old + length vars)%nat.
Proof.
  induction vars as [|[name init] vars IH]; intros old s old' s' H; simpl in H.
  - injection H as <- <-. simpl. lia.
  - invert_step H. destruct r as [alloca s1]. destruct init as [e|].
    + invert_step H. destruct (lastValue r) eqn:El; [|discriminate H].
      destruct (bindVar _ _ _ _) as [o s3]. apply IH in H.
      rewrite length_app in H. simpl in *. lia.
    + destruct (bindVar _ _ _ _) as [o s3]. apply IH in H.
      rewrite length_app in H. simpl in *. lia.
Qed.

Lemma restoreBindings_size oldBindings s :
  (size (namedValues (restoreBindings oldBindings s)) ≤ length oldBindings)%nat.
Proof.
  unfold restoreBindings.
  assert (∀ l s0,
            (size (namedValues
                    (fold_left
                       (λ s' alloca,
                          match alloca with
                          | Some a =>
                              namedValues_assign
                                (getValueName (alloca_id a) (names s')) a s'
                          | None => s'
                          end) l s0))
            ≤ size (namedValues s0) + length l)%nat) as Hfold.
  { induction l as [|[a|] l IH]; intros s0; simpl.
    - lia.
    - etrans; [apply IH|]. unfold namedValues_assign. simpl.
      rewrite map_size_insert.
      destruct (namedValues s0 !! _); unfold id; lia.
    - etrans; [apply IH|]. lia. }
  etrans; [apply Hfold|]. unfold namedValues_clear. simpl.
  rewrite map_size_empty. lia.
Qed.

(** In general: after a declaration has been emitted with success, Named
    Values holds at most one entry per declared variable, whatever it held
    before. *)
Lemma Declaration_leaves_at_most_its_variables body vars s s' :
  visit (DeclarationExprAST body vars) s = Ok s' → is_Some (lastValue s') →
  (size (namedValues s') ≤ length vars)%nat.
Proof.
  cbn [visit]. intros H [v Hv].
  apply bind_Ok in H as (function & Hf & H).
  apply bind_Ok in H as (r & Hd & H).
  destruct r as [old s1|s1].
  - apply bind_Ok in H as (s2 & Hb & H).
    destruct (lastValue s2) eqn:El; injection H as <-; [|congruence].
    apply declareVars_length in Hd. simpl in Hd. rewrite <- Hd.
    apply restoreBindings_size.
  - injection H as <-. apply declareVars_Return in Hd. congruence.
Qed.

(** * Worked examples *)

Lemma For_lowering_order_witness :
  visit counting_loop inside_f = Ok counting_loop_emitted ∧
  ∃ alloca stepVal s5 s6 s7,
    For_advance alloca stepVal s5 = Ok s6 ∧
    visit (BinaryExprAST (VariableExprAST "i") (VariableExprAST "x") "<") s6 = Ok s7.
Proof.
  assert (visit counting_loop inside_f = Ok counting_loop_emitted) as H
    by (vm_compute; reflexivity).
  split; [exact H|].
  destruct (For_lowering_order _ _ _ _ _ _ _ H)
    as (function & alloca & s1 & s2 & startVal & oldVar & loopBB & s3 & s4 & s5
        & stepVal & s6 & s7 & endCond & _ & _ & _ & _ & _ & _ & _ & _ & _ & Hadv & _
        & Hend & _);
    [vm_compute; eauto|].
  exists alloca, stepVal, s5, s6, s7. by split.
Defined.

Lemma evaluate_results_witness :
  ∃ s', evaluate countingJIT session CodeGenVisitor_new
          = Ok (Some [2%float; 3%float], s') ∧
        Some [2%float; 3%float]
          = Some (expected_results countingJIT session
                    (set_evaluationRes (Some []) CodeGenVisitor_new)).
Proof.
  eexists. split; [vm_compute; reflexivity|].
  eapply evaluate_results. vm_compute. reflexivity.
Defined.

(** * The module only grows *)

Lemma module_extends_refl s : module_extends s s.
Proof. unfold module_extends. reflexivity. Qed.

Lemma module_extends_trans s1 s2 s3 :
  module_extends s1 s2 → module_extends s2 s3 → module_extends s1 s3.
Proof. unfold module_extends. intros H1 H2. by etrans. Qed.

Lemma same_signatures s s' : signatures s' = signatures s → module_extends s s'.
Proof. unfold module_extends. by intros ->. Qed.

Lemma signatures_map (g : Function → Function) (m : list Function) :
  (∀ f, signature (g f) = signature f) → signature <$> (g <$> m) = signature <$> m.
Proof.
  intros Hg. induction m as [|f m IH]; [done|].
  rewrite !fmap_cons. by rewrite Hg, IH.
Qed.

Lemma signature_map_blocks g f : signature (map_blocks g f) = signature f.
Proof. reflexivity. Qed.

Lemma signature_push_block fn b f : signature (push_block fn b f) = signature f.
Proof. unfold push_block. by case_decide. Qed.

Lemma signature_alloca_in_entry fn i f : signature (alloca_in_entry fn i f) = signature f.
Proof. unfold alloca_in_entry. by case_decide. Qed.

Lemma Insert_signatures i s : signatures (Insert i s) = signatures s.
Proof.
  unfold Insert, signatures. destruct (builder s); [|done]. simpl.
  apply signatures_map, signature_map_blocks.
Qed.

Lemma Create_extends op ops name s v s' :
  Create op ops name s = (v, s') → module_extends s s'.
Proof.
  unfold Create. intros [= _ <-]. apply same_signatures.
  exact (Insert_signatures _ (set_nextId (S (nextId s)) s)).
Qed.

Lemma Create_snd_extends op ops name s : module_extends s (Create op ops name s).2.
Proof. by eapply Create_extends, surjective_pairing. Qed.

Lemma CreateOrFold_extends op ops name s v s' :
  CreateOrFold op ops name s = (v, s') → module_extends s s'.
Proof.
  unfold CreateOrFold. destruct (fold_constants op ops).
  - intros [= _ <-]. apply module_extends_refl.
  - apply Create_extends.
Qed.

Lemma CreateLoad_extends ptr name s v s' :
  CreateLoad ptr name s = Ok (v, s') → module_extends s s'.
Proof.
  unfold CreateLoad. destruct ptr as [a|]; [|discriminate]. intros H.
  apply (Create_extends Load [AllocaValue a] name s v). congruence.
Qed.

Lemma CreateStore_extends v a s : module_extends s (CreateStore v a s).
Proof. apply Create_snd_extends. Qed.

Lemma CreateBr_extends d s : module_extends s (CreateBr d s).
Proof. apply Create_snd_extends. Qed.

Lemma CreateCondBr_extends c t e s : module_extends s (CreateCondBr c t e s).
Proof. apply Create_snd_extends. Qed.

Lemma CreateRet_extends v s : module_extends s (CreateRet v s).
Proof. apply Create_snd_extends. Qed.

Lemma set_lastValue_extends v s : module_extends s (set_lastValue v s).
Proof. by apply same_signatures. Qed.

Lemma set_lastFunction_extends v s : module_extends s (set_lastFunction v s).
Proof. by apply same_signatures. Qed.

Lemma SetInsertPoint_extends bb s : module_extends s (SetInsertPoint bb s).
Proof. by apply same_signatures. Qed.

Lemma logErrorV_extends msg s : module_extends s (logErrorV msg s).
Proof. by apply same_signatures. Qed.

Lemma namedValues_at_extends name s a s' :
  namedValues_at name s = (a, s') → module_extends s s'.
Proof.
  unfold namedValues_at. destruct (namedValues s !! name); intros [= <- <-];
    by apply same_signatures.
Qed.

Lemma namedValues_assign_extends name a s : module_extends s (namedValues_assign name a s).
Proof. by apply same_signatures. Qed.

Lemma namedValues_erase_extends name s : module_extends s (namedValues_erase name s).
Proof. by apply same_signatures. Qed.

Lemma namedValues_clear_extends s : module_extends s (namedValues_clear s).
Proof. by apply same_signatures. Qed.

Lemma BasicBlock_Create_extends name parent s bb s' :
  BasicBlock_Create name parent s = (bb, s') → module_extends s s'.
Proof.
  unfold BasicBlock_Create. destruct parent; intros [= <- <-]; apply same_signatures;
    [|done].
  unfold signatures. simpl. apply signatures_map, signature_push_block.
Qed.

Lemma push_back_extends function bb s s' :
  getBasicBlockList_push_back function bb s = Ok s' → module_extends s s'.
Proof.
  unfold getBasicBlockList_push_back. destruct function; [|discriminate].
  destruct (find _ _); intros [= <-]; apply same_signatures; [|done].
  unfold signatures. simpl. apply signatures_map, signature_push_block.
Qed.

Lemma addIncoming_extends phi v bb s : module_extends s (addIncoming phi v bb s).
Proof.
  destruct phi; apply same_signatures; try done.
  unfold signatures. simpl. apply signatures_map, signature_map_blocks.
Qed.

Lemma createEntryBlockAlloca_extends function name s a s' :
  createEntryBlockAlloca function name s = Ok (a, s') → module_extends s s'.
Proof.
  unfold createEntryBlockAlloca. destruct function; [|discriminate].
  destruct (find_function _ _) as [f|]; [|discriminate].
  destruct (f_blocks f); [discriminate|]. intros [= <- <-].
  apply same_signatures. unfold signatures. simpl.
  apply signatures_map, signature_alloca_in_entry.
Qed.

Lemma Function_Create_extends name formals s fn s' :
  Function_Create name formals s = (fn, s') → module_extends s s'.
Proof.
  unfold Function_Create. intros [= <- <-]. unfold module_extends, signatures.
  simpl. rewrite fmap_app. by apply prefix_app_r.
Qed.

Lemma visit_PrototypeAST_extends p s : module_extends s (visit_PrototypeAST p s).
Proof.
  unfold visit_PrototypeAST, handleTopLevelExtern, visit_PrototypeAST_emit.
  destruct (jitTopLevel s);
    (destruct (Function_Create _ _ _) as [fn s1] eqn:E;
     apply Function_Create_extends in E); exact E.
Qed.

Lemma getFunction_extends name s f s' :
  getFunction name s = (f, s') → module_extends s s'.
Proof.
  unfold getFunction. destruct (module_getFunction name s).
  - intros [= <- <-]. apply module_extends_refl.
  - destruct (functionProtos s !! name).
    + intros [= <- <-]. apply visit_PrototypeAST_extends.
    + intros [= <- <-]. apply module_extends_refl.
Qed.

Create HintDb extends discriminated.
#[export] Hint Resolve Create_extends CreateOrFold_extends CreateLoad_extends CreateStore_extends
  CreateBr_extends CreateCondBr_extends CreateRet_extends set_lastValue_extends
  set_lastFunction_extends SetInsertPoint_extends logErrorV_extends
  namedValues_at_extends namedValues_assign_extends namedValues_erase_extends
  namedValues_clear_extends BasicBlock_Create_extends push_back_extends
  addIncoming_extends createEntryBlockAlloca_extends visit_PrototypeAST_extends
  getFunction_extends : extends.

Ltac extends_chain :=
  repeat first
    [ apply module_extends_refl
    | eapply module_extends_trans; [ | solve [eauto 3 with extends] ] ].

Lemma emitBinaryOp_extends op lv rv s s' :
  emitBinaryOp op lv rv s = Ok s' → module_extends s s'.
Proof.
  unfold emitBinaryOp. intros H.
  repeat case_decide; invert_all H; extends_chain.
Qed.

Lemma bindVar_extends name alloca varVal s old s' :
  bindVar name alloca varVal s = (old, s') → module_extends s s'.
Proof.
  unfold bindVar. destruct (namedValues_at _ _) eqn:E. intros [= <- <-].
  extends_chain.
Qed.

Lemma restoreBindings_extends oldBindings s :
  module_extends s (restoreBindings oldBindings s).
Proof.
  unfold restoreBindings.
  apply module_extends_trans with (namedValues_clear s); [extends_chain|].
  generalize (namedValues_clear s).
  induction oldBindings as [|[a|] l IH]; intros s0; simpl.
  - apply module_extends_refl.
  - eapply module_extends_trans; [|apply IH]. extends_chain.
  - apply IH.
Qed.

Lemma For_enter_extends function varName alloca startVal s oldVar loopBB s' :
  For_enter function varName alloca startVal s = (oldVar, loopBB, s') →
  module_extends s s'.
Proof.
  unfold For_enter. destruct (BasicBlock_Create _ _ _) eqn:E1.
  destruct (namedValues_at _ _) eqn:E2. intros [= <- <- <-]. extends_chain.
Qed.

Lemma For_advance_extends alloca stepVal s s' :
  For_advance alloca stepVal s = Ok s' → module_extends s s'.
Proof. unfold For_advance. intros H. invert_all H. extends_chain. Qed.

Lemma For_exit_extends function varName oldVar loopBB endCond s :
  module_extends s (For_exit function varName oldVar loopBB endCond s).
Proof.
  unfold For_exit. destruct (CreateOrFold _ _ _ _) eqn:E1.
  destruct (BasicBlock_Create _ _ _) eqn:E2. destruct oldVar; extends_chain.
Qed.

Lemma If_enter_extends condVal s function thenBB elseBB mergeBB s' :
  If_enter condVal s = Ok (function, thenBB, elseBB, mergeBB, s') → module_extends s s'.
Proof. unfold If_enter. intros H. invert_all H. extends_chain. Qed.

Lemma If_merge_extends function mergeBB thenExpr thenBB elseExpr elseBB s s' :
  If_merge function mergeBB thenExpr thenBB elseExpr elseBB s = Ok s' →
  module_extends s s'.
Proof. unfold If_merge. intros H. invert_all H. extends_chain. Qed.

#[export] Hint Resolve emitBinaryOp_extends bindVar_extends restoreBindings_extends
  For_enter_extends For_advance_extends For_exit_extends If_enter_extends
  If_merge_extends : extends.

Section Loops_extends.
Variable visit' : ExprAST → CodeGenVisitor → Outcome CodeGenVisitor.

Lemma declareVars_extends function vars :
  Forall (λ v, from_option (λ e, ∀ s s', visit' e s = Ok s' → module_extends s s')
                 True v.2) vars →
  ∀ old s r, declareVars visit' function vars old s = Ok r →
    match r with
    | Continue _ s' => module_extends s s'
    | Return s' => module_extends s s'
    end.
Proof.
  induction 1 as [|[name init] vars Hv _ IH]; intros old s r H; simpl in H.
  - injection H as <-. apply module_extends_refl.
  - invert_step H. destruct r0 as [alloca s1]. destruct init as [e|]; simpl in Hv.
    + invert_step H. destruct (lastValue r0) eqn:El.
      * destruct (bindVar _ _ _ _) eqn:Eb. apply IH in H.
        destruct r; (eapply module_extends_trans; [|exact H]); extends_chain.
      * injection H as <-. extends_chain.
    + destruct (bindVar _ _ _ _) eqn:Eb. apply IH in H.
      destruct r; (eapply module_extends_trans; [|exact H]); extends_chain.
Qed.

Lemma emitArgs_extends args :
  Forall (λ e, ∀ s s', visit' e s = Ok s' → module_extends s s') args →
  ∀ vals s r, emitArgs visit' args vals s = Ok r →
    match r with
    | Continue _ s' => module_extends s s'
    | Return s' => module_extends s s'
    end.
Proof.
  induction 1 as [|a args Ha _ IH]; intros vals s r H; simpl in H.
  - injection H as <-. apply module_extends_refl.
  - invert_step H. destruct (lastValue r0) eqn:El.
    + apply IH in H. destruct r; (eapply module_extends_trans; [|exact H]); eauto.
    + injection H as <-. eauto.
Qed.
End Loops_extends.

Lemma visit_extends e : ∀ s s', visit e s = Ok s' → module_extends s s'.
Proof.
  induction e as [val|name|opcode expr IH|l r op IHl IHr|body vars IHb IHv
                 |callee args IHa|c t e haveElse IHc IHt IHe
                 |start step end_ body varName IH1 IH2 IH3 IH4] using ExprAST_ind;
    intros s s' H; cbn [visit] in H.
  - injection H as <-. extends_chain.
  - invert_all H.
    match goal with
    | E : CreateLoad ?o _ _ = Ok _ |- _ => destruct o; [|discriminate E]
    end.
    extends_chain.
  - invert_all H; extends_chain.
  - case_decide.
    + destruct l; invert_all H; extends_chain.
    + invert_all H; extends_chain.
  - invert_step H. invert_step H.
    match goal with
    | E : declareVars _ _ _ _ _ = Ok _ |- _ =>
        pose proof (declareVars_extends visit _ vars IHv _ _ _ E) as Hd
    end.
    match goal with
    | Hd : match ?r with _ => _ end |- _ => destruct r
    end; invert_all H; (eapply module_extends_trans; [exact Hd|]); extends_chain.
  - destruct (getFunction callee s) as [calleeF s1] eqn:Eg.
    destruct calleeF as [f|]; [|invert_all H; extends_chain].
    destruct (arg_size f s1) as [n|]; [cbn [bind] in H|discriminate H].
    case_decide; [invert_all H; extends_chain|].
    invert_step H.
    match goal with
    | E : emitArgs _ _ _ _ = Ok _ |- _ =>
        pose proof (emitArgs_extends visit args IHa _ _ _ E) as Hd
    end.
    match goal with
    | Hd : match ?r with _ => _ end |- _ => destruct r
    end; invert_all H;
      (eapply module_extends_trans; [|eapply module_extends_trans; [exact Hd|]]);
      extends_chain.
  - destruct e as [e|]; simpl in IHe; invert_all H; extends_chain.
  - invert_all H; extends_chain.
Qed.

(** ** Lookups in a module that only grows *)

Lemma find_signature_prefix (P : Function → bool) (m : list Function) :
  (∀ a b, signature a = signature b → P a = P b) →
  ∀ m' f,
    (signature <$> m) `prefix_of` (signature <$> m') → find P m = Some f →
    ∃ f', find P m' = Some f' ∧ signature f' = signature f.
Proof.
  intros HP. induction m as [|a m IH]; intros m' f Hpre Hf; [discriminate Hf|].
  destruct m' as [|a' m']; [by apply prefix_nil_inv in Hpre|].
  rewrite !fmap_cons in Hpre.
  pose proof (prefix_cons_inv_1 _ _ _ _ Hpre) as Ha.
  pose proof (prefix_cons_inv_2 _ _ _ _ Hpre) as Hm.
  simpl in Hf |- *. rewrite (HP a' a) by done.
  destruct (P a).
  - injection Hf as <-. eauto.
  - by apply IH.
Qed.

Lemma find_app_None {A : Type} (P : A → bool) (l k : list A) :
  find P l = None → find P (l ++ k) = find P k.
Proof.
  induction l as [|a l IH]; [done|]. simpl. destruct (P a); [discriminate|exact IH].
Qed.

Lemma find_app_Some {A : Type} (P : A → bool) (l k : list A) (a : A) :
  find P l = Some a → find P (l ++ k) = Some a.
Proof.
  induction l as [|b l IH]; [done|]. simpl. destruct (P b); [done|exact IH].
Qed.

Lemma module_getFunction_extends name s s' f :
  module_extends s s' → module_getFunction name s = Some f →
  ∃ f', module_getFunction name s' = Some f' ∧ signature f' = signature f.
Proof.
  unfold module_extends, signatures, module_getFunction. intros Hext Hf.
  eapply find_signature_prefix; [|exact Hext|exact Hf].
  intros a b [= Hid Hn Hr Ha Hp]. by rewrite Hn, Hr.
Qed.

Lemma getFunction_found name s f :
  module_getFunction name s = Some f → getFunction name s = (Some (f_id f), s).
Proof. unfold getFunction. by intros ->. Qed.

(** What [getFunction] returns is the handle of the function that the
    module now holds under that name, when the prototype remembered under
    the name carries that name. *)
Lemma getFunction_resolves name s fn s' :
  (∀ p, functionProtos s !! name = Some p → getName p = name) →
  getFunction name s = (Some fn, s') →
  ∃ f, module_getFunction name s' = Some f ∧ f_id f = fn.
Proof.
  intros Hwf. unfold getFunction.
  destruct (module_getFunction name s) as [f|] eqn:Hm.
  - intros [= <- <-]. eauto.
  - destruct (functionProtos s !! name) as [p|] eqn:Hp; [|discriminate].
    specialize (Hwf p eq_refl).
    unfold visit_PrototypeAST, handleTopLevelExtern, visit_PrototypeAST_emit,
      Function_Create.
    rewrite Hwf, Hm.
    destruct (jitTopLevel s); intros [= <- <-];
      exists (mkFunction (nextId s) name false (getArgs p) [] []);
      (split; [|reflexivity]);
      unfold module_getFunction in *; simpl;
      rewrite (find_app_None _ _ _ Hm); simpl; rewrite ?Hm;
      by rewrite bool_decide_eq_true_2.
Qed.

Lemma storeParams_extends fn formals remaining :
  ∀ i s s', storeParams fn formals i remaining s = Ok s' → module_extends s s'.
Proof.
  induction remaining as [|n IH]; intros i s s' H; simpl in H.
  - injection H as <-. apply module_extends_refl.
  - destruct (formals !! i); [|discriminate H]. invert_step H.
    destruct r as [alloca s1]. apply IH in H.
    eapply module_extends_trans; [|exact H]. extends_chain.
Qed.

Lemma FunctionAST_prologue_resolves p s fn s' :
  FunctionAST_prologue p s = Ok (fn, s') →
  ∃ f, module_getFunction (getName p) s' = Some f ∧ f_id f = fn.
Proof.
  unfold FunctionAST_prologue. intros H.
  destruct (getFunction _ _) as [function s2] eqn:Eg.
  destruct (BasicBlock_Create _ _ _) as [bb s3] eqn:Eb.
  destruct function as [fn'|]; [|discriminate H].
  invert_step H. invert_step H. injection H as <- <-.
  apply getFunction_resolves in Eg as (f & Hf & Hid).
  - match goal with
    | E : storeParams _ _ _ _ _ = Ok ?r |- _ =>
        apply storeParams_extends in E;
        assert (module_extends s2 r) as Hext
          by (eapply module_extends_trans; [|exact E]; extends_chain)
    end.
    destruct (module_getFunction_extends _ _ _ _ Hext Hf) as (f' & Hf' & Hsig).
    exists f'. split; [exact Hf'|]. injection Hsig as Hid' _ _ _ _. congruence.
  - intros q. simpl. rewrite lookup_insert_eq. by intros [= <-].
Qed.

Lemma module_getFunction_run_passes name fn s :
  module_getFunction name (passManager_run fn s)
  = run_passes fn (passManager s) <$> module_getFunction name s.
Proof.
  unfold module_getFunction, passManager_run. simpl.
  apply find_fmap_invariant. intros f. unfold run_passes. by case_decide.
Qed.

(** X3: a definition that has been through emission is in the current
    module under its name, whether its body was emitted or failed (a failed
    function is not erased); when the body was emitted, Last Function is the
    handle of that function and the passes the pass manager held have been
    run on it. *)
Theorem FunctionAST_emission_result (node : FunctionAST) (s s' : CodeGenVisitor) :
  visit_FunctionAST_emit node s = Ok s' →
  ∃ f, module_getFunction (getName (getProto node)) s' = Some f ∧
       match lastFunction s' with
       | None => True
       | Some fn => fn = f_id f ∧ passManager s `suffix_of` f_passes f
       end.
Proof.
  unfold visit_FunctionAST_emit. intros H.
  apply bind_Ok in H as ([fn s5] & Hpro & H).
  apply bind_Ok in H as (s6 & Hbody & H).
  pose proof (FunctionAST_prologue_stable _ _ _ _ Hpro) as St5.
  pose proof (visit_stable _ _ _ Hbody) as St6.
  apply FunctionAST_prologue_resolves in Hpro as (f5 & Hf5 & Hid5).
  destruct (module_getFunction_extends _ _ _ _ (visit_extends _ _ _ Hbody) Hf5)
    as (f6 & Hf6 & Hsig6).
  assert (f_id f6 = fn) as Hid6 by (injection Hsig6 as Hid' _ _ _ _; congruence).
  destruct (lastValue s6) as [retVal|]; injection H as <-.
  - destruct (module_getFunction_extends _ _ _ _ (CreateRet_extends retVal s6) Hf6)
      as (f7 & Hf7 & Hsig7).
    assert (f_id f7 = fn) as Hid7 by (injection Hsig7 as Hid' _ _ _ _; congruence).
    exists (run_passes fn (passManager (CreateRet retVal s6)) f7). split.
    + change (module_getFunction (getName (getProto node))
                (set_lastFunction (Some fn) (passManager_run fn (CreateRet retVal s6))))
        with (module_getFunction (getName (getProto node))
                (passManager_run fn (CreateRet retVal s6))).
      by rewrite module_getFunction_run_passes, Hf7.
    + cbn [lastFunction set_lastFunction].
      unfold run_passes. rewrite decide_True by done. cbn [f_passes f_id].
      split; [done|].
      rewrite (st_passManager _ _ (CreateRet_stable retVal s6)).
      rewrite (st_passManager _ _ St6), (st_passManager _ _ St5).
      by apply suffix_app_r.
  - exists f6. by split.
Qed.

Lemma FunctionAST_emission_result_witness :
  ∃ f, module_getFunction "f"
         (match visit_FunctionAST_emit (mkFunctionAST proto_f (CallExprAST "g" []))
                  CodeGenVisitor_new with
          | Ok s' => s'
          | Fault => CodeGenVisitor_new
          end) = Some f.
Proof.
  destruct (FunctionAST_emission_result (mkFunctionAST proto_f (CallExprAST "g" []))
              CodeGenVisitor_new
              (match visit_FunctionAST_emit (mkFunctionAST proto_f (CallExprAST "g" []))
                       CodeGenVisitor_new with
               | Ok s' => s'
               | Fault => CodeGenVisitor_new
               end)) as (f & Hf & _); [vm_compute; reflexivity|].
  exists f. exact Hf.
Defined.

(** X2: a name that resolves to a function of the current module before an
    expression is emitted resolves to the same handle, with the same formals,
    after it: emission never removes, renames or re-types a function. *)
Theorem resolved_function_stays_resolved (e : ExprAST) (name : string)
    (s s' : CodeGenVisitor) (f : Function) :
  visit e s = Ok s' → module_getFunction name s = Some f →
  ∃ f', module_getFunction name s' = Some f' ∧
        f_id f' = f_id f ∧ f_args f' = f_args f ∧
        getFunction name s' = (Some (f_id f), s').
Proof.
  intros Hv Hf.
  destruct (module_getFunction_extends _ _ _ _ (visit_extends _ _ _ Hv) Hf)
    as (f' & Hf' & Hsig).
  injection Hsig as Hid _ _ Hargs _.
  exists f'. repeat split; try done.
  rewrite (getFunction_found _ _ _ Hf'). by rewrite Hid.
Qed.

Lemma resolved_function_stays_resolved_witness :
  ∃ s' f', visit counting_loop inside_f = Ok s' ∧
           module_getFunction "f" s' = Some f' ∧ f_id f' = 0 ∧ f_args f' = ["x"].
Proof.
  destruct (module_getFunction "f" inside_f) as [f|] eqn:Hf;
    [|vm_compute in Hf; discriminate Hf].
  destruct (resolved_function_stays_resolved counting_loop "f" inside_f
              counting_loop_emitted f) as (f' & Hf' & Hid & Hargs & _);
    [vm_compute; reflexivity|exact Hf|].
  exists counting_loop_emitted, f'. split; [vm_compute; reflexivity|].
  split; [exact Hf'|].
  vm_compute in Hf. injection Hf as <-. by split.
Defined.

(** * What expression emission leaves alone *)

(** X1: emitting an expression, whatever it is and whether it yields a value
    or null, never touches Evaluation Results, the modules given to the JIT,
    the pass manager or the debug flag; it never sets the jitTopLevel flag,
    and it forgets no remembered prototype. *)
Theorem expression_emission_keeps_driver_state (e : ExprAST) (s s' : CodeGenVisitor) :
  visit e s = Ok s' →
  evaluationRes s' = evaluationRes s ∧ jit s' = jit s ∧
  passManager s' = passManager s ∧ debug s' = debug s ∧
  (jitTopLevel s = false → jitTopLevel s' = false) ∧
  (∀ k, is_Some (functionProtos s !! k) → is_Some (functionProtos s' !! k)).
Proof.
  intros H. apply visit_stable in H. destruct H as [He Hj Hp Hd Hf Hm _].
  by repeat split.
Qed.

Lemma expression_emission_keeps_driver_state_witness :
  passManager counting_loop_emitted = configuredPasses ∧
  jit counting_loop_emitted = [] ∧ evaluationRes counting_loop_emitted = None.
Proof.
  destruct (expression_emission_keeps_driver_state counting_loop inside_f
              counting_loop_emitted) as (He & Hj & Hp & _);
    [vm_compute; reflexivity|].
  rewrite He, Hj, Hp. clear He Hj Hp. vm_compute. repeat split.
Defined.

(** X4: an expression that contains no [var] and no [for] leaves every
    binding of Named Values as it was, also when it fails: reading or
    assigning an unbound name inserts at most a null entry. *)
Theorem scope_free_emission_keeps_bindings (e : ExprAST) (s s' : CodeGenVisitor) :
  visit e s = Ok s' → scope_free e = true → ∀ x, binding s' x = binding s x.
Proof. intros H Hsf. by eapply scope_free_same_bindings. Qed.

Lemma scope_free_emission_keeps_bindings_witness :
  ∃ s', visit x_plus_call_g inside_f = Ok s' ∧ lastValue s' = None ∧
        binding s' "x" = Some (mkAllocaInst 2 "x").
Proof.
  destruct (visit x_plus_call_g inside_f) as [s'|] eqn:Hv;
    [|vm_compute in Hv; discriminate Hv].
  exists s'. split; [reflexivity|]. split.
  - vm_compute in Hv. injection Hv as <-. reflexivity.
  - rewrite (scope_free_emission_keeps_bindings _ _ _ Hv); [|reflexivity].
    clear Hv. vm_compute. reflexivity.
Defined.

(** ** Loops restore what they shadow *)

Lemma emitArgs_success_bindings args :
  Forall (λ e, ∀ s s' v, visit e s = Ok s' → lastValue s' = Some v →
                var_free e = true → same_bindings s s') args →
  forallb var_free args = true →
  ∀ vals s vals' s', emitArgs visit args vals s = Ok (Continue vals' s') →
    same_bindings s s'.
Proof.
  induction 1 as [|a args Ha _ IH]; intros Hvf vals s vals' s' H; simpl in H.
  - injection H as <- <-. apply same_bindings_refl.
  - simpl in Hvf. apply andb_prop in Hvf as [Hva Hvf].
    invert_step H. destruct (lastValue r) eqn:El; [|discriminate H].
    apply (IH Hvf) in H. eapply same_bindings_trans; [|exact H]. eauto.
Qed.

(** Helper for X5, by induction on the expression. *)
Lemma var_free_success_same_bindings e :
  ∀ s s' v, visit e s = Ok s' → lastValue s' = Some v → var_free e = true →
    same_bindings s s'.
Proof.
  induction e as [val|name|opcode expr IH|l r op IHl IHr|body vars IHb IHv
                 |callee args IHa|c t e haveElse IHc IHt IHe
                 |start step end_ body varName IH1 IH2 IH3 IH4] using ExprAST_ind;
    intros s s' v H Hv Hvf; cbn [visit] in H; cbn [var_free] in Hvf;
    try discriminate Hvf;
    repeat match goal with
           | H : _ && _ = true |- _ => apply andb_prop in H as [? ?]
           end.
  - injection H as <-. bindings_chain.
  - invert_all H.
    match goal with
    | E : CreateLoad ?o _ _ = Ok _ |- _ => destruct o; [|discriminate E]
    end.
    bindings_chain.
  - invert_all H; try congruence; bindings_chain.
  - case_decide.
    + destruct l; invert_all H; try (simpl in Hv; congruence); bindings_chain.
    + invert_all H; try (simpl in Hv; congruence); bindings_chain.
  - destruct (getFunction callee s) as [calleeF s1] eqn:Eg.
    destruct calleeF as [f|]; [|invert_all H; simpl in Hv; congruence].
    destruct (arg_size f s1) as [n|]; [cbn [bind] in H|discriminate H].
    case_decide; [invert_all H; simpl in Hv; congruence|].
    invert_step H.
    match goal with
    | E : emitArgs _ _ _ _ = Ok ?r |- _ => destruct r as [argsVals s2|s2]
    end.
    + match goal with
      | E : emitArgs _ _ _ _ = Ok _ |- _ =>
          pose proof (emitArgs_success_bindings args IHa Hvf _ _ _ _ E) as Hd
      end.
      invert_all H.
      (eapply same_bindings_trans; [|eapply same_bindings_trans; [exact Hd|]]);
        bindings_chain.
    + injection H as <-.
      match goal with
      | E : emitArgs _ _ _ _ = Ok _ |- _ => apply emitArgs_Return in E
      end.
      congruence.
  - destruct e as [e|]; simpl in IHe; invert_all H; try congruence; bindings_chain.
  - apply bind_Ok in H as (function & Hf & H).
    apply bind_Ok in H as ([alloca s1] & Ha & H).
    apply bind_Ok in H as (s2 & Hs & H).
    destruct (lastValue s2) as [startVal|] eqn:Hsv; [|injection H as <-; congruence].
    destruct (For_enter _ _ _ _ _) as [[oldVar loopBB] s3] eqn:He.
    apply bind_Ok in H as (s4 & Hb & H).
    destruct (lastValue s4) as [bodyVal|] eqn:Hbv; [|injection H as <-; congruence].
    apply bind_Ok in H as (s5 & Hst & H).
    destruct (lastValue s5) as [stepVal|] eqn:Hstv; [|injection H as <-; congruence].
    apply bind_Ok in H as (s6 & Hadv & H).
    apply bind_Ok in H as (s7 & Hen & H).
    destruct (lastValue s7) as [endCond|] eqn:Hev; [|injection H as <-; congruence].
    injection H as <-.
    assert (same_bindings s s2) as H02 by bindings_chain.
    assert (same_bindings s3 s7) as H37 by bindings_chain.
    destruct (For_enter_bindings _ _ _ _ _ _ _ _ He) as [Hold Hother].
    intros x. rewrite For_exit_bindings. case_decide.
    + subst x. rewrite Hold. apply H02.
    + rewrite (H37 x), (Hother x) by done. apply H02.
Qed.

(** X5: an expression without [var] that is emitted with success leaves
    every binding of Named Values as it was: each loop in it has restored
    the binding its variable shadowed, or removed the name again. *)
Theorem loops_restore_bindings (e : ExprAST) (s s' : CodeGenVisitor) :
  visit e s = Ok s' → is_Some (lastValue s') → var_free e = true →
  ∀ x, binding s' x = binding s x.
Proof. intros H [v Hv] Hvf. by eapply var_free_success_same_bindings. Qed.

Lemma loops_restore_bindings_witness :
  binding counting_loop_emitted "i" = None ∧
  binding counting_loop_emitted "x" = Some (mkAllocaInst 2 "x").
Proof.
  assert (visit counting_loop inside_f = Ok counting_loop_emitted) as Hv
    by (vm_compute; reflexivity).
  assert (is_Some (lastValue counting_loop_emitted)) as Hl
    by (vm_compute; eexists; reflexivity).
  rewrite !(loops_restore_bindings counting_loop inside_f counting_loop_emitted Hv Hl
              eq_refl).
  clear Hv Hl. vm_compute. split; reflexivity.
Defined.

(** * More on single visitors *)

(** X6: after a declaration has been emitted with success, Named Values
    holds at most one entry per declared variable, whatever it held before
    the declaration. *)
Theorem declaration_keeps_at_most_its_variables (body : ExprAST)
    (vars : list (string * option ExprAST)) (s s' : CodeGenVisitor) :
  visit (DeclarationExprAST body vars) s = Ok s' → is_Some (lastValue s') →
  (size (namedValues s') ≤ length vars)%nat.
Proof. apply Declaration_leaves_at_most_its_variables. Qed.

Lemma declaration_keeps_at_most_its_variables_witness :
  ∃ s', visit var_x_in_x inside_f = Ok s' ∧ (size (namedValues s') ≤ 1)%nat.
Proof.
  destruct (visit var_x_in_x inside_f) as [s'|] eqn:Hv;
    [|vm_compute in Hv; discriminate Hv].
  exists s'. split; [reflexivity|].
  apply (declaration_keeps_at_most_its_variables _ _ _ _ Hv).
  vm_compute in Hv. injection Hv as <-. eexists. reflexivity.
Defined.

(** ** Function entry *)

Lemma storeParams_binds_formals fn formals remaining :
  ∀ i s s', storeParams fn formals i remaining s = Ok s' →
    ∀ x, is_Some (binding s' x) → is_Some (binding s x) ∨ x ∈ formals.
Proof.
  induction remaining as [|n IH]; intros i s s' H x Hx; simpl in H.
  - injection H as <-. by left.
  - destruct (formals !! i) as [name|] eqn:Hi; [|discriminate H].
    apply bind_Ok in H as ([alloca s1] & Ha & H).
    destruct (IH _ _ _ H x Hx) as [Hb|Hin]; [|by right].
    destruct (decide (x = name)) as [->|Hne].
    + right. by eapply list_elem_of_lookup_2.
    + left. unfold binding, namedValues_assign in Hb. simpl in Hb.
      rewrite lookup_insert_ne in Hb by done.
      assert (same_bindings s (CreateStore (Argument fn i) alloca s1)) as Hs
        by bindings_chain.
      by rewrite <- (Hs x).
Qed.

(** X7: at the entry of a function Named Values is cleared and then filled
    from the formals only: whatever was bound before the definition, the
    names bound when the body starts are formals of the prototype. *)
Theorem function_entry_binds_only_formals (p : PrototypeAST) (s s' : CodeGenVisitor)
    (fn : nat) :
  FunctionAST_prologue p s = Ok (fn, s') →
  ∀ x, is_Some (binding s' x) → x ∈ getArgs p.
Proof.
  unfold FunctionAST_prologue. intros H x Hx.
  destruct (getFunction _ _) as [function s2] eqn:Eg.
  destruct (BasicBlock_Create _ _ _) as [bb s3] eqn:Eb.
  destruct function as [fn'|]; [|discriminate H].
  apply bind_Ok in H as (n & _ & H). apply bind_Ok in H as (s5 & Hst & H).
  injection H as <- <-.
  destruct (storeParams_binds_formals _ _ _ _ _ _ Hst x Hx) as [Hb|Hin]; [|done].
  unfold binding, namedValues_clear in Hb. simpl in Hb.
  rewrite lookup_empty in Hb. by destruct Hb.
Qed.

Lemma function_entry_binds_only_formals_witness :
  is_Some (binding inside_f "x") ∧ "x" ∈ getArgs proto_f.
Proof.
  assert (is_Some (binding inside_f "x")) as Hx by (vm_compute; eexists; reflexivity).
  split; [exact Hx|].
  apply (function_entry_binds_only_formals proto_f CodeGenVisitor_new inside_f 0);
    [vm_compute; reflexivity|exact Hx].
Defined.

(** ** Assignment and operators *)

Lemma namedValues_at_bound name s a :
  binding s name = Some a → namedValues_at name s = (Some a, s).
Proof.
  unfold binding, namedValues_at.
  destruct (namedValues s !! name) as [[b|]|]; simpl; [|discriminate|discriminate].
  by intros [= ->].
Qed.

(** X8: assigning to a bound variable appends one store of the right-hand
    value into the variable's slot to the insertion block, yields that same
    value, and changes no binding. *)
Theorem assignment_stores_and_yields_value (name : string) (rhs : ExprAST)
    (s s1 : CodeGenVisitor) (rv : Value) (a : AllocaInst) (bb : nat) :
  visit rhs s = Ok s1 → lastValue s1 = Some rv →
  binding s1 name = Some a → builder s1 = Some bb →
  ∃ s', visit (BinaryExprAST (VariableExprAST name) rhs "=") s = Ok s' ∧
        lastValue s' = Some rv ∧
        block_insts bb s'
        = (λ l, l ++ [mkInstruction (nextId s1) Store [rv; AllocaValue a] ""])%list
          <$> block_insts bb s1 ∧
        ∀ x, binding s' x = binding s1 x.
Proof.
  intros Hr Hv Hb Hbb. cbn [visit]. rewrite decide_True by done.
  rewrite Hr. cbn [bind]. rewrite Hv, (namedValues_at_bound _ _ _ Hb).
  eexists. split; [reflexivity|]. split; [reflexivity|]. split.
  - apply (block_insts_Create Store [rv; AllocaValue a] "" s1 bb Hbb).
  - intros x.
    apply (same_bindings_trans s1 (CreateStore rv a s1)); bindings_chain.
Qed.

Lemma assignment_stores_and_yields_value_witness :
  ∃ s', visit x_gets_7 inside_f = Ok s' ∧ lastValue s' = Some (ConstantFP 7).
Proof.
  destruct (assignment_stores_and_yields_value "x" (NumberExprAST 7) inside_f
              (set_lastValue (Some (ConstantFP 7)) inside_f) (ConstantFP 7)
              (mkAllocaInst 2 "x") 1) as (s' & Hv & Hl & _);
    [reflexivity|reflexivity|vm_compute; reflexivity|vm_compute; reflexivity|].
  exists s'. by split.
Defined.

Lemma emitBinaryOp_user op lv rv s :
  op ∉ ["="; "+"; "-"; "*"; "/"; "<"]%char →
  emitBinaryOp op lv rv s
  = let '(f, s1) := getFunction ("binary" ++ String op "") s in
    match f with
    | None => Fault
    | Some f' =>
        let '(v, s2) := Create (Call f') [lv; rv] "binop" s1 in
        Ok (set_lastValue (Some v) s2)
    end.
Proof.
  intros Hop. repeat (apply not_elem_of_cons in Hop as [? Hop]).
  unfold emitBinaryOp. by rewrite !decide_False by done.
Qed.

(** X9: an operator that is neither built in nor defined aborts the
    emission (the assertion on the resolved function fails), after its
    operands have been emitted; this holds for binary and for unary
    operators. *)
Theorem undefined_operator_aborts :
  (∀ l r op s s1 s2 lv rv,
     op ∉ ["="; "+"; "-"; "*"; "/"; "<"]%char →
     visit l s = Ok s1 → lastValue s1 = Some lv →
     visit r s1 = Ok s2 → lastValue s2 = Some rv →
     module_getFunction ("binary" ++ String op "") s2 = None →
     functionProtos s2 !! ("binary" ++ String op "") = None →
     visit (BinaryExprAST l r op) s = Fault) ∧
  (∀ e opcode s s1 v,
     visit e s = Ok s1 → lastValue s1 = Some v →
     module_getFunction ("unary" ++ String opcode "") s1 = None →
     functionProtos s1 !! ("unary" ++ String opcode "") = None →
     visit (UnaryExprAST opcode e) s = Fault).
Proof.
  split.
  - intros l r op s s1 s2 lv rv Hop Hl Hlv Hr Hrv Hm Hp.
    cbn [visit]. rewrite decide_False
      by (intros ->; apply Hop; apply list_elem_of_here).
    rewrite Hl. cbn [bind]. rewrite Hr. cbn [bind]. rewrite Hlv, Hrv.
    rewrite (emitBinaryOp_user _ _ _ _ Hop).
    unfold getFunction. by rewrite Hm, Hp.
  - intros e opcode s s1 v He Hv Hm Hp. cbn [visit]. rewrite He. cbn [bind].
    rewrite Hv. unfold getFunction. by rewrite Hm, Hp.
Qed.

Lemma undefined_operator_aborts_witness :
  visit (BinaryExprAST (VariableExprAST "x") (NumberExprAST 1) "@") inside_f = Fault ∧
  visit (UnaryExprAST "!" (VariableExprAST "x")) inside_f = Fault.
Proof.
  destruct undefined_operator_aborts as [Hbinary Hunary].
  destruct (visit (VariableExprAST "x") inside_f) as [s1|] eqn:Hx;
    [|vm_compute in Hx; discriminate Hx].
  assert (lastValue s1 = Some (InstructionValue 4)) as Hv
    by (clear -Hx; vm_compute in Hx; injection Hx as <-; reflexivity).
  split.
  - apply (Hbinary _ _ _ inside_f s1 (set_lastValue (Some (ConstantFP 1)) s1)
             (InstructionValue 4) (ConstantFP 1));
      [ clear; intros Hin;
        repeat (apply elem_of_cons in Hin as [Hin|Hin]; [discriminate Hin|]);
        by apply elem_of_nil in Hin
      | exact Hx | exact Hv | reflexivity | reflexivity
      | clear -Hx; vm_compute in Hx; injection Hx as <-; vm_compute; reflexivity
      | clear -Hx; vm_compute in Hx; injection Hx as <-; vm_compute; reflexivity ].
  - apply (Hunary _ _ inside_f s1 (InstructionValue 4));
      [ exact Hx | exact Hv
      | clear -Hx; vm_compute in Hx; injection Hx as <-; vm_compute; reflexivity
      | clear -Hx; vm_compute in Hx; injection Hx as <-; vm_compute; reflexivity ].
Defined.

(** X10: a binary operator that is not built in and whose function
    [binary<op>] is in the current module is lowered, after its operands, to
    one call of that function on the two operand values, appended to the
    insertion block; the call is the value of the expression. *)
Theorem user_operator_lowers_to_call (l r : ExprAST) (op : ascii)
    (s s1 s2 : CodeGenVisitor) (lv rv : Value) (f : Function) (bb : nat) :
  op ∉ ["="; "+"; "-"; "*"; "/"; "<"]%char →
  visit l s = Ok s1 → lastValue s1 = Some lv →
  visit r s1 = Ok s2 → lastValue s2 = Some rv →
  module_getFunction ("binary" ++ String op "") s2 = Some f →
  builder s2 = Some bb →
  ∃ s', visit (BinaryExprAST l r op) s = Ok s' ∧
        lastValue s' = Some (InstructionValue (nextId s2)) ∧
        block_insts bb s'
        = (λ i, i ++ [mkInstruction (nextId s2) (Call (f_id f)) [lv; rv] "binop"])%list
          <$> block_insts bb s2.
Proof.
  intros Hop Hl Hlv Hr Hrv Hm Hbb. cbn [visit].
  rewrite decide_False by (intros ->; apply Hop; apply list_elem_of_here).
  rewrite Hl. cbn [bind]. rewrite Hr. cbn [bind]. rewrite Hlv, Hrv.
  rewrite (emitBinaryOp_user _ _ _ _ Hop), (getFunction_found _ _ _ Hm).
  eexists. split; [reflexivity|]. split; [reflexivity|].
  apply (block_insts_Create (Call (f_id f)) [lv; rv] "binop" s2 bb Hbb).
Qed.

(** X11: [l < r] is lowered after its operands.  When both values are
    floating-point constants the builder folds the comparison and the
    conversion: nothing is appended, and the value is the constant 1.0 when
    the left one is less than the right one or one of them is a NaN, and 0.0
    otherwise.  When one of the values is not a constant, an unordered
    less-than comparison and the conversion of its result to a double are
    appended to the insertion block, and the conversion is the value. *)
Theorem less_than_lowers_to_compare_and_convert (l r : ExprAST)
    (s s1 s2 : CodeGenVisitor) (lv rv : Value) :
  visit l s = Ok s1 → lastValue s1 = Some lv →
  visit r s1 = Ok s2 → lastValue s2 = Some rv →
  (∀ a b, lv = ConstantFP a → rv = ConstantFP b →
     visit (BinaryExprAST l r "<") s
     = Ok (set_lastValue (Some (ConstantFP (if (b <=? a)%float then 0 else 1))) s2)) ∧
  (∀ bb, is_constant lv && is_constant rv = false → builder s2 = Some bb →
     ∃ s', visit (BinaryExprAST l r "<") s = Ok s' ∧
           lastValue s' = Some (InstructionValue (S (nextId s2))) ∧
           block_insts bb s'
           = (λ i, i ++ [mkInstruction (nextId s2) FCmpULT [lv; rv] "cmptmp";
                         mkInstruction (S (nextId s2)) UIToFP
                           [InstructionValue (nextId s2)] "booltmp"])%list
             <$> block_insts bb s2).
Proof.
  intros Hl Hlv Hr Hrv.
  assert (visit (BinaryExprAST l r "<") s
          = let '(c, s3) := CreateOrFold FCmpULT [lv; rv] "cmptmp" s2 in
            let '(v, s4) := CreateOrFold UIToFP [c] "booltmp" s3 in
            Ok (set_lastValue (Some v) s4)) as ->.
  { cbn [visit]. rewrite decide_False by done.
    rewrite Hl. cbn [bind]. rewrite Hr. cbn [bind]. rewrite Hlv, Hrv.
    unfold emitBinaryOp. rewrite !decide_False by done. by rewrite decide_True by done. }
  split.
  - intros a b -> ->. unfold CreateOrFold. cbn [fold_constants].
    by destruct (b <=? a)%float.
  - intros bb Hc Hbb.
    assert (fold_constants FCmpULT [lv; rv] = None) as Hfold.
    { destruct lv, rv; try reflexivity; discriminate Hc. }
    unfold CreateOrFold at 1. rewrite Hfold.
    destruct (block_insts_Create FCmpULT [lv; rv] "cmptmp" s2 bb Hbb) as (I1 & B1 & N1).
    destruct (Create FCmpULT [lv; rv] "cmptmp" s2) as [c s3] eqn:E1.
    cbn [snd] in I1, B1, N1.
    assert (c = InstructionValue (nextId s2)) as ->
      by (unfold Create in E1; congruence).
    unfold CreateOrFold. cbn [fold_constants].
    destruct (block_insts_Create UIToFP [InstructionValue (nextId s2)] "booltmp" s3 bb B1)
      as (I2 & _ & _).
    destruct (Create UIToFP _ "booltmp" s3) as [v s4] eqn:E2.
    cbn [snd] in I2.
    assert (v = InstructionValue (nextId s3)) as ->
      by (unfold Create in E2; congruence).
    eexists. split; [reflexivity|]. split; [cbn; by rewrite N1|].
    change (block_insts bb (set_lastValue (Some (InstructionValue (nextId s3))) s4))
      with (block_insts bb s4).
    rewrite I2, I1, N1. destruct (block_insts bb s2) as [i|]; [|done]. simpl.
    by rewrite <- app_assoc.
Qed.

Lemma user_operator_lowers_to_call_witness :
  ∃ s', visit (BinaryExprAST (NumberExprAST 1) (NumberExprAST 2) "|") inside_or = Ok s' ∧
        is_Some (lastValue s').
Proof.
  pose (s1 := set_lastValue (Some (ConstantFP 1)) inside_or).
  pose (s2 := set_lastValue (Some (ConstantFP 2)) s1).
  destruct (module_getFunction ("binary" ++ String "|" "") s2) as [f|] eqn:Hf;
    [|vm_compute in Hf; discriminate Hf].
  destruct (user_operator_lowers_to_call (NumberExprAST 1) (NumberExprAST 2) "|"
              inside_or s1 s2 (ConstantFP 1) (ConstantFP 2) f 1) as (s' & Hv & Hl & _);
    [ clear; intros Hin;
      repeat (apply elem_of_cons in Hin as [Hin|Hin]; [discriminate Hin|]);
      by apply elem_of_nil in Hin
    | clear; vm_compute; reflexivity | clear; vm_compute; reflexivity
    | clear; vm_compute; reflexivity | clear; vm_compute; reflexivity
    | exact Hf | clear; vm_compute; reflexivity | ].
  exists s'. split; [exact Hv|]. rewrite Hl. by eexists.
Defined.

Lemma less_than_lowers_to_compare_and_convert_witness :
  visit (BinaryExprAST (NumberExprAST 1) (NumberExprAST 2) "<") inside_f
  = Ok (set_lastValue (Some (ConstantFP 1)) inside_f) ∧
  ∃ s', visit (BinaryExprAST (VariableExprAST "x") (NumberExprAST 2) "<") inside_f = Ok s' ∧
        lastValue s' = Some (InstructionValue 6).
Proof.
  split.
  - pose (s1 := set_lastValue (Some (ConstantFP 1)) inside_f).
    pose (s2 := set_lastValue (Some (ConstantFP 2)) s1).
    destruct (less_than_lowers_to_compare_and_convert (NumberExprAST 1) (NumberExprAST 2)
                inside_f s1 s2 (ConstantFP 1) (ConstantFP 2)) as [Hfold _];
      [ clear; vm_compute; reflexivity | clear; vm_compute; reflexivity
      | clear; vm_compute; reflexivity | clear; vm_compute; reflexivity | ].
    rewrite (Hfold _ _ eq_refl eq_refl). clear. vm_compute. reflexivity.
  - destruct (visit (VariableExprAST "x") inside_f) as [s1|] eqn:Hx;
      [|vm_compute in Hx; discriminate Hx].
    pose (s2 := set_lastValue (Some (ConstantFP 2)) s1).
    destruct (less_than_lowers_to_compare_and_convert (VariableExprAST "x")
                (NumberExprAST 2) inside_f s1 s2 (InstructionValue 4) (ConstantFP 2))
      as [_ Hemit];
      [ exact Hx
      | vm_compute in Hx; injection Hx as <-; vm_compute; reflexivity
      | reflexivity | reflexivity | ].
    destruct (Hemit 1) as (s' & Hv & Hl & _);
      [ reflexivity
      | vm_compute in Hx; injection Hx as <-; vm_compute; reflexivity | ].
    exists s'. split; [exact Hv|]. rewrite Hl.
    vm_compute in Hx. injection Hx as <-. vm_compute. reflexivity.
Defined.

(** * More on the driver *)

Lemma getFunction_declares name s p :
  module_getFunction name s = None → functionProtos s !! name = Some p →
  ∃ s', getFunction name s = (Some (nextId s), s') ∧
        module s'
        = (module s ++
           [mkFunction (nextId s) (getName p)
              (bool_decide (is_Some (module_getFunction (getName p) s)))
              (getArgs p) [] []])%list.
Proof.
  intros Hm Hp. unfold getFunction. rewrite Hm, Hp.
  unfold visit_PrototypeAST, handleTopLevelExtern, visit_PrototypeAST_emit,
    Function_Create.
  destruct (jitTopLevel s); eexists; split; reflexivity.
Qed.

Section DriverFacts.
Variable findSymbol : list (list Function) → string → JITSymbol.

(** X12: a top-level definition first hands the current module to the JIT,
    whatever becomes of its own emission; a top-level expression hands over
    nothing when its emission fails, and when it succeeds hands over the
    module it was emitted into and leaves an empty module without insertion
    point. *)
Theorem top_level_submissions :
  (∀ node s s',
     handleTopLevelDefinition node s = Ok s' → jit s' = (jit s ++ [module s])%list) ∧
  (∀ node s s',
     handleTopLevelExpression findSymbol node s = Ok s' →
     ∃ s2, visit_FunctionAST_emit node (set_jitTopLevel false s) = Ok s2 ∧
       ((lastFunction s2 = None ∧ s' = s2 ∧ jit s' = jit s) ∨
        (is_Some (lastFunction s2) ∧ jit s' = (jit s ++ [module s2])%list ∧
         module s' = [] ∧ builder s' = None))).
Proof.
  split.
  - intros node s s'. rewrite handleTopLevelDefinition_eq. intros H.
    apply visit_FunctionAST_emit_stable in H. by rewrite (st_jit _ _ H).
  - intros node s s' H.
    apply handleTopLevelExpression_inv in H as (s2 & Hemit & H).
    exists s2. split; [exact Hemit|].
    pose proof (st_jit _ _ (visit_FunctionAST_emit_stable _ _ _ Hemit)) as Hj.
    change (jit (set_jitTopLevel false s)) with (jit s) in Hj.
    destruct H as [[Hfn ->]|[(Hfn & _ & ->)|(val & res & Hfn & _ & _ & ->)]].
    + left. by repeat split.
    + right. repeat split; try done.
      change (jit (initModuleAndPassManager (addModule s2)))
        with (jit s2 ++ [module s2])%list. by rewrite Hj.
    + right. repeat split; try done.
      change (jit (set_evaluationRes (Some (res ++ [val])%list)
                     (initModuleAndPassManager (addModule s2))))
        with (jit s2 ++ [module s2])%list. by rewrite Hj.
Qed.

Lemma accept_clears_flag node s s' :
  (∀ e, node ≠ ExprNode e) →
  accept findSymbol node (set_jitTopLevel true s) = Ok s' → jitTopLevel s' = false.
Proof.
  intros Hne H. destruct node as [e|p|f]; cbn [accept] in H.
  - by destruct (Hne e).
  - by injection H as <-.
  - rewrite visit_FunctionAST_cases in H.
    change (jitTopLevel (set_jitTopLevel true s)) with true in H. cbv iota in H.
    destruct (bool_decide _).
    + apply handleTopLevelExpression_inv in H as (s2 & Hemit & H).
      pose proof (st_flag _ _ (visit_FunctionAST_emit_stable _ _ _ Hemit) eq_refl) as Hf.
      by destruct H as [[_ ->]|[(_ & _ & ->)|(val & res & _ & _ & _ & ->)]].
    + rewrite handleTopLevelDefinition_eq in H.
      by apply (st_flag _ _ (visit_FunctionAST_emit_stable _ _ _ H)).
Qed.

Lemma evaluate_loop_clears_flag astData :
  Forall (λ n, ∀ e, n ≠ Some (ExprNode e)) astData →
  ∀ s s', jitTopLevel s = false → evaluate_loop findSymbol astData s = Ok s' →
    jitTopLevel s' = false.
Proof.
  induction 1 as [|[node|] rest Hn _ IH]; intros s s' Hflag H; simpl in H.
  - by injection H as <-.
  - apply bind_Ok in H as (s1 & Ha & H). apply (IH s1); [|exact H].
    eapply accept_clears_flag; [|exact Ha]. intros e ->. by apply (Hn e).
  - by apply (IH s).
Qed.

(** X13: the jitTopLevel flag is single-shot: when the nodes are functions
    and prototypes (or null), [evaluate] returns with the flag cleared and
    with the result vector moved out of the generator. *)
Theorem evaluate_clears_flag (astData : list (option ASTNode)) (s s' : CodeGenVisitor)
    (r : option (list float)) :
  Forall (λ n, ∀ e, n ≠ Some (ExprNode e)) astData → jitTopLevel s = false →
  evaluate findSymbol astData s = Ok (r, s') →
  jitTopLevel s' = false ∧ evaluationRes s' = None.
Proof.
  unfold evaluate. intros Hn Hflag H.
  apply bind_Ok in H as (s1 & Hl & H). injection H as <- <-. split; [|done].
  exact (evaluate_loop_clears_flag astData Hn (set_evaluationRes (Some []) s) _ Hflag Hl).
Qed.

Lemma getAssembly_loop_length astData :
  ∀ res s res' s',
    getAssembly_loop findSymbol astData res s = Ok (res', s') →
    length res' = (length res + length (omap id astData))%nat.
Proof.
  induction astData as [|[node|] rest IH]; intros res s res' s' H; simpl in H.
  - injection H as <- <-. simpl. lia.
  - apply bind_Ok in H as (s1 & Ha & H). apply bind_Ok in H as (p & Hp & H).
    apply IH in H. rewrite length_app in H.
    change (omap id (Some node :: rest)) with (node :: omap id rest).
    simpl in *. lia.
  - by apply (IH _ _ _ _ H).
Qed.

(** X14: when [getAssembly] returns, its output has exactly one entry per
    non-null node of the input, and the debug flag is off again. *)
Theorem getAssembly_one_entry_per_node (astData : list (option ASTNode)) (debug_ : bool)
    (s s' : CodeGenVisitor) (res : list Printed) :
  getAssembly findSymbol astData debug_ s = Ok (res, s') →
  length res = length (omap id astData) ∧ debug s' = false.
Proof.
  unfold getAssembly. intros H. apply bind_Ok in H as ([res0 s2] & Hl & H).
  injection H as <- <-. split; [|done].
  by apply getAssembly_loop_length in Hl.
Qed.

(** X15: a definition whose body yields a null Last Value ends with a null
    Last Function, [getAssembly] records the fixed error message for it, and
    goes on with the remaining nodes from the state the failure left. *)
Theorem failed_function_prints_error (node : FunctionAST) (rest : list (option ASTNode))
    (res : list Printed) (s s5 s6 : CodeGenVisitor) (fn : nat) :
  jitTopLevel s = false →
  FunctionAST_prologue (getProto node) s = Ok (fn, s5) →
  visit (getBody node) s5 = Ok s6 → lastValue s6 = None →
  getAssembly_loop findSymbol (Some (FunctionNode node) :: rest) res s
  = getAssembly_loop findSymbol rest (res ++ [ErrorDuringCompilation])
      (set_lastFunction None s6).
Proof.
  intros Hflag Hpro Hbody Hnull. cbn [getAssembly_loop accept].
  rewrite visit_FunctionAST_cases, Hflag. unfold visit_FunctionAST_emit.
  rewrite Hpro. cbn [bind]. rewrite Hbody. cbn [bind]. by rewrite Hnull.
Qed.

(** X16: a top-level extern asks the library for a function with the
    prototype's name and parameters, appended to the current module, and
    makes it Last Function; it remembers the prototype under its name and
    clears the flag.  When no function of the module had the name, the new
    declaration carries it and the name resolves to it.  When one had, the
    library renames the new declaration, and the name goes on resolving to
    the earlier function, which Last Function then is not.  Either way,
    after any later nodes and a submission, the name resolves in the fresh
    module to a new declaration that carries it. *)
Theorem extern_is_remembered (p : PrototypeAST) (later : list (option ASTNode))
    (s s1 s2 : CodeGenVisitor) :
  protos_wf s →
  accept findSymbol (PrototypeNode p) (set_jitTopLevel true s) = Ok s1 →
  evaluate_loop findSymbol later s1 = Ok s2 →
  functionProtos s1 !! getName p = Some p ∧ jitTopLevel s1 = false ∧
  (∃ f, module s1 = (module s ++ [f])%list ∧ f_id f = nextId s ∧
        f_name f = getName p ∧ f_args f = getArgs p ∧
        lastFunction s1 = Some (f_id f) ∧
        match module_getFunction (getName p) s with
        | None =>
            f_renamed f = false ∧ module_getFunction (getName p) s1 = Some f
        | Some g =>
            f_renamed f = true ∧ module_getFunction (getName p) s1 = Some g
        end) ∧
  (∃ s3 f, getFunction (getName p) (initModuleAndPassManager (addModule s2))
             = (Some (f_id f), s3) ∧
           module s3 = [f] ∧ f_name f = getName p ∧ f_renamed f = false).
Proof.
  intros Hwf Ha Hlater.
  pose proof (accept_protos findSymbol _ _ _ Ha) as Hext1.
  pose proof (evaluate_loop_protos findSymbol _ _ _ Hlater) as Hext2.
  cbn [accept] in Ha. injection Ha as <-.
  assert (functionProtos (visit_PrototypeAST p (set_jitTopLevel true s)) !! getName p
          = Some p) as Hp1.
  { unfold visit_PrototypeAST, handleTopLevelExtern, visit_PrototypeAST_emit,
      Function_Create. simpl. by rewrite lookup_insert_eq. }
  split; [exact Hp1|]. split; [reflexivity|]. split.
  - exists (mkFunction (nextId s) (getName p)
              (bool_decide (is_Some (module_getFunction (getName p) s)))
              (getArgs p) [] []).
    do 5 (split; [reflexivity|]).
    change (module_getFunction (getName p)
              (visit_PrototypeAST p (set_jitTopLevel true s)))
      with (find (λ f, bool_decide (f_name f = getName p) && negb (f_renamed f))
              (module s ++
               [mkFunction (nextId s) (getName p)
                  (bool_decide (is_Some (module_getFunction (getName p) s)))
                  (getArgs p) [] []])).
    destruct (module_getFunction (getName p) s) as [g|] eqn:Hg.
    + split; [by apply bool_decide_eq_true; eexists|].
      by apply find_app_Some.
    + split; [by apply bool_decide_eq_false; intros [? ?]|].
      rewrite (find_app_None _ _ _ Hg). cbn.
      by rewrite bool_decide_eq_true_2 by done.
  - destruct (proj1 Hext2 (getName p)) as [q Hq]; [by rewrite Hp1|].
    assert (getName q = getName p) as Hname
      by (by apply (proj2 Hext2 (proj2 Hext1 Hwf))).
    destruct (getFunction_declares (getName p) (initModuleAndPassManager (addModule s2)) q)
      as (s3 & Hg & Hmod); [reflexivity|exact Hq|].
    exists s3, (mkFunction (nextId s2) (getName q) false (getArgs q) [] []).
    split; [exact Hg|]. split; [exact Hmod|]. split; [exact Hname|reflexivity].
Qed.
End DriverFacts.

Lemma evaluate_clears_flag_witness :
  ∃ r s', evaluate countingJIT session CodeGenVisitor_new = Ok (r, s') ∧
          jitTopLevel s' = false ∧ evaluationRes s' = None.
Proof.
  destruct (evaluate countingJIT session CodeGenVisitor_new) as [[r s']|] eqn:He;
    [|vm_compute in He; discriminate He].
  exists r, s'. split; [reflexivity|].
  apply (evaluate_clears_flag countingJIT session CodeGenVisitor_new s' r);
    [|reflexivity|exact He].
  clear He. repeat constructor; intros e; discriminate.
Defined.

Lemma getAssembly_one_entry_per_node_witness :
  ∃ res s',
    getAssembly countingJIT
      [Some (FunctionNode def_f_calls_g); None; Some (PrototypeNode extern_sin)] false
      CodeGenVisitor_new = Ok (res, s') ∧
    length res = 2.
Proof.
  destruct (getAssembly countingJIT
              [Some (FunctionNode def_f_calls_g); None; Some (PrototypeNode extern_sin)]
              false CodeGenVisitor_new) as [[res s']|] eqn:Hg;
    [|vm_compute in Hg; discriminate Hg].
  exists res, s'. split; [reflexivity|].
  by destruct (getAssembly_one_entry_per_node countingJIT _ _ _ _ _ Hg) as [-> _].
Defined.

Lemma failed_function_prints_error_witness :
  getAssembly_loop countingJIT [Some (FunctionNode def_f_calls_g)] [] CodeGenVisitor_new
  = Ok ([ErrorDuringCompilation],
        set_lastFunction None
          (set_lastValue None (logErrorV "Function not found" inside_f))).
Proof.
  rewrite (failed_function_prints_error countingJIT def_f_calls_g [] []
             CodeGenVisitor_new inside_f
             (set_lastValue None (logErrorV "Function not found" inside_f)) 0);
    [reflexivity|reflexivity|vm_compute; reflexivity|vm_compute; reflexivity
    |reflexivity].
Defined.

Lemma extern_is_remembered_witness :
  ∃ s0 s1 g,
    accept countingJIT (PrototypeNode extern_sin)
      (set_jitTopLevel true CodeGenVisitor_new) = Ok s0 ∧
    accept countingJIT (PrototypeNode extern_sin) (set_jitTopLevel true s0) = Ok s1 ∧
    functionProtos s1 !! "sin" = Some extern_sin ∧
    lastFunction s1 = Some 1 ∧
    module_getFunction "sin" s1 = Some g ∧ f_id g = 0.
Proof.
  pose (s0 := visit_PrototypeAST extern_sin (set_jitTopLevel true CodeGenVisitor_new)).
  pose (s1 := visit_PrototypeAST extern_sin (set_jitTopLevel true s0)).
  assert (protos_wf s0) as Hwf
    by exact (proj2 (accept_protos countingJIT (PrototypeNode extern_sin)
                       (set_jitTopLevel true CodeGenVisitor_new) s0 eq_refl)
                protos_wf_new).
  destruct (module_getFunction "sin" s0) as [g|] eqn:Hg;
    [|vm_compute in Hg; discriminate Hg].
  destruct (extern_is_remembered countingJIT extern_sin [] s0 s1 s1 Hwf eq_refl eq_refl)
    as (Hp & _ & (f & _ & Hid & _ & _ & Hlast & Hres) & _).
  change (getName extern_sin) with "sin" in Hp, Hres. rewrite Hg in Hres.
  destruct Hres as [_ Hres].
  exists s0, s1, g. split; [reflexivity|]. split; [reflexivity|].
  split; [exact Hp|]. split; [by rewrite Hlast, Hid|]. split; [exact Hres|].
  clear -Hg. vm_compute in Hg. by injection Hg as <-.
Defined.

Lemma top_level_submissions_witness :
  ∃ s', handleTopLevelDefinition def_f_calls_g CodeGenVisitor_new = Ok s' ∧
        jit s' = [[]].
Proof.
  destruct (handleTopLevelDefinition def_f_calls_g CodeGenVisitor_new) as [s'|] eqn:Hd;
    [|vm_compute in Hd; discriminate Hd].
  exists s'. split; [reflexivity|].
  destruct (top_level_submissions countingJIT) as [Hdef _].
  by rewrite (Hdef _ _ _ Hd).
Defined.

(** * Variables, calls and unary operators *)

(** X17: reading a bound variable appends one load of its slot, named after
    the variable, to the insertion block; the load is the value of the
    expression and the bindings are as before. *)
Theorem bound_variable_is_loaded (name : string) (a : AllocaInst) (s : CodeGenVisitor)
    (bb : nat) :
  binding s name = Some a → builder s = Some bb →
  ∃ s', visit (VariableExprAST name) s = Ok s' ∧
        lastValue s' = Some (InstructionValue (nextId s)) ∧
        block_insts bb s'
        = (λ i, i ++ [mkInstruction (nextId s) Load [AllocaValue a] name])%list
          <$> block_insts bb s ∧
        namedValues s' = namedValues s.
Proof.
  intros Hb Hbb. cbn [visit]. rewrite (namedValues_at_bound _ _ _ Hb).
  destruct (block_insts_Create Load [AllocaValue a] name s bb Hbb) as (I1 & _ & _).
  exists (set_lastValue (Some (InstructionValue (nextId s)))
            (Create Load [AllocaValue a] name s).2).
  split; [reflexivity|]. split; [reflexivity|]. split; [exact I1|].
  unfold Create, Insert. cbn [snd]. by destruct (builder _).
Qed.

Lemma bound_variable_is_loaded_witness :
  ∃ s', visit (VariableExprAST "x") inside_f = Ok s' ∧
        lastValue s' = Some (InstructionValue 4).
Proof.
  destruct (bound_variable_is_loaded "x" (mkAllocaInst 2 "x") inside_f 1)
    as (s' & Hv & Hl & _);
    [vm_compute; reflexivity|vm_compute; reflexivity|].
  exists s'. split; [exact Hv|]. rewrite Hl. vm_compute. reflexivity.
Defined.

Lemma emitArgs_Continue_length visit' args :
  ∀ vals s vals' s',
    emitArgs visit' args vals s = Ok (Continue vals' s') →
    length vals' = (length vals + length args)%nat.
Proof.
  induction args as [|a args IH]; intros vals s vals' s' H; simpl in H.
  - injection H as <- <-. simpl. lia.
  - invert_step H. destruct (lastValue r) eqn:El; [|discriminate H].
    apply IH in H. rewrite length_app in H. simpl in *. lia.
Qed.

(** X18: a call expression that yields a value yields one fresh call
    instruction: the callee was resolved, it takes as many parameters as the
    call has arguments, every argument yielded a value, and the call carries
    one operand per argument. *)
Theorem call_value_is_checked_call (callee : string) (args : list ExprAST)
    (s s' : CodeGenVisitor) (v : Value) :
  visit (CallExprAST callee args) s = Ok s' → lastValue s' = Some v →
  ∃ f s1 vals s2,
    getFunction callee s = (Some f, s1) ∧
    arg_size f s1 = Some (length args) ∧
    emitArgs visit args [] s1 = Ok (Continue vals s2) ∧
    length vals = length args ∧
    v = InstructionValue (nextId s2) ∧
    s' = set_lastValue (Some v) (Create (Call f) vals "calltmp" s2).2.
Proof.
  cbn [visit]. intros H Hv.
  destruct (getFunction callee s) as [[f|] s1] eqn:Eg.
  - destruct (arg_size f s1) as [n|] eqn:Ea; [|discriminate H]. cbn [bind] in H.
    destruct (decide (n ≠ length args)) as [Hn|Hn].
    + injection H as <-. discriminate Hv.
    + apply dec_stable in Hn. subst n.
      destruct (emitArgs visit args [] s1) as [[vals s2|s2]|] eqn:Ee;
        [| |discriminate H]; cbn [bind] in H.
      * injection H as <-. exists f, s1, vals, s2.
        cbn in Hv. injection Hv as <-.
        split; [reflexivity|]. split; [exact Ea|]. split; [exact Ee|].
        split; [exact (emitArgs_Continue_length _ _ _ _ _ _ Ee)|]. by split.
      * injection H as <-. apply emitArgs_Return in Ee. congruence.
  - injection H as <-. discriminate Hv.
Qed.

(** X19: a unary operator whose function [unary<op>] is in the current
    module is lowered, after its operand, to one call of that function on
    the operand's value; the call is the value of the expression. *)
Theorem unary_operator_lowers_to_call (opcode : ascii) (e : ExprAST)
    (s s1 : CodeGenVisitor) (v : Value) (f : Function) (bb : nat) :
  visit e s = Ok s1 → lastValue s1 = Some v →
  module_getFunction ("unary" ++ String opcode "") s1 = Some f →
  builder s1 = Some bb →
  ∃ s', visit (UnaryExprAST opcode e) s = Ok s' ∧
        lastValue s' = Some (InstructionValue (nextId s1)) ∧
        block_insts bb s'
        = (λ i, i ++ [mkInstruction (nextId s1) (Call (f_id f)) [v] "binop"])%list
          <$> block_insts bb s1.
Proof.
  intros He Hv Hm Hbb. cbn [visit]. rewrite He. cbn [bind]. rewrite Hv.
  rewrite (getFunction_found _ _ _ Hm).
  eexists. split; [reflexivity|]. split; [reflexivity|].
  apply (block_insts_Create (Call (f_id f)) [v] "binop" s1 bb Hbb).
Qed.

(** X20: a [for] expression that yields a value yields the constant 0.0. *)
Theorem For_value_is_zero (start step end_ body : ExprAST) (varName : string)
    (s s' : CodeGenVisitor) (v : Value) :
  visit (ForExprAST start step end_ body varName) s = Ok s' →
  lastValue s' = Some v → v = ConstantFP 0.
Proof.
  cbn [visit]. intros H Hv.
  invert_step H. invert_step H. destruct r0 as [alloca s1]. invert_step H.
  destruct (lastValue r0) as [startVal|] eqn:L2; [|injection H as <-; congruence].
  destruct (For_enter _ _ _ _ _) as [[oldVar loopBB] s3]. invert_step H.
  destruct (lastValue r1) eqn:L4; [|injection H as <-; congruence]. invert_step H.
  destruct (lastValue r2) as [stepVal|] eqn:L5; [|injection H as <-; congruence].
  invert_step H. invert_step H.
  destruct (lastValue r4) as [endCond|] eqn:L7; [|injection H as <-; congruence].
  injection H as <-. unfold For_exit in Hv.
  destruct (CreateOrFold _ _ _ _), (BasicBlock_Create _ _ _). by injection Hv as <-.
Qed.

Lemma call_value_is_checked_call_witness :
  ∃ s' v, visit (CallExprAST "f" [NumberExprAST 1]) inside_f = Ok s' ∧
          lastValue s' = Some v ∧ ∃ s2, v = InstructionValue (nextId s2).
Proof.
  destruct (visit (CallExprAST "f" [NumberExprAST 1]) inside_f) as [s'|] eqn:Hc;
    [|vm_compute in Hc; discriminate Hc].
  destruct (lastValue s') as [v|] eqn:Hv;
    [|vm_compute in Hc; injection Hc as <-; vm_compute in Hv; discriminate Hv].
  destruct (call_value_is_checked_call "f" [NumberExprAST 1] inside_f s' v Hc Hv)
    as (f & s1 & vals & s2 & _ & _ & _ & _ & Hval & _).
  exists s', v. split; [reflexivity|]. split; [exact Hv|]. by exists s2.
Defined.

Lemma unary_operator_lowers_to_call_witness :
  ∃ s', visit (UnaryExprAST "!" (NumberExprAST 1)) inside_not = Ok s' ∧
        is_Some (lastValue s').
Proof.
  pose (s1 := set_lastValue (Some (ConstantFP 1)) inside_not).
  destruct (module_getFunction ("unary" ++ String "!" "") s1) as [f|] eqn:Hf;
    [|vm_compute in Hf; discriminate Hf].
  destruct (unary_operator_lowers_to_call "!" (NumberExprAST 1) inside_not s1
              (ConstantFP 1) f 1) as (s' & Hv & Hl & _);
    [ clear; vm_compute; reflexivity | clear; vm_compute; reflexivity
    | exact Hf | clear; vm_compute; reflexivity | ].
  exists s'. split; [exact Hv|]. rewrite Hl. by eexists.
Defined.

Lemma For_value_is_zero_witness :
  ∃ s', visit counting_loop inside_f = Ok s' ∧ lastValue s' = Some (ConstantFP 0).
Proof.
  destruct (visit counting_loop inside_f) as [s'|] eqn:Hc;
    [|vm_compute in Hc; discriminate Hc].
  destruct (lastValue s') as [v|] eqn:Hv;
    [|vm_compute in Hc; injection Hc as <-; vm_compute in Hv; discriminate Hv].
  exists s'. split; [reflexivity|]. rewrite Hv. f_equal.
  exact (For_value_is_zero _ _ _ _ _ inside_f s' v Hc Hv).
Defined.
